(** * proglog: the segmented commit log (store, index, segment, Log)

    A shallow embedding of the Go package [internal/log] and the
    properties of its specification.

    - machine integers are [Z] with the wrap-around written out
      ([uint64], [uint32], [int64]);
    - a file is a byte list held in a directory [FS] keyed by its name;
      a name is the decimal stem together with its extension, which is
      what [fmt.Sprintf("%d%s", base, ".store")] and [strconv.ParseUint]
      exchange; a file handle is the name it was opened under;
    - [*segment] pointers are locations in a heap, so that
      [Log.activeSegment] and [Log.segments] alias the same objects;
    - Go's [(value, error)] results and panics are the three cases of
      [outcome]; every operation returns the state it leaves behind,
      also when it fails. *)

From Stdlib Require Import ZArith Lia.
From Stdlib Require Import Strings.Byte.
From stdpp Require Import base option list gmap sorting.

Local Open Scope Z_scope.

Abbreviation bytes := (list byte).

(** ** Machine integers *)

Definition uint64 (z : Z) : Z := z mod 2 ^ 64.
Definition uint32 (z : Z) : Z := z mod 2 ^ 32.

(** [int64(x)] of a [uint64] value: the same bits, read as two's complement. *)
Definition int64 (z : Z) : Z :=
  let m := z mod 2 ^ 64 in if m <? 2 ^ 63 then m else m - 2 ^ 64.

Definition len {A} (l : list A) : Z := Z.of_nat (length l).

(** ** Big-endian encoding ([encoding/binary.BigEndian]) *)

Definition byte_of_Z (z : Z) : byte :=
  default x00 (Byte.of_N (Z.to_N (z mod 256))).

Definition Z_of_byte (b : byte) : Z := Z.of_N (Byte.to_N b).

(** [be_bytes w n]: the [w] low-order bytes of [n], most significant first. *)
Fixpoint be_bytes (w : nat) (n : Z) : bytes :=
  match w with
  | O => []
  | S k => be_bytes k (n / 256) ++ [byte_of_Z n]
  end.

Definition be_val (bs : bytes) : Z :=
  fold_left (fun acc b => acc * 256 + Z_of_byte b) bs 0.

Definition PutUint64 (v : Z) : bytes := be_bytes 8 v.
Definition PutUint32 (v : Z) : bytes := be_bytes 4 v.
Definition Uint64 (bs : bytes) : Z := be_val bs.
Definition Uint32 (bs : bytes) : Z := be_val bs.

(** ** Results, errors and the state monad *)

Inductive error :=
| EOF                              (* io.EOF *)
| ErrOffsetOutOfRange (off : Z)    (* fmt.Errorf("offset out of range: %d", off) *)
| ErrClosed                        (* os.ErrClosed: use of a closed file *)
| ErrNegativeOffset                (* ReadAt with a negative offset *)
| ErrInvalid                       (* EINVAL: negative length, empty mapping *)
| ErrNotExist                      (* ENOENT *)
| ErrUnmarshal.                    (* proto.Unmarshal rejects the bytes *)

Inductive outcome (A : Type) :=
| Ok (a : A)
| Err (e : error)
| Panic.
Arguments Ok {A} a.
Arguments Err {A} e.
Arguments Panic {A}.

Definition M (S A : Type) : Type := S → outcome A * S.

Definition ret {S A} (a : A) : M S A := fun s => (Ok a, s).
Definition fail {S A} (e : error) : M S A := fun s => (Err e, s).
Definition panic {S A} : M S A := fun s => (Panic, s).
Definition bind {S A B} (m : M S A) (k : A → M S B) : M S B :=
  fun s =>
    match m s with
    | (Ok a, s') => k a s'
    | (Err e, s') => (Err e, s')
    | (Panic, s') => (Panic, s')
    end.
Definition get {S} : M S S := fun s => (Ok s, s).
Definition put {S} (s : S) : M S unit := fun _ => (Ok tt, s).
Definition gets {S A} (f : S → A) : M S A := fun s => (Ok (f s), s).
Definition modify {S} (f : S → S) : M S unit := fun s => (Ok tt, f s).

(** [if x, err := m; err != nil { h } else { k x }]: an error handled in place. *)
Definition catch {S A B} (m : M S A) (h : error → M S B) (k : A → M S B) : M S B :=
  fun s =>
    match m s with
    | (Ok a, s') => k a s'
    | (Err e, s') => h e s'
    | (Panic, s') => (Panic, s')
    end.

(** Run [m] on a component of the state, seen through [proj] and [upd]. *)
Definition zoom {S T A} (proj : S → T) (upd : T → S → S) (m : M T A) : M S A :=
  fun s => let '(r, t) := m (proj s) in (r, upd t s).

#[global] Instance M_ret {S} : MRet (M S) := fun A => ret.
#[global] Instance M_bind {S} : MBind (M S) := fun A B k m => bind m k.

(** ** Files *)

Inductive ext := ExtStore | ExtIndex.

#[global] Instance ext_eq_dec : EqDecision ext.
Proof. solve_decision. Defined.

#[global] Instance ext_countable : Countable ext.
Proof.
  refine (inj_countable' (fun e => match e with ExtStore => false | ExtIndex => true end)
                         (fun b : bool => if b then ExtIndex else ExtStore) _).
  by intros [].
Defined.

(** ["{base}.store"] and ["{base}.index"] in the Log's directory. *)
Abbreviation fname := (Z * ext)%type.

Abbreviation FS := (gmap fname bytes).

(** [os.OpenFile(name, O_RDWR|O_CREATE[|O_APPEND], 0600)] *)
Definition os_OpenFile (n : fname) (fs : FS) : FS :=
  match fs !! n with
  | Some _ => fs
  | None => <[n := []]> fs
  end.

(** [os.Stat(name)] followed by [fi.Size()] *)
Definition os_Stat (n : fname) : M FS Z :=
  fun fs =>
    match fs !! n with
    | Some c => (Ok (len c), fs)
    | None => (Err ErrNotExist, fs)
    end.

(** File content cut or zero-extended to [sz] bytes. *)
Definition resize (sz : Z) (c : bytes) : bytes :=
  take (Z.to_nat sz) c ++ replicate (Z.to_nat sz - length c) x00.

(** [os.Truncate(name, sz)] and [f.Truncate(sz)]; [sz] is an [int64]. *)
Definition os_Truncate (n : fname) (sz : Z) : M FS unit :=
  fun fs =>
    if sz <? 0 then (Err ErrInvalid, fs)
    else match fs !! n with
         | Some c => (Ok tt, <[n := resize sz c]> fs)
         | None => (Err ErrNotExist, fs)
         end.

(** [os.Remove(name)] *)
Definition os_Remove (n : fname) : M FS unit :=
  fun fs =>
    match fs !! n with
    | Some _ => (Ok tt, delete n fs)
    | None => (Err ErrNotExist, fs)
    end.

(** [f.Write(p)] on a file opened with [O_APPEND]. *)
Definition File_Write (n : fname) (closed : bool) (p : bytes) : M FS unit :=
  fun fs =>
    if closed then (Err ErrClosed, fs)
    else match fs !! n with
         | Some c => (Ok tt, <[n := c ++ p]> fs)
         | None => (Err ErrNotExist, fs)
         end.

Definition slice {A} (lo hi : Z) (l : list A) : list A :=
  take (Z.to_nat (hi - lo)) (drop (Z.to_nat lo) l).

(** [f.ReadAt(b, off)] with [len(b) = n]: the whole of [b] is filled or
    the call fails.  A negative offset is refused first; an empty [b]
    reads nothing and does not touch the file, closed or not. *)
Definition File_ReadAt (n : fname) (closed : bool) (k : Z) (off : Z) : M FS bytes :=
  fun fs =>
    if off <? 0 then (Err ErrNegativeOffset, fs)
    else if k =? 0 then (Ok [], fs)
    else if closed then (Err ErrClosed, fs)
    else match fs !! n with
         | Some c =>
             if off + k <=? len c then (Ok (slice off (off + k) c), fs)
             else (Err EOF, fs)
         | None => (Err ErrNotExist, fs)
         end.

(** [f.ReadAt(b, off)] with [len(b) = k], as the bytes read and the
    error beside them: the loop over [pread] stops at the end of the
    file, and a read that comes short of [k] bytes carries [io.EOF].
    With nothing to read ([k = 0]) the file is not touched. *)
Definition File_ReadAt_n (n : fname) (closed : bool) (k : Z) (off : Z) (fs : FS)
    : bytes * option error :=
  if off <? 0 then ([], Some ErrNegativeOffset)
  else if k <=? 0 then ([], None)
  else if closed then ([], Some ErrClosed)
  else match fs !! n with
       | Some c =>
           let d := slice off (off + k) c in
           (d, if len d <? k then Some EOF else None)
       | None => ([], Some ErrNotExist)
       end.

(** ** store: length-prefixed frames behind a [bufio.Writer] *)

Definition lenWidth : Z := 8.

(** [bufio.NewWriter] allocates 4096 bytes. *)
Definition defaultBufSize : Z := 4096.

Module store.

Record t := mk {
  File : fname;         (* the embedded *os.File *)
  closed : bool;        (* File.Close() was called *)
  buf : bytes;          (* bytes held by the bufio.Writer *)
  werr : option error;  (* the bufio.Writer's sticky error *)
  size : Z              (* uint64 *)
}.

Definition set_buf (b : bytes) (s : t) : t :=
  mk (File s) (closed s) b (werr s) (size s).
Definition set_werr (e : option error) (s : t) : t :=
  mk (File s) (closed s) (buf s) e (size s).
Definition set_size (n : Z) (s : t) : t :=
  mk (File s) (closed s) (buf s) (werr s) n.
Definition set_closed (c : bool) (s : t) : t :=
  mk (File s) c (buf s) (werr s) (size s).

(** The state a store operation runs in: the directory and the store. *)
Abbreviation st := (FS * t)%type.

Definition onFS {A} (m : M FS A) : M st A :=
  zoom fst (fun fs (s : st) => (fs, snd s)) m.
Definition self : M st t := gets snd.
Definition update (f : t → t) : M st unit :=
  modify (fun s : st => (fst s, f (snd s))).

Definition Available (s : t) : Z := defaultBufSize - len (buf s).

(** [bufio.Writer.Flush] *)
Definition Flush : M st unit :=
  s ← self ;
  match werr s with
  | Some e => fail e
  | None =>
      if len (buf s) =? 0 then ret tt
      else catch (onFS (File_Write (File s) (closed s) (buf s)))
             (fun e => update (set_werr (Some e)) ;; fail e)
             (fun _ => update (set_buf []))
  end.

(** One turn of the loop of [bufio.Writer.Write]:
    [for len(p) > b.Available() && b.err == nil]. It returns what is
    left of [p]. *)
Definition Write_turn (p : bytes) : M st bytes :=
  s ← self ;
  if (Available s <? len p) && bool_decide (werr s = None) then
    if len (buf s) =? 0 then
      (* large write, empty buffer: written to the file directly *)
      catch (onFS (File_Write (File s) (closed s) p))
        (fun e => update (set_werr (Some e)) ;; ret p)
        (fun _ => ret [])
    else
      let n := Z.to_nat (Available s) in
      update (set_buf (buf s ++ take n p)) ;;
      catch Flush (fun _ => ret tt) (fun _ => ret tt) ;;
      ret (drop n p)
  else ret p.

(** [bufio.Writer.Write]. The loop runs at most twice: a turn that
    fills and flushes the buffer leaves it empty, and a turn on an
    empty buffer writes all of [p] (lemma [Write_turns_enough]). *)
Definition Write (p : bytes) : M st unit :=
  p1 ← Write_turn p ;
  p2 ← Write_turn p1 ;
  s ← self ;
  match werr s with
  | Some e => fail e
  | None => update (set_buf (buf s ++ p2))
  end.

(** [newStore(f)] *)
Definition newStore (f : fname) : M FS t :=
  sz ← os_Stat f ;
  ret (mk f false [] None (uint64 sz)).

(** [store.Append(p)] returns [(n, pos)]. *)
Definition Append (p : bytes) : M st (Z * Z) :=
  s ← self ;
  let pos := size s in
  Write (PutUint64 (uint64 (len p))) ;;
  Write p ;;
  let w := len p + lenWidth in
  update (fun s => set_size (uint64 (size s + uint64 w)) s) ;;
  ret (uint64 w, pos).

(** [store.Read(pos)] *)
Definition Read (pos : Z) : M st bytes :=
  Flush ;;
  s ← self ;
  sz ← onFS (File_ReadAt (File s) (closed s) lenWidth (int64 pos)) ;
  let recordSize := Uint64 sz in
  if 2 ^ 63 <=? recordSize then panic (* makeslice: len out of range *)
  else onFS (File_ReadAt (File s) (closed s) recordSize (int64 (uint64 (pos + lenWidth)))).

(** [store.ReadAt(p, off)] with [len(p) = k] *)
Definition ReadAt (k : Z) (off : Z) : M st bytes :=
  Flush ;;
  s ← self ;
  onFS (File_ReadAt (File s) (closed s) k off).

(** [store.Close()] *)
Definition Close : M st unit :=
  Flush ;;
  s ← self ;
  if closed s then fail ErrClosed
  else update (set_closed true).

(** [store.ReadAt(p, off)] with [len(p) = k], as [(n, err)] with the [n]
    bytes read: what [originReader.Read] hands on. *)
Definition ReadAtN (k : Z) (off : Z) : M st (bytes * option error) :=
  catch Flush
    (fun e => ret ([], Some e))
    (fun _ => s ← self ;
              fs ← gets fst ;
              ret (File_ReadAt_n (File s) (closed s) k off fs)).

(** What the file holds once the buffer has been written out. *)
Definition contents (s : st) : option bytes :=
  c ← fst s !! File (snd s); Some (c ++ buf (snd s)).

End store.

(** ** Configuration and records *)

(** Modelled from the spec: the declaration of [Config] (file
    [config.go] of the package) is not among the sources; its three
    recognised options are those of the specification's configuration
    table, all [uint64]. *)
Record SegmentConfig := {
  MaxStoreBytes : Z;
  MaxIndexBytes : Z;
  InitialOffset : Z
}.

Record Config := { Segment : SegmentConfig }.

(** Modelled from the spec: [api.Record] is generated code outside the
    sources; the core sees an opaque byte string and the assigned offset. *)
Record Record_ := { Value : bytes; Offset : Z }.

(** [proto.Marshal] and [proto.Unmarshal] on [api.Record]: supplied by the
    request layer. *)
Class Serializer := {
  Marshal : Record_ → bytes;
  Unmarshal : bytes → option Record_
}.

(** The serialization contract: deterministic and reversible. *)
Class SerializerLaws `{Serializer} := {
  Unmarshal_Marshal :
    ∀ r, 0 ≤ Offset r < 2 ^ 64 → Unmarshal (Marshal r) = Some r
}.

(** ** index: a memory-mapped table of 12-byte entries *)

Definition offWidth : Z := 4.
Definition posWidth : Z := 8.
Definition entWidth : Z := offWidth + posWidth.

Module index.

Record t := mk {
  file : fname;     (* the index file *)
  closed : bool;    (* file.Close() was called *)
  mmap : Z;         (* len(mmap): the mapping shares its bytes with the file *)
  size : Z          (* uint64 *)
}.

Definition set_size (n : Z) (i : t) : t := mk (file i) (closed i) (mmap i) n.
Definition set_closed (c : bool) (i : t) : t := mk (file i) c (mmap i) (size i).

Abbreviation st := (FS * t)%type.

Definition onFS {A} (m : M FS A) : M st A :=
  zoom fst (fun fs (s : st) => (fs, snd s)) m.
Definition self : M st t := gets snd.
Definition update (f : t → t) : M st unit :=
  modify (fun s : st => (fst s, f (snd s))).

(** [i.mmap[lo:hi]] read: a slice out of the mapping's bounds panics, and
    so does touching mapped memory the file no longer backs. *)
Definition mmap_get (lo hi : Z) : M st bytes :=
  fun s =>
    let i := snd s in
    if (lo <=? hi) && (hi <=? mmap i) then
      match fst s !! file i with
      | Some c => if hi <=? len c then (Ok (slice lo hi c), s) else (Panic, s)
      | None => (Panic, s)
      end
    else (Panic, s).

(** [copy(i.mmap[lo:hi], data)] with [len(data) = hi - lo]: the mapping is
    shared, the bytes land in the file. *)
Definition mmap_put (lo hi : Z) (data : bytes) : M st unit :=
  fun s =>
    let i := snd s in
    if (lo <=? hi) && (hi <=? mmap i) then
      match fst s !! file i with
      | Some c =>
          if hi <=? len c then
            (Ok tt, (<[file i := take (Z.to_nat lo) c ++ data ++ drop (Z.to_nat hi) c]> (fst s), i))
          else (Panic, s)
      | None => (Panic, s)
      end
    else (Panic, s).

(** [newIndex(f, c)] *)
Definition newIndex (f : fname) (c : Config) : M FS t :=
  sz ← os_Stat f ;
  os_Truncate f (int64 (MaxIndexBytes (Segment c))) ;;
  (* gommap.Map maps the whole file; an empty mapping is refused *)
  n ← os_Stat f ;
  if n =? 0 then fail ErrInvalid
  else ret (mk f false n (uint64 sz)).

(** [index.Close()] *)
Definition Close : M st unit :=
  i ← self ;
  (* i.mmap.Sync(MS_SYNC) then i.file.Sync() *)
  (if closed i then fail ErrClosed else ret tt) ;;
  onFS (os_Truncate (file i) (int64 (size i))) ;;
  update (set_closed true).

(** [index.Read(in)] returns [(out, pos)]; [in] is an [int64]. *)
Definition Read (in_ : Z) : M st (Z * Z) :=
  i ← self ;
  if size i =? 0 then fail EOF
  else
    let out := if in_ =? -1 then uint32 (uint64 (size i / entWidth - 1))
               else uint32 in_ in
    let pos := uint64 (out * entWidth) in
    if size i <? uint64 (pos + entWidth) then fail EOF
    else
      o ← mmap_get pos (uint64 (pos + offWidth)) ;
      p ← mmap_get (uint64 (pos + offWidth)) (uint64 (pos + entWidth)) ;
      ret (Uint32 o, Uint64 p).

(** [index.isMaxed()] *)
Definition isMaxed (i : t) : bool := mmap i <? uint64 (size i + entWidth).

(** [index.Write(off, pos)] *)
Definition Write (off pos : Z) : M st unit :=
  i ← self ;
  if isMaxed i then fail EOF
  else
    mmap_put (size i) (uint64 (size i + offWidth)) (PutUint32 off) ;;
    mmap_put (uint64 (size i + offWidth)) (uint64 (size i + entWidth)) (PutUint64 pos) ;;
    update (set_size (uint64 (size i + entWidth))).

(** [index.Name()] *)
Definition Name (i : t) : fname := file i.

End index.

(** ** segment: one store and one index over a range of offsets *)

Module segment.

Record t := mk {
  store : store.t;
  index : index.t;
  baseOffset : Z;   (* uint64 *)
  nextOffset : Z;   (* uint64 *)
  config : Config
}.

Definition set_store (x : store.t) (s : t) : t :=
  mk x (index s) (baseOffset s) (nextOffset s) (config s).
Definition set_index (x : index.t) (s : t) : t :=
  mk (store s) x (baseOffset s) (nextOffset s) (config s).
Definition set_nextOffset (n : Z) (s : t) : t :=
  mk (store s) (index s) (baseOffset s) n (config s).

Abbreviation st := (FS * t)%type.

Definition self : M st t := gets snd.
Definition update (f : t → t) : M st unit :=
  modify (fun s : st => (fst s, f (snd s))).
Definition onFS {A} (m : M FS A) : M st A :=
  zoom fst (fun fs (s : st) => (fs, snd s)) m.

(** Run a store or index method on [s.store] or [s.index]. *)
Definition onStore {A} (m : M store.st A) : M st A :=
  zoom (fun s : st => (fst s, store (snd s)))
       (fun (r : store.st) (s : st) => (fst r, set_store (snd r) (snd s))) m.
Definition onIndex {A} (m : M index.st A) : M st A :=
  zoom (fun s : st => (fst s, index (snd s)))
       (fun (r : index.st) (s : st) => (fst r, set_index (snd r) (snd s))) m.

(** [newSegment(dir, baseOffset, c)] *)
Definition newSegment (baseOffset : Z) (c : Config) : M FS t :=
  modify (os_OpenFile (baseOffset, ExtStore)) ;;
  s ← store.newStore (baseOffset, ExtStore) ;
  modify (os_OpenFile (baseOffset, ExtIndex)) ;;
  i ← index.newIndex (baseOffset, ExtIndex) c ;
  zoom (fun fs : FS => (fs, mk s i baseOffset 0 c)) (fun (r : st) _ => fst r)
    (catch (onIndex (index.Read (-1)))
       (fun _ => update (set_nextOffset baseOffset) ;; self)
       (fun '(off, _) =>
          update (set_nextOffset (uint64 (uint64 (baseOffset + off) + 1))) ;; self)).

(** [segment.Append(record)] *)
Definition Append `{Serializer} (record : Record_) : M st Z :=
  s ← self ;
  let cur := nextOffset s in
  let p := Marshal {| Value := Value record; Offset := cur |} in
  '(_, pos) ← onStore (store.Append p) ;
  s ← self ;
  onIndex (index.Write (uint32 (uint64 (nextOffset s - baseOffset s))) pos) ;;
  update (fun s => set_nextOffset (uint64 (nextOffset s + 1)) s) ;;
  ret cur.

(** [segment.Read(off)] *)
Definition Read `{Serializer} (off : Z) : M st Record_ :=
  s ← self ;
  '(_, pos) ← onIndex (index.Read (int64 (uint64 (off - baseOffset s)))) ;
  p ← onStore (store.Read pos) ;
  match Unmarshal p with
  | Some record => ret record
  | None => fail ErrUnmarshal
  end.

(** [segment.IsMaxed()] *)
Definition IsMaxed (s : t) : bool :=
  (MaxStoreBytes (Segment (config s)) <=? store.size (store s))
  || (MaxIndexBytes (Segment (config s)) <=? index.size (index s))
  || index.isMaxed (index s).

(** [segment.Close()] *)
Definition Close : M st unit :=
  onIndex index.Close ;;
  onStore store.Close.

(** [segment.Remove()] *)
Definition Remove : M st unit :=
  Close ;;
  s ← self ;
  onFS (os_Remove (index.Name (index s))) ;;
  onFS (os_Remove (store.File (store s))).

End segment.

(** ** Log: the ordered sequence of segments *)

Module Log.

(** A [*segment]: a location in the heap of segments. *)
Abbreviation loc := nat.

Record t := mk {
  Config_ : Config;
  activeSegment : option loc;   (* nil or a pointer *)
  segments : list loc           (* a nil slice is the empty list *)
}.

(** The program state: the directory [l.Dir], the segments allocated so
    far and the Log object. *)
Record state := mkState {
  fs : FS;
  heap : list segment.t;
  log : t
}.

Definition set_fs (x : FS) (s : state) : state := mkState x (heap s) (log s).
Definition set_heap (x : list segment.t) (s : state) : state := mkState (fs s) x (log s).
Definition set_log (x : t) (s : state) : state := mkState (fs s) (heap s) x.

Definition self : M state t := gets log.
Definition onFS {A} (m : M FS A) : M state A := zoom fs set_fs m.

(** Call a method on the segment [p] points to. *)
Definition at_ {A} (p : loc) (m : M segment.st A) : M state A :=
  fun s =>
    match heap s !! p with
    | Some sg =>
        let '(r, (fs', sg')) := m (fs s, sg) in
        (r, mkState fs' (<[p := sg']> (heap s)) (log s))
    | None => (Panic, s)
    end.

(** Read the object a pointer refers to; a nil or dangling pointer panics. *)
Definition deref (p : option loc) : M state segment.t :=
  fun s =>
    match p with
    | Some a => match heap s !! a with
                | Some sg => (Ok sg, s)
                | None => (Panic, s)
                end
    | None => (Panic, s)
    end.

(** [Log.newSegment(off)] *)
Definition newSegment (off : Z) : M state unit :=
  l ← self ;
  s ← onFS (segment.newSegment off (Config_ l)) ;
  modify (fun st =>
    let p := length (heap st) in
    mkState (fs st) (heap st ++ [s])
      (mk (Config_ (log st)) (Some p) (segments (log st) ++ [p]))).

(** [strconv.ParseUint(stem, 10, 0)] with its error dropped: [0] on a
    syntax error, the largest value on a range error. *)
Definition ParseUint (stem : Z) : Z :=
  if stem <? 0 then 0 else if stem <? 2 ^ 64 then stem else 2 ^ 64 - 1.

(** The loop [for i := 0; i < len(baseOffsets); i++ { ...; i++ }]. *)
Fixpoint every_other (l : list Z) : list Z :=
  match l with
  | [] => []
  | [x] => [x]
  | x :: _ :: r => x :: every_other r
  end.

Fixpoint newSegments (offs : list Z) : M state unit :=
  match offs with
  | [] => ret tt
  | off :: r => newSegment off ;; newSegments r
  end.

(** [Log.setup()] *)
Definition setup : M state unit :=
  files ← gets (fun st => (map_to_list (fs st)).*1) ;
  let baseOffsets := merge_sort Z.le (map (fun n : fname => ParseUint (fst n)) files) in
  newSegments (every_other baseOffsets) ;;
  l ← self ;
  match segments l with
  | [] => newSegment (InitialOffset (Segment (Config_ l)))
  | _ => ret tt
  end.

(** [NewLog(dir, c)] *)
Definition NewLog (c : Config) : M state unit :=
  let c1 := if MaxStoreBytes (Segment c) =? 0
            then {| Segment := {| MaxStoreBytes := 1024;
                                  MaxIndexBytes := MaxIndexBytes (Segment c);
                                  InitialOffset := InitialOffset (Segment c) |} |}
            else c in
  let c2 := if MaxIndexBytes (Segment c1) =? 0
            then {| Segment := {| MaxStoreBytes := MaxStoreBytes (Segment c1);
                                  MaxIndexBytes := 1024;
                                  InitialOffset := InitialOffset (Segment c1) |} |}
            else c1 in
  modify (set_log (mk c2 None [])) ;;
  setup.

(** [Log.highestOffset()] *)
Definition highestOffset : M state Z :=
  l ← self ;
  (* l.segments[len(l.segments)-1]: index out of range on an empty slice *)
  match last (segments l) with
  | None => panic
  | Some p =>
      s ← deref (Some p) ;
      let off := segment.nextOffset s in
      if off =? 0 then ret 0 else ret (off - 1)
  end.

(** [Log.HighestOffset()] *)
Definition HighestOffset : M state Z := highestOffset.

(** [Log.LowestOffset()] *)
Definition LowestOffset : M state Z :=
  l ← self ;
  match segments l with
  | [] => panic   (* l.segments[0]: index out of range *)
  | p :: _ => s ← deref (Some p) ; ret (segment.baseOffset s)
  end.

(** [Log.Append(record)] *)
Definition Append `{Serializer} (record : Record_) : M state Z :=
  highest ← highestOffset ;
  l ← self ;
  a ← deref (activeSegment l) ;
  (if segment.IsMaxed a then newSegment (uint64 (highest + 1)) else ret tt) ;;
  l ← self ;
  match activeSegment l with
  | Some p => at_ p (segment.Append record)
  | None => panic
  end.

(** The scan of [Log.Read]: the first segment with
    [baseOffset <= off && off < nextOffset]. *)
Fixpoint find_segment (off : Z) (ps : list loc) : M state (option loc) :=
  match ps with
  | [] => ret None
  | p :: r =>
      s ← deref (Some p) ;
      if (segment.baseOffset s <=? off) && (off <? segment.nextOffset s)
      then ret (Some p)
      else find_segment off r
  end.

(** [Log.Read(off)] *)
Definition Read `{Serializer} (off : Z) : M state Record_ :=
  l ← self ;
  s ← find_segment off (segments l) ;
  match s with
  | None => fail (ErrOffsetOutOfRange off)
  | Some p => at_ p (segment.Read off)
  end.

Fixpoint close_all (ps : list loc) : M state unit :=
  match ps with
  | [] => ret tt
  | p :: r => at_ p segment.Close ;; close_all r
  end.

(** [Log.Close()] *)
Definition Close : M state unit :=
  l ← self ;
  close_all (segments l).

(** The loop of [Log.Truncate]; [kept] is the local slice [segments]. *)
Fixpoint truncate_loop (lowest : Z) (ps kept : list loc) : M state (list loc) :=
  match ps with
  | [] => ret kept
  | p :: r =>
      s ← deref (Some p) ;
      if segment.nextOffset s <=? uint64 (lowest + 1) then
        at_ p segment.Remove ;;
        truncate_loop lowest r kept
      else truncate_loop lowest r (kept ++ [p])
  end.

(** [Log.Truncate(lowest)] *)
Definition Truncate (lowest : Z) : M state unit :=
  l ← self ;
  segs ← truncate_loop lowest (segments l) [] ;
  modify (fun st =>
    set_log (mk (Config_ (log st)) (activeSegment (log st)) segs) st).

(** The log together with its directory [l.Dir], for the operations that
    remove it: [os.RemoveAll] removes the directory itself, and
    [os.ReadDir], the first step of [setup], fails on a directory that
    is not there. *)
Record dstate := mkD {
  dir_exists : bool;
  cur : state
}.

Definition inDir {A} (m : M state A) : M dstate A :=
  zoom cur (fun s d => mkD (dir_exists d) s) m.

(** [os.RemoveAll(l.Dir)] *)
Definition os_RemoveAll : M dstate unit :=
  modify (fun d => mkD false (set_fs ∅ (cur d))).

(** [os.ReadDir(l.Dir)], as far as its error goes. *)
Definition os_ReadDir : M dstate unit :=
  fun d => if dir_exists d then (Ok tt, d) else (Err ErrNotExist, d).

(** [Log.Remove()] *)
Definition Remove : M dstate unit :=
  inDir Close ;;
  os_RemoveAll.

(** [Log.Reset()] *)
Definition Reset : M dstate unit :=
  Remove ;;
  os_ReadDir ;;
  inDir setup.

(** [originReader]: the store of a segment, shared with the segment, and
    a read position. *)
Record originReader := mkReader {
  r_seg : loc;
  r_off : Z   (* int64 *)
}.

(** [originReader.Read(p)] with [len(p) = k]: the bytes read, the error
    and the reader afterwards. *)
Definition originReader_Read (k : Z) (o : originReader)
    : M state (bytes * option error * originReader) :=
  '(d, e) ← at_ (r_seg o) (segment.onStore (store.ReadAtN k (r_off o))) ;
  ret (d, e, mkReader (r_seg o) (int64 (r_off o + len d))).

Definition is_EOF (e : option error) : bool :=
  match e with
  | Some EOF => true
  | _ => false
  end.

(** [io.MultiReader(readers...).Read(p)] with [len(p) = k]: the readers
    are tried in order; one that reports [io.EOF] is dropped, and its
    [io.EOF] is passed on only when it was the last. *)
Fixpoint multiReader_Read (k : Z) (rs : list originReader)
    : M state (bytes * option error * list originReader) :=
  match rs with
  | [] => ret ([], Some EOF, [])
  | o :: rest =>
      '(d, e, o') ← originReader_Read k o ;
      let rs' := if is_EOF e then rest else o' :: rest in
      if (0 <? len d) || negb (is_EOF e) then
        ret (d, (if is_EOF e && negb (bool_decide (rest = [])) then None else e), rs')
      else multiReader_Read k rest
  end.

(** [Log.Reader()]: the readers the [io.MultiReader] is made of. *)
Definition Reader : M state (list originReader) :=
  l ← self ;
  ret ((fun p => mkReader p 0) <$> segments l).

End Log.

(** ** A serializer for the examples

    The offset as eight big-endian bytes, then the value. It meets the
    serialization contract and stands for the request layer's codec
    wherever a property is evaluated on concrete records. *)

Definition fixed_Marshal (r : Record_) : bytes := PutUint64 (Offset r) ++ Value r.

Definition fixed_Unmarshal (p : bytes) : option Record_ :=
  if len p <? 8 then None
  else Some {| Value := drop 8 p; Offset := Uint64 (take 8 p) |}.

Definition fixed_serializer : Serializer :=
  {| Marshal := fixed_Marshal; Unmarshal := fixed_Unmarshal |}.

Definition empty_state : Log.state :=
  Log.mkState ∅ [] (Log.mk {| Segment := {| MaxStoreBytes := 0; MaxIndexBytes := 0; InitialOffset := 0 |} |} None []).

Definition mkConfig (maxStore maxIndex initial : Z) : Config :=
  {| Segment := {| MaxStoreBytes := maxStore; MaxIndexBytes := maxIndex; InitialOffset := initial |} |}.

(** * Vocabulary of the properties *)

(** The effect of a store operation that only moves bytes towards the file. *)
Record store_frame (st st' : store.st) : Prop := {
  sf_File : store.File (snd st') = store.File (snd st);
  sf_closed : store.closed (snd st') = store.closed (snd st);
  sf_size : store.size (snd st') = store.size (snd st);
  sf_other : ∀ n, n ≠ store.File (snd st) → fst st' !! n = fst st !! n;
  sf_dom : ∀ n, is_Some (fst st' !! n) ↔ is_Some (fst st !! n)
}.

(** The condition of the loop of [bufio.Writer.Write]. *)
Definition Write_cond (p : bytes) (st : store.st) : bool :=
  (store.Available (snd st) <? len p) && bool_decide (store.werr (snd st) = None).

Definition store_example : store.st :=
  ({[ (0, ExtStore) := [x01; x02] ]}, store.mk (0, ExtStore) false [x03] None 3).

(** Entry [k] of a mapping whose bytes are [c]. *)
Definition entry (c : bytes) (k : Z) : Z * Z :=
  (Uint32 (slice (12 * k) (12 * k + 4) c), Uint64 (slice (12 * k + 4) (12 * k + 12) c)).

(** The entry number [index.Read(in)] looks at. *)
Definition entry_number (i : index.t) (in_ : Z) : Z :=
  if in_ =? -1 then uint32 (uint64 (index.size i / entWidth - 1)) else uint32 in_.

(** An index of one entry [(0, 7)] in a mapping of 24 bytes. *)
Definition index_example : index.st :=
  ({[ (0, ExtIndex) := PutUint32 0 ++ PutUint64 7 ++ replicate 12 x00 ]},
   index.mk (0, ExtIndex) false 24 12).

(** A segment at base [2^32] holding the record ["a"] at offset [2^32]. *)
Definition segment_example : segment.st :=
  ({[ (2 ^ 32, ExtIndex) := PutUint32 0 ++ PutUint64 0 ++ replicate 12 x00;
      (2 ^ 32, ExtStore) := PutUint64 9 ++ PutUint64 (2 ^ 32) ++ [x61] ]},
   segment.mk (store.mk (2 ^ 32, ExtStore) false [] None 17)
              (index.mk (2 ^ 32, ExtIndex) false 24 12)
              (2 ^ 32) (2 ^ 32 + 1) (mkConfig 1024 24 (2 ^ 32))).

(** A store in working order: open, no write error, its file in place. *)
Definition store_wf (st : store.st) : Prop :=
  store.closed (snd st) = false ∧ store.werr (snd st) = None ∧
  is_Some (fst st !! store.File (snd st)).

(** *** What a segment holds *)

(** A frame of the store: the payload behind its 8-byte length. *)
Definition frame (p : bytes) : bytes := PutUint64 (len p) ++ p.

(** The store file of a segment whose payloads are [ps]. *)
Definition store_bytes (ps : list bytes) : bytes := mjoin (frame <$> ps).

(** Where the frame of payload number [k] starts. *)
Definition pos_of (ps : list bytes) (k : nat) : Z := len (store_bytes (take k ps)).

(** An index entry. *)
Definition ientry (k pos : Z) : bytes := PutUint32 k ++ PutUint64 pos.

(** The valid bytes of the index of a segment whose payloads are [ps]. *)
Definition index_bytes (ps : list bytes) : bytes :=
  mjoin ((λ k, ientry (Z.of_nat k) (pos_of ps k)) <$> seq 0 (length ps)).

(** The limits under which the properties of whole logs are stated, on
    the configuration as [NewLog] completes it: the index has room for
    one entry and for no more than [2^32] of them (relative offsets are
    [uint32]), and the store limit is a file offset ([int64]). *)
Definition config_ok (c : Config) : Prop :=
  0 < MaxStoreBytes (Segment c) ≤ 2 ^ 63 ∧
  12 ≤ MaxIndexBytes (Segment c) ≤ 12 * 2 ^ 32.

(** A payload whose frame, begun below the store limit, ends at a file
    offset. *)
Definition payload_ok (c : Config) (p : bytes) : Prop :=
  MaxStoreBytes (Segment c) + 8 + len p ≤ 2 ^ 63.

(** An open segment [s] that holds exactly the records [rs]. *)
Record seg_ok `{Serializer} (c : Config) (fs : FS) (s : segment.t)
    (rs : list Record_) : Prop := {
  so_config : segment.config s = c;
  so_base : 0 ≤ segment.baseOffset s;
  so_next : segment.nextOffset s = segment.baseOffset s + len rs;
  so_next_lt : segment.baseOffset s + len rs < 2 ^ 64;
  so_offsets : ∀ k r, rs !! k = Some r → Offset r = segment.baseOffset s + Z.of_nat k;
  so_sfile : store.File (segment.store s) = (segment.baseOffset s, ExtStore);
  so_sclosed : store.closed (segment.store s) = false;
  so_swerr : store.werr (segment.store s) = None;
  so_scontent : ∃ sc, fs !! (segment.baseOffset s, ExtStore) = Some sc ∧
                      sc ++ store.buf (segment.store s) = store_bytes (Marshal <$> rs);
  so_ssize : store.size (segment.store s) = len (store_bytes (Marshal <$> rs));
  so_sbound : len (store_bytes (Marshal <$> rs)) < 2 ^ 63;
  so_ifile : index.file (segment.index s) = (segment.baseOffset s, ExtIndex);
  so_iclosed : index.closed (segment.index s) = false;
  so_isize : index.size (segment.index s) = 12 * len rs;
  so_mmap : index.mmap (segment.index s) = MaxIndexBytes (Segment c);
  so_ifits : 12 * len rs ≤ MaxIndexBytes (Segment c);
  so_icontent : ∃ tail, fs !! (segment.baseOffset s, ExtIndex)
                        = Some (index_bytes (Marshal <$> rs) ++ tail) ∧
                        len (index_bytes (Marshal <$> rs) ++ tail)
                        = MaxIndexBytes (Segment c)
}.

(** The record [segment.Append] stores: the value under the offset it assigns. *)
Definition stamp (off : Z) (r : Record_) : Record_ :=
  {| Value := Value r; Offset := off |}.

(** *** What a log holds *)

(** The number of records in the segments before segment [j]. *)
Definition count_before (segs : list (list Record_)) (j : nat) : Z :=
  len (concat (take j segs)).

(** A log whose segments, in order, hold the records [segs], the first
    of them at offset [init]: every segment is open and in order, only
    the last may be empty, the active segment is the last one, and the
    directory holds the files of these segments and no others. *)
Record log_ok `{Serializer} (c : Config) (st : Log.state) (init : Z)
    (segs : list (list Record_)) : Prop := {
  lo_config : Log.Config_ (Log.log st) = c;
  lo_init : 0 ≤ init;
  lo_nonempty : segs ≠ [];
  lo_active : Log.activeSegment (Log.log st) = last (Log.segments (Log.log st));
  lo_length : length (Log.segments (Log.log st)) = length segs;
  lo_nodup : NoDup (Log.segments (Log.log st));
  lo_segs : ∀ j p rs,
    Log.segments (Log.log st) !! j = Some p → segs !! j = Some rs →
    ∃ s, Log.heap st !! p = Some s ∧ seg_ok c (Log.fs st) s rs ∧
         segment.baseOffset s = init + count_before segs j ∧
         (S j < length segs → rs ≠ [])%nat;
  lo_files : ∀ n, is_Some (Log.fs st !! n) →
    ∃ j, (j < length segs)%nat ∧ fst n = init + count_before segs j
}.

(** The configuration as [NewLog] completes it. *)
Definition with_defaults (c : Config) : Config :=
  mkConfig (if MaxStoreBytes (Segment c) =? 0 then 1024 else MaxStoreBytes (Segment c))
           (if MaxIndexBytes (Segment c) =? 0 then 1024 else MaxIndexBytes (Segment c))
           (InitialOffset (Segment c)).

(** Append the records in turn; the offsets they were given. *)
Fixpoint append_all `{Serializer} (rs : list Record_) : M Log.state (list Z) :=
  match rs with
  | [] => mret []
  | r :: rs' => o ← Log.Append r ; os ← append_all rs' ; mret (o :: os)
  end.

(** The records as the log stores them when they are appended in turn
    from offset [o] on. *)
Fixpoint stamp_from (o : Z) (rs : list Record_) : list Record_ :=
  match rs with
  | [] => []
  | r :: rs' => stamp o r :: stamp_from (o + 1) rs'
  end.

(** The offsets [o, o + 1, ..., o + n - 1]. *)
Fixpoint offsets_from (o : Z) (n : nat) : list Z :=
  match n with
  | O => []
  | S n' => o :: offsets_from (o + 1) n'
  end.

(** A segment after [Close] or [Remove]: both its files are closed. *)
Definition segment_closed (s : segment.t) : Prop :=
  index.closed (segment.index s) = true ∧ store.closed (segment.store s) = true.

(** A log of two records at offsets 5 and 6 whose active segment is
    full (its store holds 42 bytes, the limit is 32). *)
Definition full_log_example : Log.state :=
  snd ((Log.NewLog (mkConfig 32 48 5) ;;
        @Log.Append fixed_serializer {| Value := [x61]; Offset := 0 |} ;;
        @Log.Append fixed_serializer {| Value := [x62]; Offset := 0 |}) empty_state).

(** *** Segments on their way between memory and disk *)

(** Where a segment of the log is: open in memory, closed with its
    records in its two files, or removed. *)
Inductive stage := Open | Disk | Gone.

(** What the records [segs] must satisfy, whatever the stage of their
    segments: only the last segment may be empty, every record carries
    its offset, and every segment respects the limits. *)
Record segs_ok `{Serializer} (c : Config) (init : Z)
    (segs : list (list Record_)) : Prop := {
  sp_init : 0 ≤ init;
  sp_nonempty : segs ≠ [];
  sp_inner : ∀ j rs, segs !! j = Some rs → (S j < length segs)%nat → rs ≠ [];
  sp_offsets : ∀ j rs k r, segs !! j = Some rs → rs !! k = Some r →
    Offset r = init + count_before segs j + Z.of_nat k;
  sp_index : ∀ j rs, segs !! j = Some rs → 12 * len rs ≤ MaxIndexBytes (Segment c);
  sp_store : ∀ j rs, segs !! j = Some rs → len (store_bytes (Marshal <$> rs)) < 2 ^ 63;
  sp_range : ∀ j rs, segs !! j = Some rs → init + count_before segs j + len rs < 2 ^ 64
}.

(** A directory [fs] and a heap in which segment [j] of the log, reached
    through [ptrs] when it is open, is at stage [stg j]. *)
Record staged_ok `{Serializer} (c : Config) (fs : FS) (heap : list segment.t)
    (init : Z) (segs : list (list Record_)) (ptrs : list Log.loc)
    (stg : nat → stage) : Prop := {
  sg_pure : segs_ok c init segs;
  sg_nodup : NoDup ptrs;
  sg_open : ∀ j rs, segs !! j = Some rs → stg j = Open →
    ∃ p s, ptrs !! j = Some p ∧ heap !! p = Some s ∧ seg_ok c fs s rs ∧
           segment.baseOffset s = init + count_before segs j;
  sg_disk : ∀ j rs, segs !! j = Some rs → stg j = Disk →
    fs !! (init + count_before segs j, ExtStore) = Some (store_bytes (Marshal <$> rs)) ∧
    fs !! (init + count_before segs j, ExtIndex) = Some (index_bytes (Marshal <$> rs));
  sg_gone : ∀ j rs, segs !! j = Some rs → stg j = Gone →
    fs !! (init + count_before segs j, ExtStore) = None ∧
    fs !! (init + count_before segs j, ExtIndex) = None;
  sg_files : ∀ n, is_Some (fs !! n) →
    ∃ j, (j < length segs)%nat ∧ fst n = init + count_before segs j
}.

(** What segment [j] owes at its stage. *)
Definition stage_duty `{Serializer} (c : Config) (fs : FS) (heap : list segment.t)
    (init : Z) (segs : list (list Record_)) (ptrs : list Log.loc)
    (j : nat) (rs : list Record_) (g : stage) : Prop :=
  match g with
  | Open => ∃ p s, ptrs !! j = Some p ∧ heap !! p = Some s ∧ seg_ok c fs s rs ∧
                   segment.baseOffset s = init + count_before segs j
  | Disk =>
      fs !! (init + count_before segs j, ExtStore) = Some (store_bytes (Marshal <$> rs)) ∧
      fs !! (init + count_before segs j, ExtIndex) = Some (index_bytes (Marshal <$> rs))
  | Gone =>
      fs !! (init + count_before segs j, ExtStore) = None ∧
      fs !! (init + count_before segs j, ExtIndex) = None
  end.

(** The base offsets of the segments of a log, in order. *)
Definition bases (init : Z) (segs : list (list Record_)) : list Z :=
  (λ j : nat, init + count_before segs j) <$> seq 0 (length segs).

(** What [Log.setup] reads from a directory of matched pairs: every base
    twice. *)
Fixpoint dup (l : list Z) : list Z :=
  match l with
  | [] => []
  | b :: l' => b :: b :: dup l'
  end.

(** The log states the operations lead to from an empty directory:
    [NewLog], appends within the offset range, reads, truncations that
    leave a segment, and closing followed by reopening with the same
    configuration. *)
Inductive reachable `{Serializer} (c : Config) : Log.state → Prop :=
| reach_new st0 st :
    Log.fs st0 = ∅ → 0 ≤ InitialOffset (Segment c) < 2 ^ 64 →
    Log.NewLog c st0 = (Ok tt, st) → reachable c st
| reach_append st r off st' :
    reachable c st → Log.Append r st = (Ok off, st') →
    off + 1 < 2 ^ 64 → payload_ok (with_defaults c) (Marshal (stamp off r)) →
    reachable c st'
| reach_read st o x st' :
    reachable c st → Log.Read o st = (x, st') → reachable c st'
| reach_truncate st lowest st' :
    reachable c st → Log.Truncate lowest st = (Ok tt, st') →
    Log.segments (Log.log st') ≠ [] → reachable c st'
| reach_reopen st st1 st2 :
    reachable c st → Log.Close st = (Ok tt, st1) →
    Log.NewLog c st1 = (Ok tt, st2) → reachable c st2.

(** A log for the examples: three records under limits small enough for
    the third to open a second segment. *)
Definition example_config : Config := mkConfig 32 48 0.
Definition example_record : Record_ := {| Value := [x61]; Offset := 0 |}.
Definition example_log0 : Log.state := snd (Log.NewLog example_config empty_state).
Definition example_log1 : Log.state :=
  snd (@Log.Append fixed_serializer example_record example_log0).
Definition example_log2 : Log.state :=
  snd (@Log.Append fixed_serializer example_record example_log1).
Definition example_log : Log.state :=
  snd (@Log.Append fixed_serializer example_record example_log2).

(** A segment after a successful [Close]. *)
Definition closed_segment (s : segment.t) : segment.t :=
  segment.mk
    (store.mk (store.File (segment.store s)) true [] None (store.size (segment.store s)))
    (index.set_closed true (segment.index s))
    (segment.baseOffset s) (segment.nextOffset s) (segment.config s).

(** Reading a [Log.Reader] to its end with a buffer of [k] bytes, the
    way [io.ReadAll] and [io.Copy] do: the bytes of every [Read], up to
    and including the one that reports an error. *)
Fixpoint read_all (fuel : nat) (k : Z) (rs : list Log.originReader)
    : M Log.state (bytes * option error) :=
  match fuel with
  | O => mret ([], None)
  | S fuel' =>
      '(d, e, rs') ← Log.multiReader_Read k rs ;
      match e with
      | Some _ => mret (d, e)
      | None => '(d', e') ← read_all fuel' k rs' ; mret (d ++ d', e')
      end
  end.

(** The readers of a [Log.Reader] that has come to position [off] in the
    store of segment [j]. *)
Definition readers_at (ptrs : list Log.loc) (j : nat) (off : Z) : list Log.originReader :=
  match drop j ptrs with
  | [] => []
  | p :: rest => Log.mkReader p off :: ((λ q, Log.mkReader q 0) <$> rest)
  end.

(** What is left of the stores from position [off] in segment [j] on. *)
Definition remaining `{Serializer} (segs : list (list Record_)) (j : nat) (off : Z) : bytes :=
  drop (Z.to_nat off) (store_bytes (Marshal <$> default [] (segs !! j)))
  ++ store_bytes (Marshal <$> concat (drop (S j) segs)).

(** * Properties *)

#[global] Arguments os_OpenFile : simpl never.
#[global] Arguments os_Stat : simpl never.
#[global] Arguments os_Truncate : simpl never.
#[global] Arguments os_Remove : simpl never.
#[global] Arguments File_Write : simpl never.
#[global] Arguments File_ReadAt : simpl never.
#[global] Arguments store.Flush : simpl never.
#[global] Arguments store.Write_turn : simpl never.
#[global] Arguments store.Write : simpl never.
#[global] Arguments store.Append : simpl never.
#[global] Arguments store.Read : simpl never.
#[global] Arguments store.ReadAt : simpl never.
#[global] Arguments store.Close : simpl never.
#[global] Arguments store.newStore : simpl never.
#[global] Arguments index.newIndex : simpl never.
#[global] Arguments index.Close : simpl never.
#[global] Arguments index.Read : simpl never.
#[global] Arguments index.Write : simpl never.
#[global] Arguments segment.newSegment : simpl never.
#[global] Arguments segment.Append : simpl never.
#[global] Arguments segment.Read : simpl never.
#[global] Arguments segment.Close : simpl never.
#[global] Arguments segment.Remove : simpl never.
#[global] Arguments Log.newSegment : simpl never.
#[global] Arguments Log.setup : simpl never.
#[global] Arguments Log.NewLog : simpl never.
#[global] Arguments Log.highestOffset : simpl never.
#[global] Arguments Log.HighestOffset : simpl never.
#[global] Arguments Log.LowestOffset : simpl never.
#[global] Arguments Log.Append : simpl never.
#[global] Arguments Log.Read : simpl never.
#[global] Arguments Log.Close : simpl never.
#[global] Arguments Log.Truncate : simpl never.
#[global] Arguments Log.at_ : simpl never.
#[global] Arguments Log.deref : simpl never.
#[global] Arguments index.mmap_get : simpl never.
#[global] Arguments index.mmap_put : simpl never.
#[global] Arguments entry : simpl never.
#[global] Arguments entry_number : simpl never.
#[global] Arguments count_before : simpl never.
#[global] Arguments frame : simpl never.
#[global] Arguments store_bytes : simpl never.
#[global] Arguments index_bytes : simpl never.
#[global] Arguments ientry : simpl never.
#[global] Arguments pos_of : simpl never.
#[global] Arguments len : simpl never.
#[global] Arguments slice : simpl never.
#[global] Arguments resize : simpl never.
#[global] Arguments uint64 : simpl never.
#[global] Arguments uint32 : simpl never.
#[global] Arguments int64 : simpl never.
#[global] Arguments PutUint64 : simpl never.
#[global] Arguments PutUint32 : simpl never.
#[global] Arguments Uint64 : simpl never.
#[global] Arguments Uint32 : simpl never.
#[global] Arguments Z.pow : simpl never.
#[global] Arguments Z.mul : simpl never.
#[global] Arguments Z.add : simpl never.
#[global] Arguments Z.sub : simpl never.
#[global] Arguments Z.div : simpl never.
#[global] Arguments Z.modulo : simpl never.

(** Decide the integer comparisons that [lia] can settle. *)
Ltac zbool :=
  repeat match goal with
  | |- context [?a <=? ?b] =>
      first [ rewrite (proj2 (Z.leb_le a b)) by lia
            | rewrite (proj2 (Z.leb_gt a b)) by lia ]
  | |- context [?a <? ?b] =>
      first [ rewrite (proj2 (Z.ltb_lt a b)) by lia
            | rewrite (proj2 (Z.ltb_ge a b)) by lia ]
  | |- context [?a =? ?b] =>
      first [ rewrite (proj2 (Z.eqb_eq a b)) by lia
            | rewrite (proj2 (Z.eqb_neq a b)) by lia ]
  end.

Ltac unmonad :=
  unfold mbind, M_bind, bind, mret, M_ret, ret, fail, panic, catch, zoom,
    gets, modify in *.

(** ** The monad *)

Section monad.
Context {S A B : Type}.
Implicit Types (m : M S A) (k : A → M S B) (s : S).

Lemma bind_unfold m k s :
  (m ≫= k) s = match m s with
               | (Ok a, s') => k a s'
               | (Err e, s') => (Err e, s')
               | (Panic, s') => (Panic, s')
               end.
Proof. reflexivity. Qed.

Lemma bind_Ok m k s a s1 : m s = (Ok a, s1) → (m ≫= k) s = k a s1.
Proof. intros E. by rewrite bind_unfold, E. Qed.

Lemma bind_Err m k s e s1 : m s = (Err e, s1) → (m ≫= k) s = (Err e, s1).
Proof. intros E. by rewrite bind_unfold, E. Qed.

Lemma bind_Panic m k s s1 : m s = (Panic, s1) → (m ≫= k) s = (Panic, s1).
Proof. intros E. by rewrite bind_unfold, E. Qed.

Lemma bind_Ok_inv m k s b s' :
  (m ≫= k) s = (Ok b, s') → ∃ a s1, m s = (Ok a, s1) ∧ k a s1 = (Ok b, s').
Proof.
  rewrite bind_unfold. destruct (m s) as [[a|e|] s1]; [eauto | done | done].
Qed.

End monad.

(** ** Bytes and big-endian integers *)

Lemma len_nonneg {A} (l : list A) : 0 ≤ len l.
Proof. unfold len. lia. Qed.

Lemma len_app {A} (l1 l2 : list A) : len (l1 ++ l2) = len l1 + len l2.
Proof. unfold len. rewrite length_app. lia. Qed.

Lemma len_nil {A} : len (@nil A) = 0.
Proof. reflexivity. Qed.

Lemma Z_of_byte_range b : 0 ≤ Z_of_byte b < 256.
Proof.
  unfold Z_of_byte. pose proof (Byte.to_N_bounded b). lia.
Qed.

Lemma Z_of_byte_of_Z z : Z_of_byte (byte_of_Z z) = z mod 256.
Proof.
  unfold Z_of_byte, byte_of_Z.
  assert (Hr : 0 ≤ z mod 256 < 256) by (apply Z.mod_pos_bound; lia).
  destruct (Byte.of_N (Z.to_N (z mod 256))) as [b|] eqn:E.
  - apply Byte.to_of_N in E. simpl. rewrite E. lia.
  - apply Byte.of_N_None_iff in E. lia.
Qed.

Lemma length_be_bytes w n : length (be_bytes w n) = w.
Proof.
  revert n. induction w as [|w IH]; intros n; simpl; [done|].
  rewrite length_app, IH. simpl. lia.
Qed.

Lemma len_be_bytes w n : len (be_bytes w n) = Z.of_nat w.
Proof. unfold len. by rewrite length_be_bytes. Qed.

Lemma be_val_snoc bs b : be_val (bs ++ [b]) = be_val bs * 256 + Z_of_byte b.
Proof. unfold be_val. by rewrite fold_left_app. Qed.

Lemma be_val_be_bytes w n : be_val (be_bytes w n) = n mod 256 ^ Z.of_nat w.
Proof.
  revert n. induction w as [|w IH]; intros n.
  - simpl. by rewrite Z.mod_1_r.
  - cbn [be_bytes]. rewrite be_val_snoc, IH, Z_of_byte_of_Z.
    rewrite Nat2Z.inj_succ, Z.pow_succ_r by lia.
    rewrite (Z.rem_mul_r n 256 (256 ^ Z.of_nat w)) by lia. lia.
Qed.

Lemma Uint64_PutUint64 v : Uint64 (PutUint64 v) = uint64 v.
Proof. unfold Uint64, PutUint64, uint64. by rewrite be_val_be_bytes. Qed.

Lemma Uint32_PutUint32 v : Uint32 (PutUint32 v) = uint32 v.
Proof. unfold Uint32, PutUint32, uint32. by rewrite be_val_be_bytes. Qed.

Lemma len_PutUint64 v : len (PutUint64 v) = 8.
Proof. apply len_be_bytes. Qed.

Lemma len_PutUint32 v : len (PutUint32 v) = 4.
Proof. apply len_be_bytes. Qed.

Lemma uint64_id z : 0 ≤ z < 2 ^ 64 → uint64 z = z.
Proof. intros. unfold uint64. by apply Z.mod_small. Qed.

Lemma uint32_id z : 0 ≤ z < 2 ^ 32 → uint32 z = z.
Proof. intros. unfold uint32. by apply Z.mod_small. Qed.

Lemma uint64_range z : 0 ≤ uint64 z < 2 ^ 64.
Proof. unfold uint64. apply Z.mod_pos_bound. lia. Qed.

Lemma uint32_range z : 0 ≤ uint32 z < 2 ^ 32.
Proof. unfold uint32. apply Z.mod_pos_bound. lia. Qed.

Lemma int64_id z : 0 ≤ z < 2 ^ 63 → int64 z = z.
Proof.
  intros. unfold int64. rewrite Z.mod_small by lia.
  destruct (Z.ltb_spec z (2 ^ 63)); lia.
Qed.

Lemma slice_app_mid {A} (l1 l2 l3 : list A) :
  slice (len l1) (len l1 + len l2) (l1 ++ l2 ++ l3) = l2.
Proof.
  unfold slice, len. rewrite Nat2Z.id.
  rewrite drop_app_length.
  replace (Z.to_nat (Z.of_nat (length l1) + Z.of_nat (length l2) - Z.of_nat (length l1)))
    with (length l2) by lia.
  by rewrite take_app_length.
Qed.

(** ** store *)

Lemma store_eta (s : store.t) :
  store.mk (store.File s) (store.closed s) (store.buf s) (store.werr s) (store.size s) = s.
Proof. by destruct s. Qed.


Lemma store_frame_refl st : store_frame st st.
Proof. by split. Qed.

Lemma store_frame_trans a b c : store_frame a b → store_frame b c → store_frame a c.
Proof.
  intros [] []. split; try congruence.
  - intros n Hn. rewrite sf_other1 by congruence. by apply sf_other0.
  - intros n. by rewrite sf_dom1.
Qed.

Lemma File_Write_Ok_inv n cl p fs fs' :
  File_Write n cl p fs = (Ok tt, fs') →
  cl = false ∧ ∃ c, fs !! n = Some c ∧ fs' = <[n := c ++ p]> fs.
Proof.
  unfold File_Write. destruct cl; [done|]. destruct (fs !! n) eqn:E; [|done].
  intros [= <-]. eauto.
Qed.

Lemma File_Write_Err_inv n cl p fs e fs' :
  File_Write n cl p fs = (Err e, fs') → fs' = fs.
Proof.
  unfold File_Write. destruct cl; [by intros [= <- <-]|].
  destruct (fs !! n); [done | by intros [= <- <-]].
Qed.

Lemma Flush_Ok_inv st st' :
  store.Flush st = (Ok tt, st') →
  store.werr (snd st) = None ∧ store.werr (snd st') = None ∧
  store.buf (snd st') = [] ∧
  store_frame st st' ∧
  store.contents st' = store.contents st.
Proof.
  destruct st as [fs s]. unfold store.Flush, store.self, store.update, store.onFS.
  unmonad. simpl.
  destruct (store.werr s) eqn:Ew; [done|].
  destruct (Z.eqb_spec (len (store.buf s)) 0) as [E0|E0].
  - intros [= <-]. simpl. rewrite Ew. split_and!; try done.
    destruct (store.buf s); [done | unfold len in E0; simpl in E0; lia].
  - simpl. destruct (File_Write _ _ _ fs) as [[[]|e|] fs1] eqn:EW; simpl; [|done|done].
    intros [= <-]. apply File_Write_Ok_inv in EW as (Hc & c & Hl & ->).
    simpl. split_and!; try done.
    + split; simpl; try done.
      * intros n Hn. by rewrite lookup_insert_ne.
      * intros n. rewrite lookup_insert. case_decide; subst; rewrite ?Hl; split; eauto.
    + unfold store.contents. simpl. rewrite lookup_insert_eq, Hl. simpl.
      by rewrite app_nil_r.
Qed.

Lemma Flush_Err_inv st e st' :
  store.Flush st = (Err e, st') →
  store_frame st st' ∧ store.werr (snd st') = Some e.
Proof.
  destruct st as [fs s]. unfold store.Flush, store.self, store.update, store.onFS.
  unmonad. simpl.
  destruct (store.werr s) eqn:Ew; simpl.
  { intros [= <- <-]. split; [apply store_frame_refl|done]. }
  destruct (Z.eqb_spec (len (store.buf s)) 0) as [E0|E0]; simpl; [done|].
  destruct (File_Write _ _ _ fs) as [[[]|e'|] fs1] eqn:EW; simpl; [done| |done].
  intros [= <- <-]. apply File_Write_Err_inv in EW as ->. split; [by split|done].
Qed.

Lemma contents_frame_buf fs s b :
  store.contents (fs, store.set_buf b s) = (λ c, c ++ b) <$> fs !! store.File s.
Proof. unfold store.contents. simpl. by destruct (fs !! store.File s). Qed.

Lemma Write_turn_Ok_inv p st p' st' :
  store.Write_turn p st = (Ok p', st') →
  store_frame st st' ∧
  (store.werr (snd st') = None →
   store.werr (snd st) = None ∧
   (λ c, c ++ p') <$> store.contents st' = (λ c, c ++ p) <$> store.contents st).
Proof.
  destruct st as [fs s]. unfold store.Write_turn, store.self, store.update, store.onFS.
  unmonad. simpl.
  destruct (_ && _) eqn:Hc; simpl;
    [|intros [= <- <-]; split; [apply store_frame_refl|done]].
  apply andb_prop in Hc as [Hav Hw]. apply bool_decide_eq_true in Hw.
  destruct (Z.eqb_spec (len (store.buf s)) 0) as [E0|E0].
  - simpl. destruct (File_Write _ _ _ fs) as [[[]|e|] fs1] eqn:EW; simpl; [| |done].
    + intros [= <- <-]. apply File_Write_Ok_inv in EW as (Hcl & c & Hl & ->).
      split.
      * split; simpl; try done.
        -- intros n Hn. by rewrite lookup_insert_ne.
        -- intros n. rewrite lookup_insert. case_decide; subst; rewrite ?Hl; split; eauto.
      * intros _. split; [done|]. unfold store.contents. simpl.
        rewrite lookup_insert_eq, Hl. simpl.
        destruct (store.buf s); [|unfold len in E0; simpl in E0; lia].
        by rewrite !app_nil_r.
    + intros [= <- <-]. apply File_Write_Err_inv in EW as ->.
      split; [by split|]. simpl. done.
  - simpl. set (n := Z.to_nat (store.Available s)).
    destruct (store.Flush (fs, store.set_buf (store.buf s ++ take n p) s))
      as [[[]|e|] st1] eqn:EF; simpl; [| |done].
    + intros [= <- <-]. apply Flush_Ok_inv in EF as (Hw1 & Hw2 & Hb & Hfr & Hct).
      split.
      * destruct Hfr. split; simpl in *; try done.
      * intros _. split; [done|]. rewrite Hct.
        unfold store.contents. simpl. destruct (fs !! store.File s); simpl; [|done].
        by rewrite <- !app_assoc, take_drop.
    + intros [= <- <-]. apply Flush_Err_inv in EF as [Hfr He].
      split; [|by rewrite He].
      destruct Hfr. split; simpl in *; done.
Qed.


Lemma Write_turn_idle p st :
  Write_cond p st = false → store.Write_turn p st = (Ok p, st).
Proof.
  destruct st as [fs s]. unfold Write_cond, store.Write_turn, store.self.
  unmonad. simpl. by intros ->.
Qed.

Lemma Write_turn_progress p st p1 st1 :
  Write_cond p st = true →
  store.Write_turn p st = (Ok p1, st1) →
  store.werr (snd st1) ≠ None ∨
  (store.buf (snd st1) = [] ∧ (store.buf (snd st) = [] → p1 = [])).
Proof.
  destruct st as [fs s]. unfold Write_cond, store.Write_turn, store.self, store.update, store.onFS.
  unmonad. simpl. intros ->.
  destruct (Z.eqb_spec (len (store.buf s)) 0) as [E0|E0]; simpl.
  - destruct (File_Write _ _ _ fs) as [[[]|e|] fs1] eqn:EW; simpl; [| |done].
    + intros [= <- <-]. right. simpl. split; [|done].
      destruct (store.buf s); [done|]. unfold len in E0. simpl in E0. lia.
    + intros [= <- <-]. by left.
  - destruct (store.Flush _) as [[[]|e|] st2] eqn:EF; simpl; [| |done].
    + intros [= <- <-]. apply Flush_Ok_inv in EF as (_ & _ & Hb & _). right.
      split; [done|]. intros Hb0. rewrite Hb0 in E0. done.
    + intros [= <- <-]. apply Flush_Err_inv in EF as [_ He]. left. by rewrite He.
Qed.

(** The unrolling of the loop of [bufio.Writer.Write] is exact: after two
    turns its condition is false. *)
Lemma Write_turns_enough p st p1 st1 p2 st2 :
  store.Write_turn p st = (Ok p1, st1) →
  store.Write_turn p1 st1 = (Ok p2, st2) →
  Write_cond p2 st2 = false.
Proof.
  intros H1 H2.
  destruct (Write_cond p st) eqn:C1.
  - destruct (Write_cond p1 st1) eqn:C2.
    + pose proof (Write_turn_progress _ _ _ _ C1 H1) as [Hw|[Hb _]].
      { unfold Write_cond in C2. apply andb_prop in C2 as [_ C2].
        by apply bool_decide_eq_true in C2. }
      pose proof (Write_turn_progress _ _ _ _ C2 H2) as [Hw|[Hb2 Hp]].
      * unfold Write_cond. apply andb_false_intro2. by apply bool_decide_eq_false.
      * rewrite (Hp Hb). unfold Write_cond, store.Available. rewrite Hb2.
        by apply andb_false_intro1.
    + rewrite (Write_turn_idle _ _ C2) in H2. by injection H2 as <- <-.
  - rewrite (Write_turn_idle _ _ C1) in H1. injection H1 as <- <-.
    rewrite (Write_turn_idle _ _ C1) in H2. by injection H2 as <- <-.
Qed.

Lemma Write_Ok_inv p st st' :
  store.Write p st = (Ok tt, st') →
  store_frame st st' ∧ store.werr (snd st) = None ∧ store.werr (snd st') = None ∧
  store.contents st' = (λ c, c ++ p) <$> store.contents st.
Proof.
  unfold store.Write. intros H.
  apply bind_Ok_inv in H as (p1 & st1 & H1 & H).
  apply bind_Ok_inv in H as (p2 & st2 & H2 & H).
  apply Write_turn_Ok_inv in H1 as [F1 K1]. apply Write_turn_Ok_inv in H2 as [F2 K2].
  destruct st2 as [fs2 s2]. unfold store.self, store.update in H. unmonad. simpl in *.
  destruct (store.werr s2) eqn:Ew; [done|]. injection H as <-. simpl.
  destruct (K2 eq_refl) as [Hw1 E2]. destruct (K1 Hw1) as [Hw0 E1].
  split_and!; try done.
  - eapply store_frame_trans; [apply F1|]. eapply store_frame_trans; [apply F2|].
    by split.
  - rewrite <- E1, <- E2. unfold store.contents. simpl.
    destruct (fs2 !! store.File s2); simpl; [|done]. by rewrite app_assoc.
Qed.

Lemma Append_Ok_inv p st n pos st' :
  store.Append p st = (Ok (n, pos), st') →
  pos = store.size (snd st) ∧ n = uint64 (len p + lenWidth) ∧
  store.File (snd st') = store.File (snd st) ∧
  store.closed (snd st') = store.closed (snd st) ∧
  store.werr (snd st) = None ∧ store.werr (snd st') = None ∧
  store.size (snd st') = uint64 (store.size (snd st) + uint64 (len p + lenWidth)) ∧
  (∀ f, f ≠ store.File (snd st) → fst st' !! f = fst st !! f) ∧
  (∀ f, is_Some (fst st' !! f) ↔ is_Some (fst st !! f)) ∧
  store.contents st' =
    (λ c, c ++ PutUint64 (uint64 (len p)) ++ p) <$> store.contents st.
Proof.
  unfold store.Append. intros H.
  apply bind_Ok_inv in H as (s0 & st0 & H0 & H).
  unfold store.self in H0. unmonad. injection H0 as <- <-.
  apply bind_Ok_inv in H as ([] & st1 & H1 & H).
  apply bind_Ok_inv in H as ([] & st2 & H2 & H).
  apply Write_Ok_inv in H1 as (F1 & W0 & W1 & C1).
  apply Write_Ok_inv in H2 as (F2 & _ & W2 & C2).
  unfold store.update in H. unmonad. simpl in H. injection H as <- <- <-.
  pose proof (store_frame_trans _ _ _ F1 F2) as [].
  simpl. split_and!; try done.
  - by rewrite sf_size0.
  - unfold store.contents in *. simpl in *. rewrite C2, C1.
    destruct (fst st !! store.File (snd st)); simpl; [|done].
    by rewrite <- !app_assoc.
Qed.

(** C6: a successful [store.Append(p)] on a store of size [S] returns
    [pos = S] and [n = 8 + len(p)], adds the frame (eight big-endian
    length bytes, then the payload) at the end of what the store holds,
    and leaves [size = S + n]. Sizes are [uint64]: the statement is for
    appends that stay below [2^64]. *)
Theorem store_Append_frame (st st' : store.st) (p : bytes) (n pos : Z) :
  0 ≤ store.size (snd st) →
  store.size (snd st) + 8 + len p < 2 ^ 64 →
  store.Append p st = (Ok (n, pos), st') →
  pos = store.size (snd st) ∧
  n = 8 + len p ∧
  store.contents st' = (λ c, c ++ be_bytes 8 (len p) ++ p) <$> store.contents st ∧
  store.size (snd st') = store.size (snd st) + n.
Proof.
  intros H0 Hlt H. pose proof (len_nonneg p).
  apply Append_Ok_inv in H as (-> & -> & _ & _ & _ & _ & Hs & _ & _ & Hc).
  unfold lenWidth in *.
  rewrite (uint64_id (len p + 8)) in * by lia.
  rewrite (uint64_id (len p)) in Hc by lia.
  rewrite uint64_id in Hs by lia.
  split_and!; [done | lia | done | lia].
Qed.


Lemma store_Append_frame_witness :
  let st' := snd (store.Append [x61; x62] store_example) in
  3 = store.size (snd store_example) ∧
  10 = 8 + len [x61; x62] ∧
  store.contents st' =
    (λ c, c ++ be_bytes 8 (len [x61; x62]) ++ [x61; x62]) <$> store.contents store_example ∧
  store.size (snd st') = store.size (snd store_example) + 10.
Proof.
  apply (store_Append_frame store_example _ [x61; x62] 10 3).
  - vm_compute. done.
  - vm_compute. done.
  - vm_compute. reflexivity.
Defined.

(** ** index *)


Lemma entry_number_range i in_ : 0 ≤ entry_number i in_ < 2 ^ 32.
Proof. unfold entry_number. destruct (in_ =? -1); apply uint32_range. Qed.

Lemma mmap_get_unfold (fs : FS) (i : index.t) (lo hi : Z) (c : bytes) :
  fs !! index.file i = Some c →
  index.mmap_get lo hi (fs, i) =
    if (lo <=? hi) && (hi <=? index.mmap i) && (hi <=? len c)
    then (Ok (slice lo hi c), (fs, i)) else (Panic, (fs, i)).
Proof.
  intros Hc. unfold index.mmap_get. simpl. rewrite Hc.
  destruct (lo <=? hi), (hi <=? index.mmap i), (hi <=? len c); done.
Qed.

(** [index.Read] in full: which entry it looks at and when it fails. *)
Lemma index_Read_unfold (fs : FS) (i : index.t) (in_ : Z) (c : bytes) :
  fs !! index.file i = Some c →
  index.Read in_ (fs, i) =
    let k := entry_number i in_ in
    if index.size i =? 0 then (Err EOF, (fs, i))
    else if index.size i <? 12 * k + 12 then (Err EOF, (fs, i))
    else if (12 * k + 12 <=? index.mmap i) && (12 * k + 12 <=? len c)
         then (Ok (entry c k), (fs, i))
         else (Panic, (fs, i)).
Proof.
  intros Hc. pose proof (entry_number_range i in_) as Hk.
  unfold index.Read, index.self. unmonad. simpl.
  destruct (index.size i =? 0); [done|]. simpl.
  fold (entry_number i in_). set (k := entry_number i in_) in *.
  unfold entWidth, offWidth, posWidth. simpl.
  replace (4 + 8) with 12 by lia.
  rewrite (uint64_id (k * 12)) by lia.
  rewrite (uint64_id (k * 12 + 12)) by lia.
  rewrite (uint64_id (k * 12 + 4)) by lia.
  replace (k * 12) with (12 * k) by lia.
  destruct (index.size i <? 12 * k + 12); [done|]. simpl.
  rewrite (mmap_get_unfold _ _ _ _ c Hc).
  destruct (Z.leb_spec (12 * k + 12) (index.mmap i)) as [Hm|Hm];
    destruct (Z.leb_spec (12 * k + 12) (len c)) as [Hl|Hl]; simpl.
  - zbool. simpl. rewrite (mmap_get_unfold _ _ _ _ c Hc). zbool. done.
  - destruct (_ && _); simpl; [|done].
    rewrite (mmap_get_unfold _ _ _ _ c Hc). zbool. by rewrite andb_false_r.
  - destruct (_ && _); simpl; [|done].
    rewrite (mmap_get_unfold _ _ _ _ c Hc). zbool. done.
  - destruct (_ && _); simpl; [|done].
    rewrite (mmap_get_unfold _ _ _ _ c Hc). zbool. done.
Qed.

Lemma entry_number_nonneg i in_ :
  0 ≤ in_ → entry_number i in_ = in_ mod 2 ^ 32.
Proof. intros H. unfold entry_number, uint32. by zbool. Qed.

Lemma entry_number_last i :
  12 ≤ index.size i → index.size i / 12 ≤ 2 ^ 32 →
  entry_number i (-1) = index.size i / 12 - 1.
Proof.
  intros H1 H2. unfold entry_number, entWidth, offWidth, posWidth. simpl.
  replace (4 + 8) with 12 by lia.
  assert (1 ≤ index.size i / 12) by (apply Z.div_le_lower_bound; lia).
  rewrite uint64_id by lia. by rewrite uint32_id by lia.
Qed.

(** C7: where [in] is an entry number ([-1], or [0 <= in < 2^32])
    [index.Read(in)] does what it is meant to: it fails with [io.EOF]
    when [size == 0]; with [in == -1] on an index of at least one and at
    most [2^32] whole entries it returns the last entry, number
    [size/12 - 1]; with [0 <= in < 2^32] it fails with [io.EOF] exactly
    when the byte range [[12*in, 12*in + 12)] exceeds [size], and
    otherwise returns the big-endian offset and position stored at
    entry [in].  For [in >= 2^32] it does not: [uint32(in)] drops the
    high bits before the bounds check, so whenever entry [in mod 2^32]
    lies within [size] the call returns that entry, although the byte
    range of entry [in] exceeds [size] and [io.EOF] is due.  The index
    is one whose valid bytes lie inside its mapping. *)
Theorem index_Read_cases (fs : FS) (i : index.t) (c : bytes) (in_ : Z) :
  fs !! index.file i = Some c →
  0 ≤ index.size i → index.size i ≤ index.mmap i → index.size i ≤ len c →
  (index.size i = 0 → index.Read in_ (fs, i) = (Err EOF, (fs, i))) ∧
  (in_ = -1 → 12 ≤ index.size i → index.size i / 12 ≤ 2 ^ 32 →
   index.Read in_ (fs, i) = (Ok (entry c (index.size i / 12 - 1)), (fs, i))) ∧
  (0 ≤ in_ < 2 ^ 32 → index.size i ≠ 0 →
   (index.Read in_ (fs, i) = (Err EOF, (fs, i)) ↔ index.size i < 12 * in_ + 12) ∧
   (12 * in_ + 12 ≤ index.size i →
    index.Read in_ (fs, i) = (Ok (entry c in_), (fs, i)))) ∧
  (2 ^ 32 ≤ in_ → index.size i < 12 * in_ + 12 →
   12 * (in_ mod 2 ^ 32) + 12 ≤ index.size i →
   index.Read in_ (fs, i) = (Ok (entry c (in_ mod 2 ^ 32)), (fs, i))).
Proof.
  intros Hc H0 Hm Hl. rewrite (index_Read_unfold fs i in_ c Hc). cbv zeta.
  split_and!.
  - intros ->. done.
  - intros -> H12 H32. rewrite entry_number_last by done.
    assert (12 * (index.size i / 12) ≤ index.size i) by (apply Z.mul_div_le; lia).
    zbool. simpl. by zbool.
  - intros Hin Hnz. rewrite entry_number_nonneg by lia.
    rewrite (Z.mod_small in_) by lia.
    split.
    + zbool. destruct (Z.ltb_spec (index.size i) (12 * in_ + 12)).
      * done.
      * split; [|lia]. zbool. done.
    + intros Hk. zbool. simpl. by zbool.
  - intros Hin Hout Hk. rewrite entry_number_nonneg by lia.
    pose proof (Z.mod_pos_bound in_ (2 ^ 32) ltac:(lia)) as Hmod.
    zbool. simpl. by zbool.
Qed.

Lemma index_Read_cases_witness :
  let fs := fst index_example in
  let i := snd index_example in
  let c := PutUint32 0 ++ PutUint64 7 ++ replicate 12 x00 in
  (index.size i = 0 → index.Read (2 ^ 32) (fs, i) = (Err EOF, (fs, i))) ∧
  (2 ^ 32 = -1 → 12 ≤ index.size i → index.size i / 12 ≤ 2 ^ 32 →
   index.Read (2 ^ 32) (fs, i) = (Ok (entry c (index.size i / 12 - 1)), (fs, i))) ∧
  (0 ≤ 2 ^ 32 < 2 ^ 32 → index.size i ≠ 0 →
   (index.Read (2 ^ 32) (fs, i) = (Err EOF, (fs, i)) ↔ index.size i < 12 * 2 ^ 32 + 12) ∧
   (12 * 2 ^ 32 + 12 ≤ index.size i →
    index.Read (2 ^ 32) (fs, i) = (Ok (entry c (2 ^ 32)), (fs, i)))) ∧
  (2 ^ 32 ≤ 2 ^ 32 → index.size i < 12 * 2 ^ 32 + 12 →
   12 * (2 ^ 32 mod 2 ^ 32) + 12 ≤ index.size i →
   index.Read (2 ^ 32) (fs, i) = (Ok (entry c (2 ^ 32 mod 2 ^ 32)), (fs, i))).
Proof.
  apply (index_Read_cases (fst index_example) (snd index_example)
           (PutUint32 0 ++ PutUint64 7 ++ replicate 12 x00) (2 ^ 32)).
  - vm_compute. reflexivity.
  - vm_compute. done.
  - vm_compute. done.
  - vm_compute. done.
Defined.

(** C7 fails in the code: with [size = 12] and [in = 2^32] the byte range
    [[12*in, 12*in + 12)] lies far beyond [size], and [index.Read] returns
    entry [0] instead of [io.EOF]. *)
Lemma index_Read_cases_counterexample :
  0 ≤ 2 ^ 32 ∧
  index.size (snd index_example) < 12 * 2 ^ 32 + 12 ∧
  fst (index.Read (2 ^ 32) index_example) = Ok (0, 7) ∧
  fst (index.Read (2 ^ 32) index_example) ≠ Err EOF.
Proof. vm_compute. split_and!; done. Qed.

(** C8: [segment.IsMaxed()] is true exactly when the store has reached
    [MaxStoreBytes], or the index has reached [MaxIndexBytes], or the
    mapping has no room for one more 12-byte entry. Index sizes are file
    sizes, far below [2^64 - 12]. *)
Theorem segment_IsMaxed_iff (s : segment.t) :
  0 ≤ index.size (segment.index s) →
  index.size (segment.index s) + 12 < 2 ^ 64 →
  segment.IsMaxed s = true ↔
    MaxStoreBytes (Segment (segment.config s)) ≤ store.size (segment.store s)
    ∨ MaxIndexBytes (Segment (segment.config s)) ≤ index.size (segment.index s)
    ∨ index.mmap (segment.index s) < index.size (segment.index s) + 12.
Proof.
  intros H0 H1. unfold segment.IsMaxed, index.isMaxed, entWidth, offWidth, posWidth.
  replace (4 + 8) with 12 by lia. rewrite uint64_id by lia.
  rewrite !orb_true_iff, !Z.leb_le, Z.ltb_lt. lia.
Qed.

Lemma segment_IsMaxed_iff_witness :
  segment.IsMaxed (snd segment_example) = true ↔
    1024 ≤ store.size (segment.store (snd segment_example))
    ∨ 24 ≤ index.size (segment.index (snd segment_example))
    ∨ index.mmap (segment.index (snd segment_example))
      < index.size (segment.index (snd segment_example)) + 12.
Proof.
  apply (segment_IsMaxed_iff (snd segment_example)); vm_compute; done.
Defined.






(** ** Segment contents *)

Lemma store_bytes_app ps qs : store_bytes (ps ++ qs) = store_bytes ps ++ store_bytes qs.
Proof. unfold store_bytes. by rewrite fmap_app, join_app. Qed.

Lemma store_bytes_singleton p : store_bytes [p] = frame p.
Proof. unfold store_bytes. cbn [fmap list_fmap mjoin list_join]. apply app_nil_r. Qed.

Lemma store_bytes_snoc ps p : store_bytes (ps ++ [p]) = store_bytes ps ++ frame p.
Proof. by rewrite store_bytes_app, store_bytes_singleton. Qed.

Lemma len_frame p : len (frame p) = 8 + len p.
Proof. unfold frame. by rewrite len_app, len_PutUint64. Qed.

Lemma pos_of_app_l ps qs k : (k ≤ length ps)%nat → pos_of (ps ++ qs) k = pos_of ps k.
Proof. intros H. unfold pos_of. by rewrite take_app_le. Qed.

Lemma pos_of_length ps : pos_of ps (length ps) = len (store_bytes ps).
Proof. unfold pos_of. by rewrite firstn_all. Qed.

Lemma pos_of_nonneg ps k : 0 ≤ pos_of ps k.
Proof. apply len_nonneg. Qed.

Lemma pos_of_le ps k : pos_of ps k ≤ len (store_bytes ps).
Proof.
  unfold pos_of. rewrite <- (take_drop k ps) at 2.
  rewrite store_bytes_app, len_app. pose proof (len_nonneg (store_bytes (drop k ps))). lia.
Qed.

Lemma index_bytes_snoc ps p :
  index_bytes (ps ++ [p]) =
  index_bytes ps ++ ientry (len ps) (len (store_bytes ps)).
Proof.
  unfold index_bytes. rewrite length_app. simpl.
  rewrite Nat.add_1_r, seq_S, fmap_app, join_app.
  cbn [fmap list_fmap mjoin list_join Nat.add].
  rewrite app_nil_r, pos_of_app_l, pos_of_length by lia. f_equal.
  f_equal. apply list_fmap_ext. intros i k Hk.
  apply lookup_seq in Hk as [-> Hlt]. simpl.
  by rewrite pos_of_app_l by lia.
Qed.

Lemma len_ientry k pos : len (ientry k pos) = 12.
Proof. unfold ientry. by rewrite len_app, len_PutUint32, len_PutUint64. Qed.

Lemma len_index_bytes ps : len (index_bytes ps) = 12 * len ps.
Proof.
  induction ps as [|p ps IH] using rev_ind; [done|].
  rewrite index_bytes_snoc, !len_app, len_ientry, IH. unfold len. simpl. lia.
Qed.

(** The frame of payload [k] inside the store. *)
Lemma store_bytes_lookup ps k p :
  ps !! k = Some p →
  ∃ post, store_bytes ps = store_bytes (take k ps) ++ frame p ++ post.
Proof.
  intros H. exists (store_bytes (drop (S k) ps)).
  rewrite <- (take_drop_middle ps k p H) at 1.
  rewrite store_bytes_app. by f_equal.
Qed.

(** Entry [k] inside the index. *)
Lemma index_bytes_lookup ps k :
  (k < length ps)%nat →
  ∃ pre post, index_bytes ps = pre ++ ientry (Z.of_nat k) (pos_of ps k) ++ post
              ∧ len pre = 12 * Z.of_nat k.
Proof.
  induction ps as [|p ps IH] using rev_ind; [simpl; lia|].
  rewrite length_app. simpl. intros Hk.
  rewrite index_bytes_snoc.
  destruct (decide (k < length ps)%nat) as [Hlt|Hge].
  - destruct (IH Hlt) as (pre & post & E & Hl).
    exists pre, (post ++ ientry (len ps) (len (store_bytes ps))).
    rewrite E, pos_of_app_l by lia. by rewrite <- !app_assoc.
  - assert (k = length ps) as -> by lia.
    exists (index_bytes ps), []. rewrite pos_of_app_l, pos_of_length by lia.
    split; [|by rewrite len_index_bytes]. by f_equal.
Qed.

Lemma slice_app_mid' {A} (l1 l2 l3 : list A) (lo hi : Z) :
  lo = len l1 → hi = len l1 + len l2 → slice lo hi (l1 ++ l2 ++ l3) = l2.
Proof. intros -> ->. apply slice_app_mid. Qed.

Lemma entry_index_bytes ps tail k :
  (k < length ps)%nat → Z.of_nat k < 2 ^ 32 → pos_of ps k < 2 ^ 64 →
  entry (index_bytes ps ++ tail) (Z.of_nat k) = (Z.of_nat k, pos_of ps k).
Proof.
  intros Hk H32 H64. destruct (index_bytes_lookup ps k Hk) as (pre & post & -> & Hl).
  unfold entry, ientry. rewrite <- !app_assoc. f_equal.
  - rewrite (slice_app_mid' pre (PutUint32 (Z.of_nat k))); [| lia | rewrite len_PutUint32; lia].
    rewrite Uint32_PutUint32. apply uint32_id. lia.
  - rewrite (app_assoc pre).
    rewrite (slice_app_mid' (pre ++ PutUint32 (Z.of_nat k)) (PutUint64 (pos_of ps k))).
    + rewrite Uint64_PutUint64. apply uint64_id. pose proof (pos_of_nonneg ps k). lia.
    + rewrite len_app, len_PutUint32. lia.
    + rewrite len_app, len_PutUint32, len_PutUint64. lia.
Qed.

(** ** store in working order *)

Lemma File_Write_wf (n : fname) (p : bytes) (fs : FS) (c : bytes) :
  fs !! n = Some c → File_Write n false p fs = (Ok tt, <[n := c ++ p]> fs).
Proof. intros H. unfold File_Write. by rewrite H. Qed.

Lemma Flush_wf (fs : FS) (s : store.t) (c : bytes) :
  store.closed s = false → store.werr s = None → fs !! store.File s = Some c →
  store.Flush (fs, s) = (Ok tt, (<[store.File s := c ++ store.buf s]> fs, store.set_buf [] s)).
Proof.
  intros Hcl Hw Hc. unfold store.Flush, store.self, store.update, store.onFS.
  unmonad. simpl. rewrite Hw.
  destruct (Z.eqb_spec (len (store.buf s)) 0) as [E0|E0]; simpl.
  - assert (store.buf s = []) as Hb.
    { destruct (store.buf s); [done|]. unfold len in E0. simpl in E0. lia. }
    rewrite Hb, app_nil_r, insert_id by done. f_equal. f_equal.
    destruct s; simpl in *. by subst.
  - rewrite Hcl, (File_Write_wf _ _ _ c Hc). done.
Qed.

Lemma store_wf_frame st st' : store_frame st st' → store.werr (snd st') = None →
  store_wf st → store_wf st'.
Proof.
  intros [HF HC HS HO HD] Hw (Hc & _ & Hf). split_and!; [congruence | done |].
  rewrite HF. by apply HD.
Qed.

Lemma Flush_no_Panic st st' : store.Flush st ≠ (Panic, st').
Proof.
  destruct st as [fs s]. unfold store.Flush, store.self, store.update, store.onFS.
  unmonad. simpl. destruct (store.werr s); simpl; [done|].
  destruct (len (store.buf s) =? 0); simpl; [done|].
  unfold File_Write. destruct (store.closed s); simpl; [done|].
  destruct (fs !! store.File s); simpl; done.
Qed.

Lemma Write_turn_wf p st :
  store_wf st →
  ∃ p1 st1, store.Write_turn p st = (Ok p1, st1) ∧ store_wf st1.
Proof.
  destruct st as [fs s]. intros (Hcl & Hw & [c Hc]). simpl in *.
  destruct (store.Write_turn p (fs, s)) as [r st1] eqn:E.
  assert (∃ p1, r = Ok p1 ∧ store.werr (snd st1) = None) as (p1 & -> & Hw1).
  { revert E. unfold store.Write_turn, store.self, store.update, store.onFS.
    unmonad. simpl. rewrite Hw.
    destruct (_ && _); simpl; [|intros [= <- <-]; eauto].
    destruct (len (store.buf s) =? 0); simpl.
    - rewrite Hcl, (File_Write_wf _ _ _ c Hc). simpl. intros [= <- <-]. eauto.
    - rewrite (Flush_wf _ _ c); [|done|done|done]. simpl. intros [= <- <-]. eauto. }
  exists p1, st1. split; [done|].
  apply Write_turn_Ok_inv in E as [F _].
  eapply store_wf_frame; [exact F|done|]. split_and!; simpl; eauto.
Qed.

Lemma Write_wf p st :
  store_wf st → ∃ st', store.Write p st = (Ok tt, st') ∧ store_wf st'.
Proof.
  intros Hwf. destruct (Write_turn_wf p st Hwf) as (p1 & st1 & E1 & Hwf1).
  destruct (Write_turn_wf p1 st1 Hwf1) as (p2 & [fs2 s2] & E2 & Hwf2).
  destruct Hwf2 as (Hcl & Hw & Hf). simpl in *.
  eexists. split.
  - unfold store.Write. rewrite (bind_Ok _ _ _ _ _ E1), (bind_Ok _ _ _ _ _ E2).
    unfold store.self, store.update. unmonad. simpl. rewrite Hw. done.
  - split_and!; simpl; done.
Qed.

(** [store.Append] on a store in working order: it succeeds, and the
    file and the buffer together grow by the frame. *)
Lemma store_Append_wf (fs : FS) (s : store.t) (p c : bytes) :
  store.closed s = false → store.werr s = None → fs !! store.File s = Some c →
  ∃ c' b',
    store.Append p (fs, s) =
      (Ok (uint64 (len p + lenWidth), store.size s),
       (<[store.File s := c']> fs,
        store.mk (store.File s) false b' None
          (uint64 (store.size s + uint64 (len p + lenWidth)))))
    ∧ c' ++ b' = c ++ store.buf s ++ PutUint64 (uint64 (len p)) ++ p.
Proof.
  intros Hcl Hw Hc.
  assert (store_wf (fs, s)) as Hwf by (split_and!; simpl; eauto).
  destruct (Write_wf (PutUint64 (uint64 (len p))) _ Hwf) as (st1 & E1 & Hwf1).
  destruct (Write_wf p _ Hwf1) as ([fs2 s2] & E2 & Hwf2).
  assert (store.Append p (fs, s) =
          (Ok (uint64 (len p + lenWidth), store.size s),
           (fs2, store.set_size (uint64 (store.size s2 + uint64 (len p + lenWidth))) s2))) as E.
  { unfold store.Append. unfold store.self at 1. unmonad. simpl.
    rewrite E1, E2. unfold store.update. simpl. done. }
  pose proof E as E'. apply Append_Ok_inv in E' as
    (_ & _ & HF & HC & _ & HW & HS & Ho & Hd & Hct). simpl in *.
  unfold store.contents in Hct. simpl in Hct. rewrite HF, Hc in Hct. simpl in Hct.
  destruct (fs2 !! store.File s) as [c'|] eqn:Hc'; [|done]. simpl in Hct.
  injection Hct as Hct.
  exists c', (store.buf s2). split; [|by rewrite Hct, <- !app_assoc].
  rewrite E. f_equal. f_equal.
  - apply map_eq. intros n. destruct (decide (n = store.File s)) as [->|Hn].
    + by rewrite lookup_insert_eq.
    + rewrite lookup_insert_ne by done. by apply Ho.
  - destruct s2; simpl in *. unfold store.set_size. simpl. congruence.
Qed.

Lemma len_0_nil {A} (l : list A) : len l = 0 → l = [].
Proof. destruct l; [done|]. unfold len. simpl. lia. Qed.

(** [store.Read] at the start of a frame returns its payload. *)
Lemma store_Read_wf (fs : FS) (s : store.t) (c : bytes) (pos : Z) (p pre post : bytes) :
  store.closed s = false → store.werr s = None → fs !! store.File s = Some c →
  c ++ store.buf s = pre ++ frame p ++ post → len pre = pos →
  pos + 8 + len p < 2 ^ 63 →
  store.Read pos (fs, s) =
    (Ok p, (<[store.File s := c ++ store.buf s]> fs, store.set_buf [] s)).
Proof.
  intros Hcl Hw Hc Hct Hpre Hlt.
  pose proof (len_nonneg pre). pose proof (len_nonneg p). pose proof (len_nonneg post).
  unfold store.Read. rewrite (bind_Ok _ _ _ _ _ (Flush_wf _ _ c Hcl Hw Hc)).
  unfold store.self, store.onFS. unmonad. simpl. rewrite Hcl.
  unfold lenWidth. rewrite int64_id by lia.
  assert (len (c ++ store.buf s) = pos + 8 + len p + len post) as Hlen.
  { rewrite Hct, !len_app, len_frame. lia. }
  assert (slice pos (pos + 8) (c ++ store.buf s) = PutUint64 (len p)) as Hs1.
  { rewrite Hct. unfold frame. rewrite <- !app_assoc.
    apply slice_app_mid'; [lia | rewrite len_PutUint64; lia]. }
  assert (slice (pos + 8) (pos + 8 + len p) (c ++ store.buf s) = p) as Hs2.
  { rewrite Hct. unfold frame. rewrite <- !app_assoc, (app_assoc pre).
    apply slice_app_mid'; rewrite len_app, len_PutUint64; lia. }
  unfold File_ReadAt. zbool. simpl. rewrite lookup_insert_eq, Hlen. zbool.
  rewrite Hs1, Uint64_PutUint64, (uint64_id (len p)) by lia. zbool.
  rewrite (uint64_id (pos + 8)), int64_id by lia. zbool.
  destruct (Z.eqb_spec (len p) 0) as [E0|E0].
  - by rewrite (len_0_nil p E0).
  - simpl. rewrite lookup_insert_eq, Hlen. zbool. by rewrite Hs2.
Qed.

(** ** index in working order *)

Lemma mmap_put_unfold (fs : FS) (i : index.t) (lo hi : Z) (data c : bytes) :
  fs !! index.file i = Some c → lo ≤ hi → hi ≤ index.mmap i → hi ≤ len c →
  index.mmap_put lo hi data (fs, i) =
    (Ok tt, (<[index.file i := take (Z.to_nat lo) c ++ data ++ drop (Z.to_nat hi) c]> fs, i)).
Proof.
  intros Hc H1 H2 H3. unfold index.mmap_put. simpl. rewrite Hc. by zbool.
Qed.

Lemma splice_twice (c d1 d2 : bytes) (a : nat) :
  (a + length d1 + length d2 ≤ length c)%nat →
  let c1 := take a c ++ d1 ++ drop (a + length d1) c in
  take (a + length d1) c1 ++ d2 ++ drop (a + length d1 + length d2) c1
  = take a c ++ (d1 ++ d2) ++ drop (a + length d1 + length d2) c.
Proof.
  intros H. cbv zeta.
  assert (length (take a c ++ d1) = a + length d1)%nat as Ha
    by (rewrite length_app, length_take; lia).
  rewrite !(app_assoc (take a c) d1).
  rewrite (take_app_length' (take a c ++ d1)) by done.
  rewrite (drop_app_add' (take a c ++ d1) _ (a + length d1)) by done.
  rewrite drop_drop. by rewrite <- !app_assoc.
Qed.

Lemma index_Write_wf (fs : FS) (i : index.t) (ic : bytes) (off pos : Z) :
  fs !! index.file i = Some ic →
  0 ≤ index.size i → index.size i + 12 ≤ index.mmap i →
  index.mmap i ≤ len ic → index.mmap i < 2 ^ 64 →
  index.Write off pos (fs, i) =
    (Ok tt,
     (<[index.file i := take (Z.to_nat (index.size i)) ic ++ ientry off pos
                        ++ drop (Z.to_nat (index.size i + 12)) ic]> fs,
      index.set_size (index.size i + 12) i)).
Proof.
  intros Hc H0 Hm Hl H64.
  unfold index.Write, index.self, index.update, index.isMaxed.
  unfold entWidth, offWidth, posWidth. replace (4 + 8) with 12 by lia.
  unmonad. cbn.
  rewrite (uint64_id (index.size i + 12)), (uint64_id (index.size i + 4)) by lia.
  zbool.
  rewrite (mmap_put_unfold _ _ _ _ _ ic Hc) by lia. cbn.
  set (c1 := take _ ic ++ PutUint32 off ++ drop _ ic).
  assert (len c1 = len ic) as Hl1.
  { unfold c1, len in *. rewrite !length_app, length_take, length_drop.
    pose proof (len_PutUint32 off) as H4. unfold len in H4. lia. }
  rewrite (mmap_put_unfold _ _ _ _ _ c1) by (rewrite ?lookup_insert_eq, ?Hl1; simpl; done || lia).
  cbn. rewrite insert_insert_eq. do 3 f_equal.
  pose proof (len_PutUint32 off) as H4. pose proof (len_PutUint64 pos) as H8.
  unfold len in H4, H8, Hl.
  pose proof (splice_twice ic (PutUint32 off) (PutUint64 pos) (Z.to_nat (index.size i))) as S.
  cbv zeta in S. subst c1.
  replace (Z.to_nat (index.size i + 4)) with (Z.to_nat (index.size i) + length (PutUint32 off))%nat by lia.
  replace (Z.to_nat (index.size i + 12))
    with (Z.to_nat (index.size i) + length (PutUint32 off) + length (PutUint64 pos))%nat by lia.
  unfold ientry. rewrite <- S by lia. done.
Qed.

Lemma index_Write_full (fs : FS) (i : index.t) (off pos : Z) :
  index.isMaxed i = true → index.Write off pos (fs, i) = (Err EOF, (fs, i)).
Proof.
  intros H. unfold index.Write, index.self. unmonad. simpl. by rewrite H.
Qed.

(** ** segment in working order *)

Section segment_ok.
Context `{SerializerLaws}.

Lemma len_fmap {A B} (f : A → B) (l : list A) : len (f <$> l) = len l.
Proof. unfold len. by rewrite length_fmap. Qed.

Lemma len_snoc {A} (l : list A) (x : A) : len (l ++ [x]) = len l + 1.
Proof. rewrite len_app. reflexivity. Qed.

Lemma seg_not_maxed c fs s rs :
  config_ok c → seg_ok c fs s rs → segment.IsMaxed s = false →
  len (store_bytes (Marshal <$> rs)) < MaxStoreBytes (Segment c) ∧
  12 * len rs + 12 ≤ MaxIndexBytes (Segment c) ∧ len rs < 2 ^ 32.
Proof.
  intros [Hs Hi] Hok Hm. destruct Hok as [Kconfig Kbase Knext Knext_lt Koffsets Ksfile Ksclosed Kswerr Kscontent Kssize Ksbound Kifile Kiclosed Kisize Kmmap Kifits Kicontent].
  unfold segment.IsMaxed, index.isMaxed, entWidth, offWidth, posWidth in Hm.
  replace (4 + 8) with 12 in Hm by lia.
  pose proof (len_nonneg rs).
  rewrite Kconfig, Kssize, Kisize, Kmmap in Hm.
  rewrite uint64_id in Hm by lia.
  apply orb_false_elim in Hm as [Hm M3]. apply orb_false_elim in Hm as [M1 M2].
  apply Z.leb_gt in M1, M2. apply Z.ltb_ge in M3. lia.
Qed.

(** [segment.Append] on a segment that is not full. *)
Lemma seg_Append_ok c fs s rs r :
  config_ok c → seg_ok c fs s rs → segment.IsMaxed s = false →
  payload_ok c (Marshal (stamp (segment.nextOffset s) r)) →
  segment.nextOffset s + 1 < 2 ^ 64 →
  ∃ fs' s',
    segment.Append r (fs, s) = (Ok (segment.nextOffset s), (fs', s')) ∧
    seg_ok c fs' s' (rs ++ [stamp (segment.nextOffset s) r]) ∧
    segment.baseOffset s' = segment.baseOffset s ∧
    (∀ n, fst n ≠ segment.baseOffset s → fs' !! n = fs !! n) ∧
    (∀ n, is_Some (fs' !! n) ↔ is_Some (fs !! n)).
Proof.
  intros Hc Hok Hm Hp Hn.
  destruct (seg_not_maxed _ _ _ _ Hc Hok Hm) as (Hsz & Hidx & H32).
  destruct Hc as [Hcs Hci]. pose proof Hok as [Kconfig Kbase Knext Knext_lt Koffsets Ksfile Ksclosed Kswerr Kscontent Kssize Ksbound Kifile Kiclosed Kisize Kmmap Kifits Kicontent].
  destruct Kscontent as (sc & Hsc & Hsct). destruct Kicontent as (tail & Hic & Hicl).
  set (r' := stamp (segment.nextOffset s) r) in *.
  set (p := Marshal r') in *. set (ps := Marshal <$> rs) in *.
  pose proof (len_nonneg rs) as Hrs. pose proof (len_nonneg p) as Hpl.
  pose proof (len_nonneg (store_bytes ps)) as Hsb.
  unfold payload_ok in Hp.
  destruct (store_Append_wf fs (segment.store s) p sc Ksclosed Kswerr)
    as (c' & b' & EA & Hcb); [by rewrite Ksfile|].
  rewrite Ksfile in EA.
  set (fs1 := <[(segment.baseOffset s, ExtStore) := c']> fs) in *.
  set (st1 := store.mk _ _ _ _ _) in EA.
  assert (fs1 !! index.file (segment.index s) = Some (index_bytes ps ++ tail)) as Hic1.
  { unfold fs1. rewrite Kifile, lookup_insert_ne by done. done. }
  assert (uint32 (uint64 (segment.nextOffset s - segment.baseOffset s)) = len rs) as Hrel.
  { rewrite Knext.
    replace (segment.baseOffset s + len rs - segment.baseOffset s) with (len rs) by lia.
    rewrite uint64_id, uint32_id by lia. done. }
  pose proof (index_Write_wf fs1 (segment.index s) _ (len rs)
                (store.size (segment.store s)) Hic1) as EW.
  rewrite Kisize, Kmmap, Hicl in EW.
  specialize (EW ltac:(lia) ltac:(lia) ltac:(lia) ltac:(lia)).
  eexists _, _. split_and!.
  - unfold segment.Append, segment.self, segment.update, segment.onStore, segment.onIndex.
    unmonad. cbn.
    change (Marshal {| Value := Value r; Offset := segment.nextOffset s |}) with p.
    rewrite EA. cbn. rewrite Hrel. unfold fs1 in EW |- *. rewrite EW. cbn. done.
  - assert (fs1 !! (segment.baseOffset s, ExtIndex) = Some (index_bytes ps ++ tail)) as Hic2.
    { by rewrite Kifile in Hic1. }
    split; cbn.
    + done.
    + done.
    + rewrite Knext, len_snoc, uint64_id by lia. lia.
    + rewrite len_snoc. lia.
    + intros k r0 Hk. apply lookup_app_Some in Hk as [Hk|[Hge Hk]].
      * by apply Koffsets.
      * apply list_lookup_singleton_Some in Hk as [Hk <-]. unfold r', stamp. cbn.
        rewrite Knext. unfold len. lia.
    + done.
    + done.
    + done.
    + exists c'. split.
      * rewrite Kifile, lookup_insert_ne by done. unfold fs1. by rewrite lookup_insert_eq.
      * unfold st1. cbn. rewrite Hcb, fmap_snoc, store_bytes_snoc. cbn.
        fold r' p ps. rewrite app_assoc, Hsct. unfold frame.
        by rewrite (uint64_id (len p)) by lia.
    + rewrite fmap_snoc, store_bytes_snoc, len_app, len_frame. cbn. fold r' p ps.
      unfold lenWidth. rewrite Kssize. fold ps.
      rewrite (uint64_id (len p + 8)) by lia. rewrite uint64_id by lia. lia.
    + rewrite fmap_snoc, store_bytes_snoc, len_app, len_frame. cbn. fold r' p ps. lia.
    + done.
    + done.
    + rewrite len_snoc. lia.
    + done.
    + rewrite len_snoc. lia.
    + exists (drop 12 tail).
      assert (len (index_bytes ps) = 12 * len rs) as Hli.
      { unfold ps. by rewrite len_index_bytes, len_fmap. }
      assert (index_bytes (ps ++ [p]) ++ drop 12 tail =
              take (Z.to_nat (12 * len rs)) (index_bytes ps ++ tail) ++
              ientry (len rs) (store.size (segment.store s)) ++
              drop (Z.to_nat (12 * len rs + 12)) (index_bytes ps ++ tail)) as Hnew.
      { rewrite index_bytes_snoc, <- app_assoc.
        rewrite take_app_length' by (unfold len in *; lia).
        replace (Z.to_nat (12 * len rs + 12)) with (length (index_bytes ps) + 12)%nat
          by (unfold len in *; lia).
        rewrite drop_app_add. unfold ps at 2 3. rewrite len_fmap. fold ps.
        by rewrite Kssize. }
      split.
      * rewrite Kifile, lookup_insert_eq. f_equal.
        rewrite fmap_snoc. cbn. fold r' p ps. by rewrite Hnew.
      * rewrite fmap_snoc. cbn. fold r' p ps.
        rewrite len_app, len_index_bytes, len_snoc.
        rewrite len_app, Hli in Hicl. unfold ps. rewrite len_fmap.
        unfold len in *. rewrite length_drop. lia.
  - done.
  - intros n Hn'. rewrite Kifile. rewrite lookup_insert_ne by (intros <-; done).
    unfold fs1. rewrite lookup_insert_ne by (intros <-; done). done.
  - intros n. rewrite Kifile, lookup_insert. case_decide as E1.
    + subst n. unfold fs1 in Hic1. rewrite Kifile, lookup_insert_ne in Hic1 by done.
      rewrite Hic1. split; eauto.
    + unfold fs1. rewrite lookup_insert. case_decide as E2; [|done].
      subst n. rewrite Hsc. split; eauto.
Qed.

Lemma seg_count c fs s rs :
  config_ok c → seg_ok c fs s rs → len rs ≤ 2 ^ 32.
Proof. intros [_ Hi] Hok. destruct Hok. lia. Qed.

Lemma segment_eta (s : segment.t) :
  segment.mk (segment.store s) (segment.index s) (segment.baseOffset s)
    (segment.nextOffset s) (segment.config s) = s.
Proof. by destruct s. Qed.

(** [segment.Read] of a record the segment holds. *)
Lemma seg_Read_ok c fs s rs k r :
  config_ok c → seg_ok c fs s rs → rs !! k = Some r →
  ∃ fs' s',
    segment.Read (segment.baseOffset s + Z.of_nat k) (fs, s) = (Ok r, (fs', s')) ∧
    seg_ok c fs' s' rs ∧
    segment.baseOffset s' = segment.baseOffset s ∧
    segment.nextOffset s' = segment.nextOffset s ∧
    (∀ n, fst n ≠ segment.baseOffset s → fs' !! n = fs !! n) ∧
    (∀ n, is_Some (fs' !! n) ↔ is_Some (fs !! n)).
Proof.
  intros Hc Hok Hk. pose proof (seg_count _ _ _ _ Hc Hok) as H32.
  destruct Hc as [Hcs Hci].
  pose proof Hok as [Kconfig Kbase Knext Knext_lt Koffsets Ksfile Ksclosed Kswerr
    Kscontent Kssize Ksbound Kifile Kiclosed Kisize Kmmap Kifits Kicontent].
  destruct Kscontent as (sc & Hsc & Hsct). destruct Kicontent as (tail & Hic & Hicl).
  set (ps := Marshal <$> rs) in *.
  pose proof (lookup_lt_Some _ _ _ Hk) as Hlt.
  assert (Z.of_nat k < len rs) as Hlt' by (unfold len; lia).
  assert (ps !! k = Some (Marshal r)) as Hpk by (unfold ps; by rewrite list_lookup_fmap, Hk).
  assert (length ps = length rs) as Hlps by (unfold ps; by rewrite length_fmap).
  (* the index entry *)
  assert (index.Read (int64 (uint64 (segment.baseOffset s + Z.of_nat k - segment.baseOffset s)))
            (fs, segment.index s)
          = (Ok (Z.of_nat k, pos_of ps k), (fs, segment.index s))) as EI.
  { replace (segment.baseOffset s + Z.of_nat k - segment.baseOffset s) with (Z.of_nat k) by lia.
    rewrite uint64_id, int64_id by lia.
    rewrite (index_Read_unfold fs _ _ (index_bytes ps ++ tail)) by (by rewrite Kifile).
    cbv zeta. rewrite entry_number_nonneg, Z.mod_small by lia.
    rewrite Kisize, Kmmap, Hicl. zbool. cbn.
    rewrite entry_index_bytes; [done | lia | lia |].
    pose proof (pos_of_le ps k). lia. }
  (* the frame *)
  destruct (store_bytes_lookup ps k _ Hpk) as (post & Hfr).
  pose proof (len_nonneg post) as Hpost.
  assert (pos_of ps k + 8 + len (Marshal r) < 2 ^ 63) as Hend.
  { assert (len (store_bytes ps) = pos_of ps k + (8 + len (Marshal r)) + len post) as E.
    { rewrite Hfr at 1. rewrite !len_app, len_frame. unfold pos_of. lia. }
    lia. }
  pose proof (store_Read_wf fs (segment.store s) sc (pos_of ps k) (Marshal r)
                (store_bytes (take k ps)) post Ksclosed Kswerr) as ES.
  rewrite Ksfile in ES. specialize (ES Hsc). rewrite Hsct in ES.
  specialize (ES Hfr eq_refl Hend).
  assert (Unmarshal (Marshal r) = Some r) as EU.
  { apply Unmarshal_Marshal. rewrite (Koffsets _ _ Hk). lia. }
  eexists _, _. split_and!.
  - unfold segment.Read, segment.self, segment.onStore, segment.onIndex.
    unmonad. cbn. rewrite EI. cbn. rewrite ES. cbn. rewrite EU. done.
  - split; cbn; try done.
    + exists (store_bytes ps). rewrite lookup_insert_eq. by rewrite app_nil_r.
    + exists tail. by rewrite lookup_insert_ne.
  - done.
  - done.
  - intros n Hn. rewrite lookup_insert_ne by (intros <-; done). done.
  - intros n. rewrite lookup_insert. case_decide as E; [|done].
    subst n. rewrite Hsc. split; eauto.
Qed.

Lemma lookup_OpenFile_eq (n : fname) (fs : FS) :
  os_OpenFile n fs !! n = Some (default [] (fs !! n)).
Proof.
  unfold os_OpenFile. destruct (fs !! n) eqn:E; cbn.
  - by rewrite E.
  - by rewrite lookup_insert_eq.
Qed.

Lemma lookup_OpenFile_ne (n m : fname) (fs : FS) :
  n ≠ m → os_OpenFile n fs !! m = fs !! m.
Proof.
  intros Hne. unfold os_OpenFile. destruct (fs !! n); [done|].
  by rewrite lookup_insert_ne.
Qed.

Lemma newStore_ok (f : fname) (fs : FS) (c : bytes) :
  fs !! f = Some c → len c < 2 ^ 64 →
  store.newStore f fs = (Ok (store.mk f false [] None (len c)), fs).
Proof.
  intros Hc Hl. pose proof (len_nonneg c).
  unfold store.newStore, os_Stat. unmonad. rewrite Hc. cbn.
  by rewrite uint64_id by lia.
Qed.

Lemma resize_extend (sz : Z) (c : bytes) :
  len c ≤ sz → resize sz c = c ++ replicate (Z.to_nat (sz - len c)) x00.
Proof.
  intros Hle. unfold resize, len in *. rewrite take_ge by lia. f_equal. f_equal. lia.
Qed.

Lemma len_replicate {A} (n : nat) (x : A) : len (replicate n x) = Z.of_nat n.
Proof. unfold len. by rewrite length_replicate. Qed.

Lemma newIndex_ok (f : fname) (cfg : Config) (fs : FS) (c : bytes) :
  fs !! f = Some c →
  len c ≤ MaxIndexBytes (Segment cfg) → 0 < MaxIndexBytes (Segment cfg) < 2 ^ 63 →
  index.newIndex f cfg fs =
    (Ok (index.mk f false (MaxIndexBytes (Segment cfg)) (len c)),
     <[f := c ++ replicate (Z.to_nat (MaxIndexBytes (Segment cfg) - len c)) x00]> fs).
Proof.
  intros Hc Hl HM. pose proof (len_nonneg c).
  unfold index.newIndex, os_Stat, os_Truncate. unmonad. rewrite Hc. cbn.
  rewrite int64_id by lia. zbool. rewrite Hc. cbn. rewrite lookup_insert_eq. cbn.
  rewrite resize_extend by done.
  rewrite len_app, len_replicate.
  replace (len c + Z.of_nat (Z.to_nat (MaxIndexBytes (Segment cfg) - len c)))
    with (MaxIndexBytes (Segment cfg)) by lia.
  zbool. cbn. by rewrite uint64_id by lia.
Qed.

(** Opening a segment whose files hold the records [rs]: [newSegment]
    recovers [nextOffset] from the last index entry. *)
Lemma seg_open c fs b rs :
  config_ok c → 0 ≤ b → b + len rs < 2 ^ 64 →
  (∀ k r, rs !! k = Some r → Offset r = b + Z.of_nat k) →
  12 * len rs ≤ MaxIndexBytes (Segment c) →
  len (store_bytes (Marshal <$> rs)) < 2 ^ 63 →
  let fs1 := os_OpenFile (b, ExtIndex) (os_OpenFile (b, ExtStore) fs) in
  fs1 !! (b, ExtStore) = Some (store_bytes (Marshal <$> rs)) →
  fs1 !! (b, ExtIndex) = Some (index_bytes (Marshal <$> rs)) →
  ∃ s fs',
    segment.newSegment b c fs = (Ok s, fs') ∧
    fs' = <[(b, ExtIndex) :=
              index_bytes (Marshal <$> rs)
              ++ replicate (Z.to_nat (MaxIndexBytes (Segment c) - 12 * len rs)) x00]> fs1 ∧
    seg_ok c fs' s rs ∧ segment.baseOffset s = b.
Proof.
  intros [Hcs Hci] Hb Hn Hoff Hfit Hsb fs1 Hs1 Hi1.
  set (ps := Marshal <$> rs) in *.
  pose proof (len_nonneg rs) as Hrs.
  assert (len (index_bytes ps) = 12 * len rs) as Hli.
  { unfold ps. by rewrite len_index_bytes, len_fmap. }
  assert (os_OpenFile (b, ExtStore) fs !! (b, ExtStore) = Some (store_bytes ps)) as Hs0.
  { unfold fs1 in Hs1. by rewrite lookup_OpenFile_ne in Hs1. }
  set (tail := replicate (Z.to_nat (MaxIndexBytes (Segment c) - 12 * len rs)) x00).
  set (fs2 := <[(b, ExtIndex) := index_bytes ps ++ tail]> fs1).
  set (st := store.mk (b, ExtStore) false [] None (len (store_bytes ps))).
  set (ix := index.mk (b, ExtIndex) false (MaxIndexBytes (Segment c)) (12 * len rs)).
  assert (len (index_bytes ps ++ tail) = MaxIndexBytes (Segment c)) as Hlt.
  { rewrite len_app, Hli. unfold tail. rewrite len_replicate. lia. }
  assert (∃ nx, index.Read (-1) (fs2, ix) =
            (if len rs =? 0 then Err EOF else Ok (len rs - 1, nx), (fs2, ix))) as [nx ER].
  { rewrite (index_Read_unfold fs2 ix (-1) (index_bytes ps ++ tail))
      by (unfold fs2; cbn; by rewrite lookup_insert_eq).
    cbv zeta. cbn. destruct (Z.eqb_spec (len rs) 0) as [E0|E0].
    - rewrite E0. cbn. eauto.
    - replace (12 * len rs =? 0) with false by (symmetry; apply Z.eqb_neq; lia).
      assert (entry_number ix (-1) = len rs - 1) as ->.
      { rewrite entry_number_last; cbn.
        - rewrite Z.mul_comm, Z.div_mul by lia. done.
        - lia.
        - rewrite Z.mul_comm, Z.div_mul by lia. lia. }
      rewrite Hlt. zbool. cbn.
      replace (len rs - 1) with (Z.of_nat (length rs - 1)) by (unfold len in *; lia).
      rewrite entry_index_bytes.
      + eauto.
      + unfold ps. rewrite length_fmap. unfold len in *. lia.
      + unfold len in *. lia.
      + pose proof (pos_of_le ps (length rs - 1)). lia. }
  exists (segment.mk st ix b (b + len rs) c), fs2. split_and!.
  - unfold segment.newSegment, segment.update, segment.self, segment.onIndex.
    unmonad. cbn.
    rewrite (newStore_ok _ _ _ Hs0) by lia. cbn. fold fs1.
    rewrite (newIndex_ok _ _ _ _ Hi1) by lia. cbn.
    rewrite Hli. fold tail fs2 ix. rewrite ER.
    destruct (Z.eqb_spec (len rs) 0) as [E0|E0]; cbn.
    + unfold segment.set_nextOffset, segment.set_index. cbn. by rewrite E0, Z.add_0_r.
    + unfold segment.set_nextOffset, segment.set_index. cbn.
      rewrite (uint64_id (b + (len rs - 1))) by lia. rewrite uint64_id by lia.
      by replace (b + (len rs - 1) + 1) with (b + len rs) by lia.
  - done.
  - split; cbn; try done; try lia.
    + exists (store_bytes ps). split; [|by rewrite app_nil_r].
      unfold fs2. by rewrite lookup_insert_ne.
    + exists tail. unfold fs2. by rewrite lookup_insert_eq.
  - done.
Qed.

(** [segment.Close] leaves the records in the two files: the index cut
    back to its entries, the store flushed. *)
Lemma seg_Close_ok c fs s rs :
  config_ok c → seg_ok c fs s rs →
  ∃ s',
    segment.Close (fs, s) =
      (Ok tt,
       (<[(segment.baseOffset s, ExtStore) := store_bytes (Marshal <$> rs)]>
          (<[(segment.baseOffset s, ExtIndex) := index_bytes (Marshal <$> rs)]> fs), s')) ∧
    segment.baseOffset s' = segment.baseOffset s ∧
    segment.nextOffset s' = segment.nextOffset s.
Proof.
  intros [Hcs Hci] Hok.
  pose proof Hok as [Kconfig Kbase Knext Knext_lt Koffsets Ksfile Ksclosed Kswerr
    Kscontent Kssize Ksbound Kifile Kiclosed Kisize Kmmap Kifits Kicontent].
  destruct Kscontent as (sc & Hsc & Hsct). destruct Kicontent as (tail & Hic & Hicl).
  set (ps := Marshal <$> rs) in *. pose proof (len_nonneg rs) as Hrs.
  assert (len (index_bytes ps) = 12 * len rs) as Hli.
  { unfold ps. by rewrite len_index_bytes, len_fmap. }
  eexists. split_and!.
  - unfold segment.Close, segment.onIndex, segment.onStore, index.Close,
      index.self, index.update, index.onFS, os_Truncate.
    unmonad. cbn. rewrite Kiclosed. cbn. rewrite Kisize, int64_id by lia. zbool.
    rewrite Kifile, Hic. cbn.
    assert (resize (12 * len rs) (index_bytes ps ++ tail) = index_bytes ps) as ->.
    { unfold resize. rewrite take_app_length' by (unfold len in *; lia).
      rewrite length_app. replace (Z.to_nat (12 * len rs) - _)%nat with 0%nat
        by (unfold len in *; lia).
      apply app_nil_r. }
    unfold store.Close. rewrite bind_unfold.
    rewrite (Flush_wf _ _ sc Ksclosed Kswerr)
      by (rewrite Ksfile, lookup_insert_ne by done; done).
    unfold store.self, store.update. unmonad. cbn. rewrite Ksclosed. cbn.
    rewrite Ksfile, Hsct. reflexivity.
  - done.
  - done.
Qed.

End segment_ok.

(** ** Log in working order *)

Section log_ok.
Context `{SerializerLaws}.

Lemma seg_ok_frame c fs fs' s rs :
  seg_ok c fs s rs →
  (∀ n, fst n = segment.baseOffset s → fs' !! n = fs !! n) →
  seg_ok c fs' s rs.
Proof.
  intros [Kconfig Kbase Knext Knext_lt Koffsets Ksfile Ksclosed Kswerr
    Kscontent Kssize Ksbound Kifile Kiclosed Kisize Kmmap Kifits Kicontent] Hfr.
  split; try done.
  - destruct Kscontent as (sc & E & ?). exists sc. by rewrite Hfr.
  - destruct Kicontent as (tl & E & ?). exists tl. by rewrite Hfr.
Qed.

Lemma count_before_0 segs : count_before segs 0 = 0.
Proof. reflexivity. Qed.

Lemma count_before_S segs j rs :
  segs !! j = Some rs → count_before segs (S j) = count_before segs j + len rs.
Proof.
  intros Hj. unfold count_before.
  rewrite (take_S_r _ _ _ Hj), concat_app, len_app. cbn. by rewrite app_nil_r.
Qed.

Lemma count_before_nonneg segs j : 0 ≤ count_before segs j.
Proof. apply len_nonneg. Qed.

Lemma count_before_mono segs j j' :
  (j ≤ j')%nat → count_before segs j ≤ count_before segs j'.
Proof.
  intros Hle. unfold count_before.
  rewrite <- (take_drop j (take j' segs)), take_take, concat_app, len_app.
  replace (j `min` j')%nat with j by lia.
  pose proof (len_nonneg (concat (drop j (take j' segs)))). lia.
Qed.

Lemma count_before_all segs j :
  (length segs ≤ j)%nat → count_before segs j = len (concat segs).
Proof. intros Hle. unfold count_before. by rewrite take_ge. Qed.

Lemma nonempty_len {A} (l : list A) : l ≠ [] → 0 < len l.
Proof. destruct l; [done|]. unfold len. cbn. lia. Qed.

Lemma deref_Some p st s :
  Log.heap st !! p = Some s → Log.deref (Some p) st = (Ok s, st).
Proof. intros E. unfold Log.deref. by rewrite E. Qed.

Section with_log.
Variables (c : Config) (st : Log.state) (init : Z) (segs : list (list Record_)).
Hypothesis Hcfg : config_ok c.
Hypothesis Hok : log_ok c st init segs.

Let ptrs := Log.segments (Log.log st).

Lemma log_seg j rs :
  segs !! j = Some rs →
  ∃ p s, ptrs !! j = Some p ∧ Log.heap st !! p = Some s ∧
         seg_ok c (Log.fs st) s rs ∧
         segment.baseOffset s = init + count_before segs j ∧
         segment.nextOffset s = init + count_before segs (S j) ∧
         (S j < length segs → rs ≠ [])%nat.
Proof.
  intros Hj. destruct Hok as [_ _ _ _ Hlen _ Hsegs _].
  destruct (lookup_lt_is_Some_2 ptrs j) as [p Hp].
  { unfold ptrs. rewrite Hlen. by eapply lookup_lt_Some. }
  destruct (Hsegs j p rs Hp Hj) as (s & Hs & Hso & Hb & Hne).
  exists p, s. split_and!; try done.
  rewrite (count_before_S _ _ _ Hj). destruct Hso. lia.
Qed.

Lemma log_base_lt j j' rs :
  segs !! j = Some rs → (j < j')%nat → (j' < length segs)%nat →
  count_before segs j < count_before segs j'.
Proof.
  intros Hj Hlt Hlt'. destruct (log_seg j rs Hj) as (_ & _ & _ & _ & _ & _ & _ & Hne).
  pose proof (count_before_mono segs (S j) j' ltac:(lia)).
  rewrite (count_before_S _ _ _ Hj) in *.
  pose proof (nonempty_len rs (Hne ltac:(lia))). lia.
Qed.

Lemma log_base_inj j j' :
  (j < length segs)%nat → (j' < length segs)%nat →
  count_before segs j = count_before segs j' → j = j'.
Proof.
  intros Hj Hj' E.
  destruct (lookup_lt_is_Some_2 segs j Hj) as [rs Hrs].
  destruct (lookup_lt_is_Some_2 segs j' Hj') as [rs' Hrs'].
  destruct (Nat.lt_trichotomy j j') as [Hlt|[->|Hgt]]; [|done|].
  - pose proof (log_base_lt j j' rs Hrs Hlt Hj'). lia.
  - pose proof (log_base_lt j' j rs' Hrs' Hgt Hj). lia.
Qed.

Lemma log_total_lt : init + len (concat segs) < 2 ^ 64.
Proof.
  destruct (last segs) as [rs|] eqn:El.
  - rewrite last_lookup in El. destruct (log_seg _ _ El) as (_ & s & _ & _ & Hso & Hb & Hn & _).
    destruct Hso. rewrite count_before_all in Hn by lia. lia.
  - apply last_None in El. by destruct Hok.
Qed.

(** The scan of [Log.Read] stops at the segment that holds the offset. *)
Lemma find_segment_hit j rs p o :
  segs !! j = Some rs → ptrs !! j = Some p →
  init + count_before segs j ≤ o < init + count_before segs (S j) →
  Log.find_segment o ptrs st = (Ok (Some p), st).
Proof.
  intros Hj Hp Ho.
  assert (∀ d j0, (j0 + d = j)%nat →
            Log.find_segment o (drop j0 ptrs) st = (Ok (Some p), st)) as Hscan.
  { induction d as [|d IH]; intros j0 E.
    - replace j0 with j by lia. rewrite (drop_S _ _ _ Hp). cbn.
      destruct (log_seg j rs Hj) as (p' & s & Hp' & Hs & _ & Hb & Hn & _).
      assert (p' = p) as -> by congruence.
      unmonad. rewrite (deref_Some _ _ _ Hs), Hb, Hn. by zbool.
    - assert (j0 < length segs)%nat as Hlt.
      { apply lookup_lt_Some in Hj. lia. }
      destruct (lookup_lt_is_Some_2 segs j0 Hlt) as [rs0 Hrs0].
      destruct (log_seg j0 rs0 Hrs0) as (p0 & s0 & Hp0 & Hs0 & _ & Hb0 & Hn0 & _).
      rewrite (drop_S _ _ _ Hp0). cbn. unmonad.
      rewrite (deref_Some _ _ _ Hs0), Hb0, Hn0.
      pose proof (count_before_mono segs (S j0) j ltac:(lia)).
      replace (o <? init + count_before segs (S j0)) with false
        by (symmetry; apply Z.ltb_ge; lia).
      rewrite andb_false_r. apply IH. lia. }
  apply (Hscan j 0%nat). lia.
Qed.

Lemma find_segment_miss o :
  o < init ∨ init + len (concat segs) ≤ o →
  Log.find_segment o ptrs st = (Ok None, st).
Proof.
  intros Ho.
  assert (∀ d j0, (j0 + d = length segs)%nat →
            Log.find_segment o (drop j0 ptrs) st = (Ok None, st)) as Hscan.
  { induction d as [|d IH]; intros j0 E.
    - rewrite drop_ge; [done|]. destruct Hok. unfold ptrs. lia.
    - assert (j0 < length segs)%nat as Hlt by lia.
      destruct (lookup_lt_is_Some_2 segs j0 Hlt) as [rs0 Hrs0].
      destruct (log_seg j0 rs0 Hrs0) as (p0 & s0 & Hp0 & Hs0 & _ & Hb0 & Hn0 & _).
      rewrite (drop_S _ _ _ Hp0). cbn. unmonad.
      rewrite (deref_Some _ _ _ Hs0), Hb0, Hn0.
      pose proof (count_before_mono segs (S j0) (length segs) ltac:(lia)).
      rewrite (count_before_all segs (length segs)) in * by lia.
      pose proof (count_before_nonneg segs j0).
      destruct Ho as [Ho|Ho].
      + replace (init + count_before segs j0 <=? o) with false
          by (symmetry; apply Z.leb_gt; lia).
        cbn. apply IH. lia.
      + replace (o <? init + count_before segs (S j0)) with false
          by (symmetry; apply Z.ltb_ge; lia).
        rewrite andb_false_r. apply IH. lia. }
  apply (Hscan (length segs) 0%nat). lia.
Qed.

End with_log.

(** Record number [i] of the log lives in one segment. *)
Lemma concat_locate (segs : list (list Record_)) (i : nat) (r : Record_) :
  concat segs !! i = Some r →
  ∃ j rs k, segs !! j = Some rs ∧ rs !! k = Some r ∧
            Z.of_nat i = count_before segs j + Z.of_nat k.
Proof.
  revert i. induction segs as [|rs0 segs IH]; intros i; [done|].
  cbn. intros Hi. apply lookup_app_Some in Hi as [Hi|[Hge Hi]].
  - exists 0%nat, rs0, i. split_and!; [done|done|]. rewrite count_before_0. lia.
  - destruct (IH _ Hi) as (j & rs & k & Hj & Hk & E).
    exists (S j), rs, k. split_and!; [done|done|].
    unfold count_before in *. cbn. rewrite len_app. unfold len in *. lia.
Qed.

Lemma at_unfold {A} (p : Log.loc) (m : M segment.st A) (st : Log.state)
    (sg : segment.t) (r : outcome A) (fs' : FS) (sg' : segment.t) :
  Log.heap st !! p = Some sg → m (Log.fs st, sg) = (r, (fs', sg')) →
  Log.at_ p m st = (r, Log.mkState fs' (<[p := sg']> (Log.heap st)) (Log.log st)).
Proof. intros Hp Hm. unfold Log.at_. by rewrite Hp, Hm. Qed.

(** Replacing segment [j] by one that holds the same records, or the
    last segment by one that holds more, keeps the log in order. *)
Lemma log_ok_update c st init segs j p s rs fs' s' rs' :
  config_ok c → log_ok c st init segs →
  Log.segments (Log.log st) !! j = Some p → segs !! j = Some rs →
  Log.heap st !! p = Some s →
  seg_ok c fs' s' rs' → segment.baseOffset s' = segment.baseOffset s →
  (∀ n, fst n ≠ segment.baseOffset s → fs' !! n = Log.fs st !! n) →
  (∀ n, is_Some (fs' !! n) ↔ is_Some (Log.fs st !! n)) →
  rs' = rs ∨ (S j = length segs ∧ rs' ≠ []) →
  log_ok c (Log.mkState fs' (<[p := s']> (Log.heap st)) (Log.log st)) init (<[j := rs']> segs).
Proof.
  intros Hcfg Hok Hp Hj Hs Hso' Hb' Hfr Hdom Hrs'.
  pose proof (lookup_lt_Some _ _ _ Hj) as Hjlt.
  assert (∀ j', (j' ≤ j ∨ rs' = rs)%nat →
            count_before (<[j := rs']> segs) j' = count_before segs j') as Hcb.
  { intros j' [Hle| ->].
    - unfold count_before. by rewrite take_insert_ge by lia.
    - by rewrite list_insert_id. }
  assert (∀ j', (j' < length segs)%nat →
            count_before (<[j := rs']> segs) j' = count_before segs j') as Hcb'.
  { intros j' Hlt. apply Hcb. destruct Hrs' as [->|[E _]]; [by right|left; lia]. }
  destruct (log_seg c st init segs Hok j rs Hj) as (p0 & s0 & Hp0 & Hs0 & _ & Hb0 & _).
  assert (p0 = p) as -> by (cbn in *; congruence).
  assert (s0 = s) as -> by congruence.
  pose proof Hok as [Lc Li Lne La Ll Lnd Lsegs Lfiles].
  split; cbn.
  - done.
  - done.
  - intros E. apply (f_equal length) in E. rewrite length_insert in E.
    destruct segs; [done|]. done.
  - done.
  - by rewrite length_insert.
  - done.
  - intros j' p' rs1 Hp' Hrs1.
    assert (j' < length segs)%nat as Hj'lt.
    { apply lookup_lt_Some in Hrs1. by rewrite length_insert in Hrs1. }
    rewrite (Hcb' j' Hj'lt), length_insert.
    destruct (decide (j' = j)) as [->|Hne].
    + assert (p' = p) as -> by congruence.
      rewrite list_lookup_insert_eq in Hrs1 by done. injection Hrs1 as <-.
      exists s'. split_and!.
      * rewrite list_lookup_insert_eq; [done|]. by eapply lookup_lt_Some.
      * done.
      * congruence.
      * intros Hlt. destruct Hrs' as [->|[E _]]; [|lia].
        destruct (Lsegs j p rs Hp Hj) as (_ & _ & _ & _ & Hne). by apply Hne.
    + rewrite list_lookup_insert_ne in Hrs1 by done.
      destruct (Lsegs j' p' rs1 Hp' Hrs1) as (s1 & Hs1 & Hso1 & Hb1 & Hne1).
      assert (p' ≠ p) as Hpne.
      { intros ->. apply Hne. eapply NoDup_lookup; eauto. }
      exists s1. split_and!; try done.
      * by rewrite list_lookup_insert_ne.
      * apply (seg_ok_frame _ _ _ _ _ Hso1). intros n Hn. apply Hfr.
        rewrite Hn, Hb1, Hb0. intros E. apply Hne.
        apply (log_base_inj c st init segs Hok); [done|done|lia].
  - intros n Hn. apply Hdom in Hn. destruct (Lfiles n Hn) as (j' & Hlt & E).
    exists j'. rewrite length_insert. split; [done|]. by rewrite Hcb'.
Qed.

(** [Log.Read] of an offset the log holds. *)
Lemma log_Read_hit c st init segs i r :
  config_ok c → log_ok c st init segs →
  concat segs !! i = Some r →
  ∃ st', Log.Read (init + Z.of_nat i) st = (Ok r, st') ∧ log_ok c st' init segs.
Proof.
  intros Hcfg Hok Hi.
  destruct (concat_locate _ _ _ Hi) as (j & rs & k & Hj & Hk & E).
  destruct (log_seg c st init segs Hok j rs Hj) as (p & s & Hp & Hs & Hso & Hb & Hn & _).
  destruct (seg_Read_ok c (Log.fs st) s rs k r Hcfg Hso Hk)
    as (fs' & s' & ER & Hso' & Hb' & Hn' & Hfr & Hdom).
  eexists. split.
  - unfold Log.Read, Log.self. unmonad. cbn.
    rewrite (find_segment_hit c st init segs Hok j rs p); [| done | done |].
    + replace (init + Z.of_nat i) with (segment.baseOffset s + Z.of_nat k) by lia.
      by rewrite (at_unfold _ _ _ _ _ _ _ Hs ER).
    + rewrite (count_before_S _ _ _ Hj). apply lookup_lt_Some in Hk.
      unfold len. lia.
  - pose proof (log_ok_update c st init segs j p s rs fs' s' rs Hcfg Hok Hp Hj Hs Hso'
                  Hb' Hfr Hdom (or_introl eq_refl)) as K.
    by rewrite (list_insert_id segs j rs Hj) in K.
Qed.

(** [Log.Read] of an offset outside the log. *)
Lemma log_Read_miss c st init segs o :
  log_ok c st init segs →
  o < init ∨ init + len (concat segs) ≤ o →
  Log.Read o st = (Err (ErrOffsetOutOfRange o), st).
Proof.
  intros Hok Ho. unfold Log.Read, Log.self. unmonad. cbn.
  by rewrite (find_segment_miss c st init segs Hok o Ho).
Qed.

Lemma store_bytes_nil : store_bytes [] = [].
Proof. reflexivity. Qed.

Lemma index_bytes_nil : index_bytes [] = [].
Proof. reflexivity. Qed.

(** Opening a segment no file exists for. *)
Lemma seg_open_fresh (c : Config) (fs : FS) (b : Z) :
  config_ok c → 0 ≤ b < 2 ^ 64 →
  fs !! (b, ExtStore) = None → fs !! (b, ExtIndex) = None →
  ∃ s fs',
    segment.newSegment b c fs = (Ok s, fs') ∧ seg_ok c fs' s [] ∧
    segment.baseOffset s = b ∧
    (∀ n, fst n ≠ b → fs' !! n = fs !! n) ∧
    (∀ n, is_Some (fs' !! n) ↔ is_Some (fs !! n) ∨ fst n = b).
Proof.
  intros Hcfg Hb Hs Hi.
  pose proof (seg_open c fs b [] Hcfg (proj1 Hb)) as K.
  rewrite len_nil in K. cbv zeta in K.
  specialize (K ltac:(lia) ltac:(done) ltac:(destruct Hcfg; lia) ltac:(done)).
  destruct K as (s & fs' & E & Hfs' & Hso & Hbs).
  { rewrite lookup_OpenFile_ne by done. by rewrite lookup_OpenFile_eq, Hs. }
  { rewrite lookup_OpenFile_eq, lookup_OpenFile_ne by done. by rewrite Hi. }
  exists s, fs'. split_and!; try done.
  - intros [b' e] Hn. cbn in Hn. rewrite Hfs'.
    rewrite lookup_insert_ne by congruence.
    rewrite !lookup_OpenFile_ne by congruence. done.
  - intros [b' e]. cbn. rewrite Hfs'. destruct (decide (b' = b)) as [->|Hne].
    + split; [by right|]. intros _. destruct e.
      * rewrite lookup_insert_ne by done. rewrite lookup_OpenFile_ne by done.
        rewrite lookup_OpenFile_eq. eauto.
      * rewrite lookup_insert_eq. eauto.
    + rewrite lookup_insert_ne by congruence.
      rewrite !lookup_OpenFile_ne by congruence. split; [by left|].
      intros [?|?]; done.
Qed.

Lemma last_snoc' {A} (l : list A) (x : A) : last (l ++ [x]) = Some x.
Proof. apply last_snoc. Qed.

(** [Log.newSegment] at the end of a log whose last segment is not empty. *)
Lemma log_newSegment_ok c st init segs rs :
  config_ok c → log_ok c st init segs →
  last segs = Some rs → rs ≠ [] →
  ∃ st',
    Log.newSegment (init + len (concat segs)) st = (Ok tt, st') ∧
    log_ok c st' init (segs ++ [[]]).
Proof.
  intros Hcfg Hok Hl Hne.
  pose proof (log_total_lt c st init segs Hok) as Htot.
  pose proof Hok as [Lc Li Lne La Ll Lnd Lsegs Lfiles].
  pose proof (len_nonneg (concat segs)) as Hcn.
  set (b := init + len (concat segs)).
  assert (∀ j, (j < length segs)%nat → count_before segs j < len (concat segs)) as Hbelow.
  { intros j Hj. rewrite last_lookup in Hl.
    pose proof (count_before_S _ _ _ Hl) as ES.
    rewrite (count_before_all segs (S _)) in ES by lia.
    pose proof (count_before_mono segs j (pred (length segs)) ltac:(lia)).
    pose proof (nonempty_len rs Hne). lia. }
  assert (∀ e, Log.fs st !! (b, e) = None) as Habs.
  { intros e. destruct (Log.fs st !! (b, e)) eqn:E; [|done].
    destruct (Lfiles (b, e)) as (j & Hj & Ej); [by rewrite E|].
    cbn in Ej. pose proof (Hbelow j Hj). unfold b in Ej. lia. }
  destruct (seg_open_fresh c (Log.fs st) b Hcfg ltac:(lia) (Habs _) (Habs _))
    as (s & fs' & E & Hso & Hbs & Hfr & Hdom).
  assert (∀ j, (j ≤ length segs)%nat →
           count_before (segs ++ [[]]) j = count_before segs j) as Hcb.
  { intros j Hj. unfold count_before. by rewrite take_app_le. }
  eexists. split.
  - unfold Log.newSegment, Log.self, Log.onFS. unmonad. cbn. rewrite Lc.
    fold b. rewrite E. cbn. reflexivity.
  - split; cbn.
    + done.
    + done.
    + by destruct segs.
    + by rewrite last_snoc.
    + rewrite !length_app. cbn. lia.
    + apply NoDup_app. split_and!; [done | | apply NoDup_singleton].
      intros p Hp Hp'. apply list_elem_of_singleton in Hp'. subst p.
      apply list_elem_of_lookup in Hp as [j Hj].
      destruct (lookup_lt_is_Some_2 segs j) as [rs' Hrs'].
      { rewrite <- Ll. by eapply lookup_lt_Some. }
      destruct (Lsegs j _ rs' Hj Hrs') as (s' & Hs' & _).
      apply lookup_lt_Some in Hs'. lia.
    + intros j p rs' Hp Hrs'. rewrite length_app. cbn.
      apply lookup_app_Some in Hrs' as [Hrs'|[Hge Hrs']].
      * pose proof (lookup_lt_Some _ _ _ Hrs') as Hjlt.
        rewrite lookup_app_l in Hp by lia.
        destruct (Lsegs j p rs' Hp Hrs') as (s' & Hs' & Hso' & Hb' & Hne').
        exists s'. split_and!.
        -- by rewrite lookup_app_l by (by eapply lookup_lt_Some).
        -- apply (seg_ok_frame _ _ _ _ _ Hso'). intros n Hn. apply Hfr.
           rewrite Hn, Hb'. pose proof (Hbelow j Hjlt). unfold b. lia.
        -- rewrite Hcb by lia. done.
        -- intros _. destruct (decide (S j < length segs)%nat) as [Hlt|Hnlt]; [by apply Hne'|].
           rewrite last_lookup in Hl.
           replace (pred (length segs)) with j in Hl by lia. congruence.
      * apply list_lookup_singleton_Some in Hrs' as [Hj <-].
        assert (j = length segs) as -> by lia.
        rewrite lookup_app_r in Hp by lia.
        rewrite Ll, Nat.sub_diag in Hp. injection Hp as <-.
        exists s. split_and!.
        -- by rewrite lookup_app_r, Nat.sub_diag by lia.
        -- done.
        -- rewrite Hcb, count_before_all by lia. done.
        -- lia.
    + intros n Hn. apply Hdom in Hn as [Hn|Hn].
      * destruct (Lfiles n Hn) as (j & Hj & Ej). exists j.
        rewrite length_app, Hcb by lia. cbn. split; [lia|done].
      * exists (length segs). rewrite length_app, Hcb, count_before_all by lia.
        cbn. split; [lia|done].
Qed.

Lemma log_last c st init segs :
  log_ok c st init segs →
  ∃ rs p s,
    last segs = Some rs ∧ last (Log.segments (Log.log st)) = Some p ∧
    Log.segments (Log.log st) !! pred (length segs) = Some p ∧
    segs !! pred (length segs) = Some rs ∧
    Log.heap st !! p = Some s ∧ seg_ok c (Log.fs st) s rs ∧
    segment.baseOffset s = init + count_before segs (pred (length segs)) ∧
    segment.nextOffset s = init + len (concat segs).
Proof.
  intros Hok. pose proof Hok as [Lc Li Lne La Ll Lnd Lsegs Lfiles].
  destruct (last segs) as [rs|] eqn:El; [|by apply last_None in El].
  pose proof El as El'. rewrite last_lookup in El'.
  destruct (log_seg c st init segs Hok _ rs El') as (p & s & Hp & Hs & Hso & Hb & Hn & _).
  exists rs, p, s. split_and!; try done.
  - rewrite last_lookup, Ll. done.
  - rewrite Hn. f_equal. apply count_before_all.
    destruct segs; [done|cbn; lia].
Qed.

Lemma log_highestOffset c st init segs :
  log_ok c st init segs →
  Log.highestOffset st =
    (Ok (if init + len (concat segs) =? 0 then 0 else init + len (concat segs) - 1), st).
Proof.
  intros Hok. destruct (log_last c st init segs Hok)
    as (rs & p & s & _ & Hl & _ & _ & Hs & _ & _ & Hn).
  unfold Log.highestOffset, Log.self. unmonad. cbn. rewrite Hl.
  rewrite (deref_Some _ _ _ Hs), Hn. by destruct (_ =? 0).
Qed.

Lemma seg_empty_not_maxed c fs s :
  config_ok c → seg_ok c fs s [] → segment.IsMaxed s = false.
Proof.
  intros [Hcs Hci] [Kconfig Kbase Knext Knext_lt Koffsets Ksfile Ksclosed Kswerr
    Kscontent Kssize Ksbound Kifile Kiclosed Kisize Kmmap Kifits Kicontent].
  unfold segment.IsMaxed, index.isMaxed, entWidth, offWidth, posWidth.
  rewrite Kconfig, Kssize, Kisize, Kmmap. cbn.
  rewrite ?store_bytes_nil, ?(@len_nil Record_), ?(@len_nil byte).
  replace (12 * 0 + (4 + 8)) with 12 by lia. rewrite uint64_id by lia.
  by zbool.
Qed.

Lemma concat_insert_last {A} (ls : list (list A)) (l : list A) (x : A) :
  last ls = Some l →
  concat (<[pred (length ls) := l ++ [x]]> ls) = concat ls ++ [x].
Proof.
  intros Hl. destruct ls as [|l0 ls0 _] using rev_ind; [done|].
  rewrite last_snoc in Hl. injection Hl as ->.
  rewrite length_app. cbn.
  replace (pred (length ls0 + 1)) with (length ls0 + 0)%nat by lia.
  rewrite insert_app_r. cbn. rewrite !concat_app. cbn. by rewrite !app_nil_r, app_assoc.
Qed.

Lemma concat_snoc_nil {A} (ls : list (list A)) : concat (ls ++ [[]]) = concat ls.
Proof. rewrite concat_app. cbn. by rewrite app_nil_r. Qed.

Lemma concat_snoc_single {A} (ls : list (list A)) (x : A) :
  concat (ls ++ [[x]]) = concat ls ++ [x].
Proof. rewrite concat_app. cbn. done. Qed.

(** [Log.Append] on a log in order: the record goes to the end of the
    log, in the active segment or in a new one. *)
Lemma log_Append_ok c st init segs r :
  config_ok c → log_ok c st init segs →
  payload_ok c (Marshal (stamp (init + len (concat segs)) r)) →
  init + len (concat segs) + 1 < 2 ^ 64 →
  ∃ st' segs',
    Log.Append r st = (Ok (init + len (concat segs)), st') ∧
    log_ok c st' init segs' ∧
    concat segs' = concat segs ++ [stamp (init + len (concat segs)) r].
Proof.
  intros Hcfg Hok Hpay Hlt.
  set (o := init + len (concat segs)) in *.
  destruct (log_last c st init segs Hok)
    as (rs & p & s & Hl & Hlp & Hp & Hrs & Hs & Hso & Hb & Hn).
  pose proof Hok as [Lc Li Lne La Ll Lnd Lsegs Lfiles].
  pose proof (len_nonneg (concat segs)) as Hcn.
  destruct (segment.IsMaxed s) eqn:Hmax.
  - (* roll *)
    assert (rs ≠ []) as Hne.
    { intros ->. by rewrite (seg_empty_not_maxed _ _ _ Hcfg Hso) in Hmax. }
    destruct (log_newSegment_ok c st init segs rs Hcfg Hok Hl Hne) as (st1 & EN & Hok1).
    destruct (log_last c st1 init _ Hok1)
      as (rs1 & p1 & s1 & Hl1 & Hlp1 & Hp1 & Hrs1 & Hs1 & Hso1 & Hb1 & Hn1).
    rewrite last_snoc in Hl1. injection Hl1 as <-.
    rewrite concat_snoc_nil in Hn1. fold o in Hn1.
    pose proof (seg_empty_not_maxed _ _ _ Hcfg Hso1) as Hmax1.
    destruct (seg_Append_ok c (Log.fs st1) s1 [] r Hcfg Hso1 Hmax1)
      as (fs' & s' & EA & Hso' & Hb' & Hfr & Hdom); [by rewrite Hn1 | rewrite Hn1; lia |].
    rewrite Hn1 in EA, Hso'. cbn in Hso'.
    eexists _, _. split_and!.
    + unfold Log.Append. rewrite (bind_Ok _ _ _ _ _ (log_highestOffset _ _ _ _ Hok)).
      unfold Log.self. unmonad. cbn. rewrite La, Hlp, (deref_Some _ _ _ Hs), Hmax.
      fold o. pose proof (nonempty_len rs Hne).
      assert (0 < o) as Hopos.
      { destruct Hso. rewrite Hn in *. pose proof (count_before_nonneg segs (pred (length segs))).
        lia. }
      replace (o =? 0) with false by (symmetry; apply Z.eqb_neq; lia).
      replace (o - 1 + 1) with o by lia. rewrite uint64_id by lia.
      unfold o. rewrite EN. cbn.
      destruct Hok1 as [_ _ _ La1 _ _ _ _]. rewrite La1, Hlp1.
      rewrite (at_unfold _ _ _ _ _ _ _ Hs1 EA). reflexivity.
    + eapply (log_ok_update c st1 init (segs ++ [[]])); eauto.
      right. split; [|done]. rewrite length_app. cbn. lia.
    + rewrite length_app. cbn. replace (pred (length segs + 1)) with (length segs + 0)%nat by lia.
      rewrite insert_app_r. cbn. apply concat_snoc_single.
  - (* the active segment has room *)
    destruct (seg_Append_ok c (Log.fs st) s rs r Hcfg Hso Hmax)
      as (fs' & s' & EA & Hso' & Hb' & Hfr & Hdom); [by rewrite Hn | rewrite Hn; lia |].
    rewrite Hn in EA, Hso'. fold o in EA, Hso'.
    eexists _, _. split_and!.
    + unfold Log.Append. rewrite (bind_Ok _ _ _ _ _ (log_highestOffset _ _ _ _ Hok)).
      unfold Log.self. unmonad. cbn. rewrite La, Hlp, (deref_Some _ _ _ Hs), Hmax. cbn.
      rewrite La, Hlp.
      rewrite (at_unfold _ _ _ _ _ _ _ Hs EA). reflexivity.
    + eapply (log_ok_update c st init segs); eauto.
      right. split; [|by destruct rs].
      destruct segs; [done|cbn; lia].
    + by apply concat_insert_last.
Qed.

End log_ok.

(** ** A fresh log and a run of appends *)

Section fresh_log.
Context `{SerializerLaws}.

Lemma NewLog_defaults (c : Config) (st0 : Log.state) :
  Log.NewLog c st0 =
    (Log.setup (Log.set_log (Log.mk (with_defaults c) None []) st0)).
Proof.
  unfold Log.NewLog, with_defaults, mkConfig. unmonad. cbn.
  destruct c as [[ms mi io]]. cbn.
  destruct (ms =? 0) eqn:E1, (mi =? 0) eqn:E2; cbn; rewrite ?E2; reflexivity.
Qed.

Lemma NewLog_fresh (c : Config) (st0 : Log.state) :
  config_ok (with_defaults c) → Log.fs st0 = ∅ →
  0 ≤ InitialOffset (Segment c) < 2 ^ 64 →
  ∃ st, Log.NewLog c st0 = (Ok tt, st) ∧
        log_ok (with_defaults c) st (InitialOffset (Segment c)) [[]].
Proof.
  intros Hcfg Hfs Hinit. rewrite NewLog_defaults.
  set (c' := with_defaults c) in *. set (b := InitialOffset (Segment c)) in *.
  assert (InitialOffset (Segment c') = b) as Hb by reflexivity.
  destruct (seg_open_fresh c' (Log.fs st0) b Hcfg Hinit)
    as (s & fs' & E & Hso & Hbs & Hfr & Hdom); [by rewrite Hfs..|].
  eexists. split.
  - unfold Log.setup, Log.self. unmonad. cbn. rewrite Hfs, map_to_list_empty. cbn.
    unfold Log.newSegment, Log.self, Log.onFS. unmonad. cbn.
    rewrite ?Hfs. rewrite Hfs in E. unfold b in E. rewrite E. cbn. reflexivity.
  - split; cbn; try done.
    + lia.
    + apply NoDup_singleton.
    + intros j p rs Hp Hrs. apply list_lookup_singleton_Some in Hp as [-> <-].
      apply list_lookup_singleton_Some in Hrs as [_ <-].
      exists s. split_and!.
      * by rewrite lookup_app_r, Nat.sub_diag by lia.
      * done.
      * rewrite count_before_0. lia.
      * cbn. lia.
    + intros n Hn. apply Hdom in Hn as [Hn|Hn].
      * rewrite Hfs, lookup_empty in Hn. by destruct Hn.
      * exists 0%nat. cbn. rewrite count_before_0. split; [lia|]. lia.
Qed.

Lemma len_cons {A} (x : A) (l : list A) : len (x :: l) = 1 + len l.
Proof. unfold len. cbn. lia. Qed.

(** A run of appends on a log in order. *)
Lemma append_all_ok c rs : ∀ st init segs,
  config_ok c → log_ok c st init segs →
  init + len (concat segs) + len rs < 2 ^ 64 →
  (∀ i r, rs !! i = Some r →
     payload_ok c (Marshal (stamp (init + len (concat segs) + Z.of_nat i) r))) →
  ∃ st' segs',
    append_all rs st = (Ok (offsets_from (init + len (concat segs)) (length rs)), st') ∧
    log_ok c st' init segs' ∧
    concat segs' = concat segs ++ stamp_from (init + len (concat segs)) rs.
Proof.
  induction rs as [|r rs IH]; intros st init segs Hcfg Hok Hlt Hpay.
  - exists st, segs. cbn. by rewrite app_nil_r.
  - rewrite len_cons in Hlt. pose proof (len_nonneg rs).
    destruct (log_Append_ok c st init segs r Hcfg Hok) as (st1 & segs1 & EA & Hok1 & Hc1).
    { specialize (Hpay 0%nat r eq_refl). by rewrite Z.add_0_r in Hpay. }
    { lia. }
    assert (init + len (concat segs1) = init + len (concat segs) + 1) as Hn1.
    { rewrite Hc1, len_snoc. lia. }
    destruct (IH st1 init segs1 Hcfg Hok1) as (st2 & segs2 & EB & Hok2 & Hc2).
    { lia. }
    { intros i r' Hi. rewrite Hn1. specialize (Hpay (S i) r' Hi).
      replace (init + len (concat segs) + 1 + Z.of_nat i)
        with (init + len (concat segs) + Z.of_nat (S i)) by lia. done. }
    exists st2, segs2. split_and!.
    + rewrite Hn1 in EB. cbn. unmonad. rewrite EA, EB. reflexivity.
    + done.
    + rewrite Hc2, Hn1, Hc1. cbn. by rewrite <- app_assoc.
Qed.

Lemma stamp_from_lookup o rs i r :
  rs !! i = Some r → stamp_from o rs !! i = Some (stamp (o + Z.of_nat i) r).
Proof.
  revert o i. induction rs as [|r0 rs IH]; intros o i; [done|].
  destruct i as [|i]; cbn.
  - intros [= ->]. by rewrite Z.add_0_r.
  - intros Hi. rewrite (IH _ _ Hi). do 2 f_equal. lia.
Qed.

Lemma length_stamp_from o rs : length (stamp_from o rs) = length rs.
Proof. revert o. induction rs as [|r rs IH]; intros o; cbn; [done|]. by rewrite IH. Qed.

End fresh_log.

(** ** The example serializer meets the contract *)

#[global] Instance fixed_laws : @SerializerLaws fixed_serializer.
Proof.
  split. intros [v o] Ho. cbn in *. unfold fixed_Unmarshal, fixed_Marshal. cbn.
  pose proof (len_nonneg v). pose proof (len_PutUint64 o) as H8.
  rewrite len_app, H8. zbool.
  unfold len in H8.
  rewrite drop_app_length' by lia. rewrite take_app_length' by lia.
  by rewrite Uint64_PutUint64, uint64_id.
Qed.

(** ** C1: appends to a fresh log and the reads that follow *)

(** C1 (amended): on a freshly created log (empty directory), under a
    configuration whose limits are in range ([config_ok]) and as long
    as [initial_offset + n] stays below [2^64] and the frames end at
    file offsets, appending [n] records in turn succeeds, append [i]
    returns [initial_offset + i], and afterwards [Log.Read] at
    [initial_offset + i] returns the value of record [i] under that
    offset, for every [i] in [[0, n)]. *)
Theorem Log_append_read `{SerializerLaws} (c : Config) (rs : list Record_)
    (st0 : Log.state) :
  Log.fs st0 = ∅ →
  config_ok (with_defaults c) →
  0 ≤ InitialOffset (Segment c) →
  InitialOffset (Segment c) + len rs < 2 ^ 64 →
  (∀ i r, rs !! i = Some r →
     payload_ok (with_defaults c)
       (Marshal (stamp (InitialOffset (Segment c) + Z.of_nat i) r))) →
  ∃ st,
    (Log.NewLog c ;; append_all rs) st0
      = (Ok (offsets_from (InitialOffset (Segment c)) (length rs)), st) ∧
    ∀ i r, rs !! i = Some r →
      fst (Log.Read (InitialOffset (Segment c) + Z.of_nat i) st)
      = Ok {| Value := Value r; Offset := InitialOffset (Segment c) + Z.of_nat i |}.
Proof.
  intros Hfs Hcfg Hi0 Hlt Hpay. pose proof (len_nonneg rs).
  destruct (NewLog_fresh c st0 Hcfg Hfs ltac:(lia)) as (st1 & EN & Hok1).
  destruct (append_all_ok _ rs st1 _ _ Hcfg Hok1) as (st2 & segs2 & EA & Hok2 & Hc2).
  { cbn. rewrite len_nil. lia. }
  { intros i r Hi. cbn. rewrite len_nil, Z.add_0_r. by apply Hpay. }
  cbn in EA, Hc2. rewrite len_nil, Z.add_0_r in EA, Hc2.
  exists st2. split.
  - unmonad. by rewrite EN, EA.
  - intros i r Hi.
    destruct (log_Read_hit _ st2 _ segs2 i (stamp (InitialOffset (Segment c) + Z.of_nat i) r)
                Hcfg Hok2) as (st3 & ER & _).
    { rewrite Hc2. by apply stamp_from_lookup. }
    by rewrite ER.
Qed.

Lemma Log_append_read_witness :
  let c := mkConfig 32 48 5 in
  let rs := [ {| Value := [x61]; Offset := 0 |}; {| Value := [x62; x62]; Offset := 0 |};
              {| Value := []; Offset := 9 |} ] in
  ∃ st,
    (Log.NewLog c ;; @append_all fixed_serializer rs) empty_state
      = (Ok (offsets_from (InitialOffset (Segment c)) (length rs)), st) ∧
    ∀ i r, rs !! i = Some r →
      fst (@Log.Read fixed_serializer (InitialOffset (Segment c) + Z.of_nat i) st)
      = Ok {| Value := Value r; Offset := InitialOffset (Segment c) + Z.of_nat i |}.
Proof.
  intros c rs. apply (@Log_append_read fixed_serializer fixed_laws c rs empty_state).
  - reflexivity.
  - vm_compute. split_and!; done.
  - vm_compute. done.
  - vm_compute. done.
  - intros i r Hi. destruct i as [|[|[|i]]]; cbn in Hi; [| | |done];
      injection Hi as <-; vm_compute; done.
Defined.

(** C1 as stated fails at the top of the offset range: with
    [initial_offset = 2^64 - 1] the first append returns [2^64 - 1]; the
    segment's [nextOffset] wraps to [0], and [Log.Read(2^64 - 1)] finds no
    segment. *)
Lemma Log_append_read_counterexample :
  let c := mkConfig 0 0 (2 ^ 64 - 1) in
  let r := {| Value := [x61]; Offset := 0 |} in
  let run := (Log.NewLog c ;; @append_all fixed_serializer [r]) empty_state in
  fst run = Ok [0 + InitialOffset (Segment c)] ∧
  fst (@Log.Read fixed_serializer (0 + InitialOffset (Segment c)) (snd run))
  = Err (ErrOffsetOutOfRange (2 ^ 64 - 1)).
Proof. vm_compute. split; reflexivity. Qed.

(** ** Truncate *)

Lemma segment_Remove_offsets (st st' : segment.st) (r : outcome unit) :
  segment.Remove st = (r, st') →
  segment.nextOffset (snd st') = segment.nextOffset (snd st) ∧
  segment.baseOffset (snd st') = segment.baseOffset (snd st).
Proof.
  destruct st as [fs s].
  unfold segment.Remove, segment.Close, segment.onIndex, segment.onStore,
    segment.onFS, segment.self.
  unmonad. cbn.
  repeat case_match; intros; simplify_eq; cbn; done.
Qed.

Lemma store_Close_closed (st st' : store.st) (r : outcome unit) :
  store.Close st = (r, st') →
  (store.closed (snd st) = true → store.closed (snd st') = true) ∧
  (r = Ok tt → store.closed (snd st') = true).
Proof.
  destruct st as [fs s].
  unfold store.Close, store.Flush, store.self, store.update, store.onFS.
  unmonad. cbn.
  repeat case_match; intros; simplify_eq; cbn in *; split; intros; simplify_eq; done.
Qed.

Lemma index_Close_closed (st st' : index.st) (r : outcome unit) :
  index.Close st = (r, st') →
  (index.closed (snd st) = true → index.closed (snd st') = true) ∧
  (r = Ok tt → index.closed (snd st') = true).
Proof.
  destruct st as [fs i].
  unfold index.Close, index.self, index.update, index.onFS.
  unmonad. cbn.
  repeat case_match; intros; simplify_eq; cbn in *; split; intros; simplify_eq; done.
Qed.

Lemma segment_Remove_closed (st st' : segment.st) (r : outcome unit) :
  segment.Remove st = (r, st') →
  (segment_closed (snd st) → segment_closed (snd st')) ∧
  (r = Ok tt → segment_closed (snd st')).
Proof.
  destruct st as [fs s].
  unfold segment.Remove, segment.Close, segment.onIndex, segment.onStore,
    segment.onFS, segment.self, segment_closed.
  unmonad. cbn.
  destruct (index.Close (fs, segment.index s)) as [ri [fs1 i1]] eqn:EI.
  apply index_Close_closed in EI as [I1 I2]. cbn in *.
  destruct ri as [[]|e|]; cbn; try (intros [= <- <-]; cbn; split; [tauto|done]).
  destruct (store.Close (fs1, segment.store s)) as [rs [fs2 s2]] eqn:ES.
  apply store_Close_closed in ES as [S1 S2]. cbn in *.
  destruct rs as [[]|e|]; cbn; try (intros [= <- <-]; cbn; split; [tauto|done]).
  repeat case_match; intros; simplify_eq; cbn in *; split; intros; split; auto.
Qed.

Lemma at_Remove_inv (p : Log.loc) (st st' : Log.state) (r : outcome unit) :
  Log.at_ p segment.Remove st = (r, st') →
  Log.log st' = Log.log st ∧ length (Log.heap st') = length (Log.heap st) ∧
  ∀ q s, Log.heap st !! q = Some s →
    ∃ s', Log.heap st' !! q = Some s' ∧
          segment.nextOffset s' = segment.nextOffset s ∧
          segment.baseOffset s' = segment.baseOffset s ∧
          (segment_closed s → segment_closed s') ∧
          (q = p → r = Ok tt → segment_closed s').
Proof.
  unfold Log.at_. destruct (Log.heap st !! p) as [sg|] eqn:Hp.
  - destruct (segment.Remove (Log.fs st, sg)) as [r' [fs' sg']] eqn:E.
    intros [= <- <-]. cbn. pose proof E as E'.
    apply segment_Remove_offsets in E as [En Eb].
    apply segment_Remove_closed in E' as [C1 C2]. cbn in *.
    split_and!; [done | by rewrite length_insert |].
    intros q s Hq. destruct (decide (q = p)) as [->|Hne].
    + exists sg'. rewrite list_lookup_insert_eq by (by eapply lookup_lt_Some).
      simplify_eq. split_and!; done.
    + exists s. rewrite list_lookup_insert_ne by done. split_and!; done.
  - intros [= <- <-]. split_and!; [done..|]. intros q s Hq. exists s.
    split_and!; try done.
Qed.

(** When every segment lies at or below the threshold, the loop of
    [Log.Truncate] keeps none and leaves each of them closed. *)
Lemma truncate_loop_all (lowest : Z) (ps : list Log.loc) :
  ∀ (kept : list Log.loc) (st st' : Log.state) (segs : list Log.loc),
  (∀ p, p ∈ ps → ∃ s, Log.heap st !! p = Some s ∧
                      segment.nextOffset s ≤ uint64 (lowest + 1)) →
  Log.truncate_loop lowest ps kept st = (Ok segs, st') →
  segs = kept ∧ Log.log st' = Log.log st ∧
  length (Log.heap st') = length (Log.heap st) ∧
  (∀ q s, Log.heap st !! q = Some s →
     ∃ s', Log.heap st' !! q = Some s' ∧ (segment_closed s → segment_closed s')) ∧
  (∀ p, p ∈ ps → ∃ s', Log.heap st' !! p = Some s' ∧ segment_closed s').
Proof.
  induction ps as [|p ps IH]; intros kept st st' segs Hall.
  - cbn. unmonad. intros [= <- <-]. split_and!; try done.
    + intros q s Hq. eauto.
    + intros p Hp. by apply elem_of_nil in Hp.
  - destruct (Hall p) as (s & Hs & Hle); [by left|].
    cbn. unmonad. rewrite (deref_Some _ _ _ Hs).
    replace (segment.nextOffset s <=? uint64 (lowest + 1)) with true
      by (symmetry; by apply Z.leb_le).
    destruct (Log.at_ p segment.Remove st) as [[[]|e|] st1] eqn:E; [|done|done].
    apply at_Remove_inv in E as (Hl & Hlen & Hheap).
    intros Hloop. apply IH in Hloop as (-> & Hl' & Hlen' & Hmono & Hcl).
    + split_and!; try congruence.
      * intros q sq Hq. destruct (Hheap q sq Hq) as (s1 & Hs1 & _ & _ & C1 & _).
        destruct (Hmono q s1 Hs1) as (s2 & Hs2 & C2). exists s2. split; [done|tauto].
      * intros q Hq. apply elem_of_cons in Hq as [->|Hq]; [|by apply Hcl].
        destruct (Hheap p s Hs) as (s1 & Hs1 & _ & _ & _ & C1).
        destruct (Hmono p s1 Hs1) as (s2 & Hs2 & C2). exists s2. split; [done|].
        apply C2, C1; done.
    + intros q Hq. destruct (Hall q) as (sq & Hsq & Hleq); [by right|].
      destruct (Hheap q sq Hsq) as (sq' & Hsq' & En & _).
      exists sq'. split; [done|]. by rewrite En.
Qed.

(** C10 (amended): when every segment satisfies
    [next_offset <= lowest + 1], a completed [Truncate(lowest)] leaves the
    segment list empty, allocates no segment and leaves [activeSegment]
    as it was, pointing at a closed, removed segment. Afterwards
    [Append], [LowestOffset] and [HighestOffset] index the empty list and
    panic, while [Read] scans the empty list and returns the
    offset-out-of-range error for every offset. *)
Theorem Truncate_all_segments `{Serializer} (st st' : Log.state) (lowest : Z) :
  (∀ p, p ∈ Log.segments (Log.log st) →
        ∃ s, Log.heap st !! p = Some s ∧
             segment.nextOffset s ≤ uint64 (lowest + 1)) →
  Log.Truncate lowest st = (Ok tt, st') →
  Log.segments (Log.log st') = [] ∧
  Log.activeSegment (Log.log st') = Log.activeSegment (Log.log st) ∧
  length (Log.heap st') = length (Log.heap st) ∧
  (∀ p, p ∈ Log.segments (Log.log st) →
        ∃ s', Log.heap st' !! p = Some s' ∧ segment_closed s') ∧
  (∀ r, Log.Append r st' = (Panic, st')) ∧
  Log.LowestOffset st' = (Panic, st') ∧
  Log.HighestOffset st' = (Panic, st') ∧
  (∀ o, Log.Read o st' = (Err (ErrOffsetOutOfRange o), st')).
Proof.
  intros Hall. unfold Log.Truncate, Log.self. unmonad. cbn.
  destruct (Log.truncate_loop lowest (Log.segments (Log.log st)) [] st)
    as [[segs|e|] st1] eqn:E; [|done|done].
  intros [= <-]. apply truncate_loop_all in E as (-> & Hl & Hlen & _ & Hcl); [|done].
  cbn. split_and!; try done. by rewrite Hl.
Qed.

Lemma Truncate_all_segments_witness :
  let st := snd ((Log.NewLog (mkConfig 0 0 0) ;;
                  @Log.Append fixed_serializer {| Value := [x61]; Offset := 0 |})
                   empty_state) in
  let st' := snd (Log.Truncate 0 st) in
  Log.segments (Log.log st') = [] ∧
  Log.activeSegment (Log.log st') = Log.activeSegment (Log.log st) ∧
  length (Log.heap st') = length (Log.heap st) ∧
  (∀ p, p ∈ Log.segments (Log.log st) →
        ∃ s', Log.heap st' !! p = Some s' ∧ segment_closed s') ∧
  (∀ r, @Log.Append fixed_serializer r st' = (Panic, st')) ∧
  Log.LowestOffset st' = (Panic, st') ∧
  Log.HighestOffset st' = (Panic, st') ∧
  (∀ o, @Log.Read fixed_serializer o st' = (Err (ErrOffsetOutOfRange o), st')).
Proof.
  intros st st'. apply (@Truncate_all_segments fixed_serializer st st' 0).
  - intros p Hp. vm_compute in Hp. apply list_elem_of_singleton in Hp as ->.
    eexists. split; [vm_compute; reflexivity|]. vm_compute. done.
  - vm_compute. reflexivity.
Defined.

(** C10 as stated fails for [Read]: on the emptied segment list it does
    return the offset-out-of-range error. *)
Lemma Truncate_all_segments_counterexample :
  let st := snd ((Log.NewLog (mkConfig 0 0 0) ;;
                  @Log.Append fixed_serializer {| Value := [x61]; Offset := 0 |} ;;
                  Log.Truncate 0) empty_state) in
  Log.segments (Log.log st) = [] ∧
  Log.activeSegment (Log.log st) = Some 0%nat ∧
  fst (@Log.Read fixed_serializer 0 st) = Err (ErrOffsetOutOfRange 0).
Proof. vm_compute. split_and!; reflexivity. Qed.

(** ** C4: the roll of the active segment *)

Lemma newStore_exists (f : fname) (fs : FS) (c : bytes) :
  fs !! f = Some c →
  store.newStore f fs = (Ok (store.mk f false [] None (uint64 (len c))), fs).
Proof. intros Hc. unfold store.newStore, os_Stat. unmonad. by rewrite Hc. Qed.

Lemma newIndex_empty_inv (f : fname) (c : Config) (fs fs' : FS) (i : index.t) :
  fs !! f = Some [] →
  index.newIndex f c fs = (Ok i, fs') →
  i = index.mk f false (index.mmap i) 0 ∧
  ∃ ic, fs' = <[f := ic]> fs ∧ len ic = index.mmap i.
Proof.
  intros Hf. unfold index.newIndex, os_Stat, os_Truncate. unmonad. rewrite Hf. cbn.
  destruct (int64 (MaxIndexBytes (Segment c)) <? 0); cbn; [done|].
  rewrite Hf. cbn. rewrite lookup_insert_eq. cbn.
  destruct (len (resize _ []) =? 0) eqn:E0; cbn; [done|].
  intros [= <- <-]. cbn. change (len (@nil byte)) with 0.
  rewrite (uint64_id 0) by lia. split; [done|].
  eexists. split; reflexivity.
Qed.

Lemma index_Read_empty (in_ : Z) (st : index.st) :
  index.size (snd st) = 0 → index.Read in_ st = (Err EOF, st).
Proof.
  intros E. unfold index.Read, index.self. unmonad. cbn. by rewrite E.
Qed.

(** [newSegment] on a base whose index file does not exist yet. *)
Lemma newSegment_fresh_index (b : Z) (c : Config) (fs fs' : FS) (s : segment.t) :
  fs !! (b, ExtIndex) = None →
  segment.newSegment b c fs = (Ok s, fs') →
  s = segment.mk
        (store.mk (b, ExtStore) false [] None
           (uint64 (len (default [] (fs !! (b, ExtStore))))))
        (index.mk (b, ExtIndex) false (index.mmap (segment.index s)) 0) b b c ∧
  fs' !! (b, ExtStore) = Some (default [] (fs !! (b, ExtStore))) ∧
  (∃ ic, fs' !! (b, ExtIndex) = Some ic ∧ len ic = index.mmap (segment.index s)).
Proof.
  intros Hi.
  unfold segment.newSegment, segment.update, segment.self, segment.onIndex.
  unmonad. cbn.
  rewrite (newStore_exists _ _ _ (lookup_OpenFile_eq _ _)). cbn.
  set (fs1 := os_OpenFile (b, ExtIndex) (os_OpenFile (b, ExtStore) fs)).
  assert (fs1 !! (b, ExtIndex) = Some []) as Hi1.
  { unfold fs1. rewrite lookup_OpenFile_eq, lookup_OpenFile_ne by done. by rewrite Hi. }
  destruct (index.newIndex (b, ExtIndex) c fs1) as [[i|e|] fs2] eqn:EI; cbn; [|done|done].
  apply (newIndex_empty_inv _ _ _ _ _ Hi1) in EI as (Ei & ic & -> & Hicl).
  rewrite index_Read_empty by (cbn; by rewrite Ei). cbn.
  intros [= <- <-]. cbn. split_and!.
  - unfold segment.set_nextOffset. cbn. f_equal. exact Ei.
  - rewrite lookup_insert_ne by done. unfold fs1. rewrite lookup_OpenFile_ne by done.
    by rewrite lookup_OpenFile_eq.
  - exists ic. by rewrite lookup_insert_eq.
Qed.

Lemma segment_Append_Ok_inv `{Serializer} (r : Record_) (fs fs' : FS)
    (s s' : segment.t) (off : Z) :
  store.File (segment.store s) ≠ index.file (segment.index s) →
  segment.Append r (fs, s) = (Ok off, (fs', s')) →
  off = segment.nextOffset s ∧
  segment.baseOffset s' = segment.baseOffset s ∧
  segment.nextOffset s' = uint64 (segment.nextOffset s + 1) ∧
  index.size (segment.index s') = uint64 (index.size (segment.index s) + 12) ∧
  store.contents (fs', segment.store s') =
    (λ c, c ++ PutUint64 (uint64 (len (Marshal (stamp off r))))
            ++ Marshal (stamp off r)) <$> store.contents (fs, segment.store s).
Proof.
  intros Hne.
  unfold segment.Append, segment.self, segment.update, segment.onStore, segment.onIndex.
  unmonad. cbn.
  destruct (store.Append _ (fs, segment.store s)) as [[[n pos]|e|] [fs1 st1]] eqn:EA;
    cbn; [|done|done].
  apply Append_Ok_inv in EA as (_ & _ & HF & _ & _ & _ & _ & _ & _ & Hct). cbn in *.
  unfold index.Write, index.self, index.update. unmonad. cbn.
  destruct (index.isMaxed (segment.index s)); cbn; [done|].
  unfold index.mmap_put. cbn.
  destruct (_ && _); cbn; [|done].
  destruct (fs1 !! index.file (segment.index s)) as [ic|] eqn:Eic; cbn; [|done].
  destruct (_ <=? len ic); cbn; [|done].
  destruct (_ && _); cbn; [|done].
  rewrite lookup_insert_eq. cbn.
  destruct (_ <=? len _); cbn; [|done].
  intros [= <- <- <-]. cbn. split_and!; try done.
  unfold stamp. rewrite <- Hct. unfold store.contents. cbn.
  rewrite HF, !lookup_insert_ne by done. done.
Qed.

(** C4: when the active segment is full before the write, a successful
    [Append] first creates the segment whose base is [highest + 1]
    ([highest] as computed just before the check), makes it the active
    and last segment, and appends the record to it: the record gets the
    new segment's base as its offset. The new segment is one the
    directory does not hold yet (no index file under that base). *)
Theorem Append_rolls_full_segment `{Serializer} (st st' : Log.state) (r : Record_)
    (off highest : Z) (a : Log.loc) (sa : segment.t) :
  Log.activeSegment (Log.log st) = Some a →
  Log.heap st !! a = Some sa →
  segment.IsMaxed sa = true →
  Log.highestOffset st = (Ok highest, st) →
  Log.fs st !! (uint64 (highest + 1), ExtIndex) = None →
  Log.Append r st = (Ok off, st') →
  let p := length (Log.heap st) in
  ∃ s',
    Log.activeSegment (Log.log st') = Some p ∧
    Log.segments (Log.log st') = Log.segments (Log.log st) ++ [p] ∧
    Log.heap st' !! p = Some s' ∧
    Log.heap st' !! a = Some sa ∧
    segment.baseOffset s' = uint64 (highest + 1) ∧
    off = segment.baseOffset s' ∧
    segment.nextOffset s' = uint64 (off + 1) ∧
    index.size (segment.index s') = 12 ∧
    store.contents (Log.fs st', segment.store s') =
      Some (default [] (Log.fs st !! (off, ExtStore))
            ++ PutUint64 (uint64 (len (Marshal (stamp off r))))
            ++ Marshal (stamp off r)).
Proof.
  intros Ha Hsa Hmax Hhi Hidx. unfold Log.Append.
  rewrite (bind_Ok _ _ _ _ _ Hhi). unfold Log.self at 1. unmonad. cbn.
  rewrite Ha, (deref_Some _ _ _ Hsa), Hmax.
  set (b := uint64 (highest + 1)) in *.
  unfold Log.newSegment, Log.self, Log.onFS. unmonad. cbn.
  destruct (segment.newSegment b _ (Log.fs st)) as [[s1|e|] fs1] eqn:EN; cbn; [|done|done].
  apply (newSegment_fresh_index _ _ _ _ _ Hidx) in EN as (Es1 & Hst1 & ic & Hic & Hicl).
  set (p := length (Log.heap st)).
  unfold Log.at_. cbn. rewrite lookup_app_r, Nat.sub_diag by done. cbn.
  destruct (segment.Append r (fs1, s1)) as [ro [fs2 s2]] eqn:EA.
  intros [= -> <-]. cbn.
  apply segment_Append_Ok_inv in EA as (Eo & Eb & En & Ei & Ect);
    [|rewrite Es1; done].
  rewrite Es1 in Eo, Eb, En, Ei, Ect. cbn in *.
  exists s2. split_and!; try done.
  - apply list_lookup_insert_eq. rewrite length_app. cbn. lia.
  - pose proof (lookup_lt_Some _ _ _ Hsa) as Hlt.
    rewrite list_lookup_insert_ne by (unfold p; lia).
    by rewrite lookup_app_l.
  - congruence.
  - congruence.
  - rewrite Ect. unfold store.contents. cbn. subst off. rewrite Hst1. cbn.
    by rewrite app_nil_r.
Qed.

Lemma Append_rolls_full_segment_witness :
  let st := full_log_example in
  let r := {| Value := [x63]; Offset := 0 |} in
  let st' := snd (@Log.Append fixed_serializer r st) in
  let sa := default (snd segment_example) (Log.heap st !! 0%nat) in
  let p := length (Log.heap st) in
  ∃ s',
    Log.activeSegment (Log.log st') = Some p ∧
    Log.segments (Log.log st') = Log.segments (Log.log st) ++ [p] ∧
    Log.heap st' !! p = Some s' ∧
    Log.heap st' !! 0%nat = Some sa ∧
    segment.baseOffset s' = uint64 (6 + 1) ∧
    7 = segment.baseOffset s' ∧
    segment.nextOffset s' = uint64 (7 + 1) ∧
    index.size (segment.index s') = 12 ∧
    store.contents (Log.fs st', segment.store s') =
      Some (default [] (Log.fs st !! (7, ExtStore))
            ++ PutUint64 (uint64 (len (fixed_Marshal (stamp 7 r))))
            ++ fixed_Marshal (stamp 7 r)).
Proof.
  intros st r st' sa p.
  apply (@Append_rolls_full_segment fixed_serializer st st' r 7 6 0%nat sa).
  - vm_compute. reflexivity.
  - vm_compute. reflexivity.
  - vm_compute. reflexivity.
  - vm_compute. reflexivity.
  - vm_compute. reflexivity.
  - vm_compute. reflexivity.
Defined.

(** ** Stages *)

Section stages.
Context `{SerializerLaws}.

Lemma segs_base_lt c init segs j j' rs :
  segs_ok c init segs → segs !! j = Some rs → (j < j')%nat → (j' < length segs)%nat →
  count_before segs j < count_before segs j'.
Proof.
  intros Hp Hj Hlt Hlt'.
  pose proof (count_before_mono segs (S j) j' ltac:(lia)).
  rewrite (count_before_S _ _ _ Hj) in *.
  pose proof (nonempty_len rs (sp_inner _ _ _ Hp j rs Hj ltac:(lia))). lia.
Qed.

Lemma segs_base_inj c init segs j j' :
  segs_ok c init segs → (j < length segs)%nat → (j' < length segs)%nat →
  count_before segs j = count_before segs j' → j = j'.
Proof.
  intros Hp Hj Hj' E.
  destruct (lookup_lt_is_Some_2 segs j Hj) as [rs Hrs].
  destruct (lookup_lt_is_Some_2 segs j' Hj') as [rs' Hrs'].
  destruct (Nat.lt_trichotomy j j') as [Hlt|[->|Hgt]]; [|done|].
  - pose proof (segs_base_lt c init segs j j' rs Hp Hrs Hlt Hj'). lia.
  - pose proof (segs_base_lt c init segs j' j rs' Hp Hrs' Hgt Hj). lia.
Qed.

(** A log in order is a staging in which every segment is open. *)
Lemma log_ok_segs c st init segs : log_ok c st init segs → segs_ok c init segs.
Proof.
  intros Hok. pose proof Hok as [Lc Li Lne La Ll Lnd Lsegs Lfiles].
  split; try done.
  - intros j rs Hj Hlt.
    destruct (log_seg c st init segs Hok j rs Hj) as (_ & _ & _ & _ & _ & _ & _ & Hne).
    by apply Hne.
  - intros j rs k r Hj Hk.
    destruct (log_seg c st init segs Hok j rs Hj) as (_ & s & _ & _ & Hso & Hb & _).
    destruct Hso as [_ _ _ _ Ko _ _ _ _ _ _ _ _ _ _ _ _]. rewrite (Ko k r Hk). lia.
  - intros j rs Hj.
    destruct (log_seg c st init segs Hok j rs Hj) as (_ & s & _ & _ & Hso & Hb & _).
    by destruct Hso.
  - intros j rs Hj.
    destruct (log_seg c st init segs Hok j rs Hj) as (_ & s & _ & _ & Hso & Hb & _).
    by destruct Hso.
  - intros j rs Hj.
    destruct (log_seg c st init segs Hok j rs Hj) as (_ & s & _ & _ & Hso & Hb & _).
    destruct Hso as [_ _ _ Kl _ _ _ _ _ _ _ _ _ _ _ _ _]. lia.
Qed.

Lemma log_ok_staged c st init segs :
  log_ok c st init segs →
  staged_ok c (Log.fs st) (Log.heap st) init segs (Log.segments (Log.log st)) (λ _, Open).
Proof.
  intros Hok. pose proof Hok as [Lc Li Lne La Ll Lnd Lsegs Lfiles].
  split; try done.
  - by eapply log_ok_segs.
  - intros j rs Hj _.
    destruct (log_seg c st init segs Hok j rs Hj) as (p & s & Hp & Hs & Hso & Hb & _).
    eauto 10.
Qed.

Lemma count_before_drop (segs : list (list Record_)) (k j : nat) :
  count_before (drop k segs) j = count_before segs (k + j) - count_before segs k.
Proof.
  unfold count_before.
  rewrite <- (take_drop k (take (k + j) segs)), take_take, concat_app, len_app.
  replace (k `min` (k + j))%nat with k by lia.
  rewrite <- take_drop_commute. lia.
Qed.

Lemma last_drop {A} (l : list A) (k : nat) :
  (k < length l)%nat → last (drop k l) = last l.
Proof.
  intros Hk. rewrite !last_lookup, lookup_drop, length_drop. f_equal. lia.
Qed.

(** One segment changes stage; the others do not notice. *)
Lemma staged_step c fs heap init segs ptrs stg fs' heap' ptrs' stg' j rs :
  staged_ok c fs heap init segs ptrs stg → segs !! j = Some rs →
  (∀ n, fst n ≠ init + count_before segs j → fs' !! n = fs !! n) →
  (∀ n, is_Some (fs' !! n) → is_Some (fs !! n)) →
  (∀ j', j' ≠ j → stg' j' = stg j') →
  NoDup ptrs' →
  (∀ j' p, j' ≠ j → stg j' = Open → ptrs !! j' = Some p →
           ptrs' !! j' = Some p ∧ heap' !! p = heap !! p) →
  stage_duty c fs' heap' init segs ptrs' j rs (stg' j) →
  staged_ok c fs' heap' init segs ptrs' stg'.
Proof.
  intros [Gp Gn Go Gd Gg Gf] Hj Hfr Hdom Hstg Hnd Hptr Hduty.
  pose proof (lookup_lt_Some _ _ _ Hj) as Hjlt.
  assert (∀ j' e, (j' < length segs)%nat → j' ≠ j →
            fs' !! (init + count_before segs j', e) = fs !! (init + count_before segs j', e))
    as Hother.
  { intros j' e Hlt Hne. apply Hfr. cbn. intros E. apply Hne.
    apply (segs_base_inj c init segs); [done|done|done|lia]. }
  split; try done.
  - intros j' rs' Hj' Hst. destruct (decide (j' = j)) as [->|Hne].
    + rewrite Hst in Hduty. by simplify_eq.
    + rewrite (Hstg _ Hne) in Hst.
      destruct (Go j' rs' Hj' Hst) as (p & s & Hp & Hs & Hso & Hb).
      destruct (Hptr j' p Hne Hst Hp) as [Hp' Hs'].
      exists p, s. split_and!; [done | by rewrite Hs' | | done].
      apply (seg_ok_frame _ _ _ _ _ Hso). intros [b e] Hn. cbn in Hn. subst b.
      rewrite Hb. apply Hother; [by eapply lookup_lt_Some|done].
  - intros j' rs' Hj' Hst. destruct (decide (j' = j)) as [->|Hne].
    + rewrite Hst in Hduty. by simplify_eq.
    + rewrite (Hstg _ Hne) in Hst. pose proof (lookup_lt_Some _ _ _ Hj').
      rewrite !Hother by done. exact (Gd j' rs' Hj' Hst).
  - intros j' rs' Hj' Hst. destruct (decide (j' = j)) as [->|Hne].
    + rewrite Hst in Hduty. by simplify_eq.
    + rewrite (Hstg _ Hne) in Hst. pose proof (lookup_lt_Some _ _ _ Hj').
      rewrite !Hother by done. exact (Gg j' rs' Hj' Hst).
  - intros n Hn. by apply Gf, Hdom.
Qed.

(** Once a prefix of the segments is gone and the others are open, what
    remains is a log in order. *)
Lemma staged_log_ok c fs heap init segs ptrs k :
  staged_ok c fs heap init segs ptrs (λ j, if decide (j < k)%nat then Gone else Open) →
  length ptrs = length segs → (k < length segs)%nat →
  log_ok c (Log.mkState fs heap (Log.mk c (last ptrs) (drop k ptrs)))
    (init + count_before segs k) (drop k segs).
Proof.
  intros [Gp Gn Go Gd Gg Gf] Hlen Hk. pose proof Gp as [Pi Pne Pin Poff Pidx Pst Prg].
  pose proof (count_before_nonneg segs k).
  split; cbn [Log.log Log.segments Log.fs Log.heap Log.Config_ Log.activeSegment].
  - done.
  - lia.
  - intros E. apply (f_equal length) in E. rewrite length_drop in E. cbn in E. lia.
  - by rewrite last_drop by lia.
  - rewrite !length_drop. lia.
  - apply (sublist_NoDup (drop k ptrs) ptrs); [exact Gn | apply sublist_drop].
  - intros j p rs Hp Hrs. rewrite lookup_drop in Hp. rewrite lookup_drop in Hrs.
    destruct (Go (k + j)%nat rs Hrs) as (p' & s & Hp' & Hs & Hso & Hb).
    { case_decide; [lia|done]. }
    assert (p' = p) as -> by congruence.
    exists s. split_and!; try done.
    + rewrite count_before_drop. lia.
    + rewrite length_drop. intros Hlt. apply (Pin (k + j)%nat rs Hrs). lia.
  - intros n Hn. destruct (Gf n Hn) as (j & Hj & E).
    destruct (decide (j < k)%nat) as [Hlt|Hge].
    + destruct (lookup_lt_is_Some_2 segs j Hj) as [rs Hrs].
      destruct (Gg j rs Hrs) as [G1 G2]; [by case_decide|].
      destruct n as [b e]. cbn in E. subst b. destruct e; rewrite ?G1, ?G2 in Hn; by destruct Hn.
    + exists (j - k)%nat. rewrite length_drop, count_before_drop.
      replace (k + (j - k))%nat with j by lia. split; [lia|]. lia.
Qed.

Lemma staged_ext c fs heap init segs ptrs stg stg' :
  (∀ j, (j < length segs)%nat → stg' j = stg j) →
  staged_ok c fs heap init segs ptrs stg → staged_ok c fs heap init segs ptrs stg'.
Proof.
  intros Hext [Gp Gn Go Gd Gg Gf]. split; try done.
  - intros j rs Hj Hst. rewrite Hext in Hst by (by eapply lookup_lt_Some). eauto.
  - intros j rs Hj Hst. rewrite Hext in Hst by (by eapply lookup_lt_Some). eauto.
  - intros j rs Hj Hst. rewrite Hext in Hst by (by eapply lookup_lt_Some). eauto.
Qed.

(** [Log.Close]: segment after segment goes from memory to disk. *)
Lemma close_all_ok c init segs ptrs :
  config_ok c → length ptrs = length segs →
  ∀ d k st, (k + d = length segs)%nat →
    staged_ok c (Log.fs st) (Log.heap st) init segs ptrs
      (λ j, if decide (j < k)%nat then Disk else Open) →
    ∃ st', Log.close_all (drop k ptrs) st = (Ok tt, st') ∧
           staged_ok c (Log.fs st') (Log.heap st') init segs ptrs (λ _, Disk) ∧
           Log.log st' = Log.log st.
Proof.
  intros Hcfg Hlen. induction d as [|d IH]; intros k st Hk Hst.
  - exists st. rewrite drop_ge by lia. split_and!; [done| |done].
    eapply staged_ext; [|exact Hst]. intros j Hj. cbn. case_decide; [done|lia].
  - assert (k < length segs)%nat as Hklt by lia.
    destruct (lookup_lt_is_Some_2 segs k Hklt) as [rs Hrs].
    pose proof Hst as [Gp Gn Go Gd Gg Gf].
    destruct (Go k rs Hrs) as (p & s & Hp & Hs & Hso & Hb); [case_decide; [lia|done]|].
    destruct (seg_Close_ok c (Log.fs st) s rs Hcfg Hso) as (s' & EC & Hb' & Hn').
    pose proof Hso as [Kconfig Kbase Knext Knext_lt Koffsets Ksfile Ksclosed Kswerr
      Kscontent Kssize Ksbound Kifile Kiclosed Kisize Kmmap Kifits Kicontent].
    destruct Kscontent as (sc & Hsc & _). destruct Kicontent as (tl & Hic & _).
    set (fs' := <[(segment.baseOffset s, ExtStore) := store_bytes (Marshal <$> rs)]>
                  (<[(segment.baseOffset s, ExtIndex) := index_bytes (Marshal <$> rs)]>
                     (Log.fs st))) in *.
    set (st1 := Log.mkState fs' (<[p := s']> (Log.heap st)) (Log.log st)).
    destruct (IH (S k) st1 ltac:(lia)) as (st' & EL & Hst' & Hl').
    { apply (staged_step c (Log.fs st) (Log.heap st) init segs ptrs _ _ _ ptrs _ k rs Hst Hrs).
      - intros [b e] Hn. cbn in Hn. unfold st1, fs'. cbn.
        rewrite !lookup_insert_ne by (rewrite Hb; congruence). done.
      - intros n. unfold st1, fs'. cbn. rewrite !lookup_insert.
        repeat case_decide; subst; rewrite ?Hsc, ?Hic; eauto.
      - intros j' Hne. cbn. repeat case_decide; done || lia.
      - done.
      - intros j' p' Hne _ Hp'. split; [done|]. unfold st1. cbn.
        apply list_lookup_insert_ne. intros ->. apply Hne.
        eapply NoDup_lookup; eauto.
      - cbn. case_decide; [|lia]. cbn. unfold st1, fs'. cbn. rewrite <- Hb.
        rewrite lookup_insert_eq, lookup_insert_ne, lookup_insert_eq by done. done. }
    exists st'. split_and!; [|done|by rewrite Hl'].
    rewrite (drop_S _ _ _ Hp). cbn. unmonad.
    by rewrite (at_unfold _ _ _ _ _ _ _ Hs EC).
Qed.

Lemma os_OpenFile_exists (n : fname) (fs : FS) (x : bytes) :
  fs !! n = Some x → os_OpenFile n fs = fs.
Proof. intros E. unfold os_OpenFile. by rewrite E. Qed.

(** The loop of [Log.setup]: segment after segment is opened from disk. *)
Lemma newSegments_ok c init segs :
  config_ok c →
  ∀ d k st, (k + d = length segs)%nat →
    length (Log.segments (Log.log st)) = k →
    Log.Config_ (Log.log st) = c →
    (0 < k → Log.activeSegment (Log.log st) = last (Log.segments (Log.log st)))%nat →
    staged_ok c (Log.fs st) (Log.heap st) init segs (Log.segments (Log.log st))
      (λ j, if decide (j < k)%nat then Open else Disk) →
    ∃ st',
      Log.newSegments ((λ j : nat, init + count_before segs j) <$> seq k d) st = (Ok tt, st') ∧
      staged_ok c (Log.fs st') (Log.heap st') init segs (Log.segments (Log.log st'))
        (λ _, Open) ∧
      length (Log.segments (Log.log st')) = length segs ∧
      Log.Config_ (Log.log st') = c ∧
      (0 < length segs →
       Log.activeSegment (Log.log st') = last (Log.segments (Log.log st')))%nat.
Proof.
  intros Hcfg. induction d as [|d IH]; intros k st Hk Hlen Hc Hact Hst.
  - exists st. cbn. split_and!; try done.
    + eapply staged_ext; [|exact Hst]. intros j Hj. cbn. case_decide; [done|lia].
    + lia.
    + intros Hpos. apply Hact. lia.
  - assert (k < length segs)%nat as Hklt by lia.
    destruct (lookup_lt_is_Some_2 segs k Hklt) as [rs Hrs].
    pose proof Hst as [Gp Gn Go Gd Gg Gf]. pose proof Gp as [Pi Pne Pin Poff Pidx Pst Prg].
    destruct (Gd k rs Hrs) as [Ds Di]; [case_decide; [lia|done]|].
    set (b := init + count_before segs k) in *.
    pose proof (count_before_nonneg segs k) as Hcb.
    destruct (seg_open c (Log.fs st) b rs Hcfg) as (s & fs' & EO & Efs & Hso & Hbs).
    { lia. }
    { pose proof (Prg k rs Hrs). lia. }
    { intros i r Hi. by apply (Poff k rs i r). }
    { by eapply Pidx. }
    { by eapply Pst. }
    { by rewrite (os_OpenFile_exists _ _ _ Ds), (os_OpenFile_exists _ _ _ Di). }
    { by rewrite (os_OpenFile_exists _ _ _ Ds), (os_OpenFile_exists _ _ _ Di). }
    rewrite (os_OpenFile_exists _ _ _ Ds), (os_OpenFile_exists _ _ _ Di) in Efs.
    set (p := length (Log.heap st)).
    set (st1 := Log.mkState fs' (Log.heap st ++ [s])
                  (Log.mk c (Some p) (Log.segments (Log.log st) ++ [p]))).
    assert (∀ q, q ∈ Log.segments (Log.log st) → (q < p)%nat) as Hbound.
    { intros q Hq. apply list_elem_of_lookup in Hq as [j Hj].
      pose proof (lookup_lt_Some _ _ _ Hj) as Hjk. rewrite Hlen in Hjk.
      destruct (lookup_lt_is_Some_2 segs j ltac:(lia)) as [rsj Hrsj].
      destruct (Go j rsj Hrsj) as (q' & sq & Hq' & Hsq & _); [case_decide; [done|lia]|].
      assert (q' = q) as -> by congruence. by eapply lookup_lt_Some. }
    destruct (IH (S k) st1 ltac:(lia)) as (st' & EL & Hst' & Hlen' & Hc' & Hact').
    { unfold st1. cbn. rewrite length_app, Hlen. cbn. lia. }
    { done. }
    { intros _. unfold st1. cbn. by rewrite last_snoc. }
    { apply (staged_step c (Log.fs st) (Log.heap st) init segs
               (Log.segments (Log.log st)) _ _ _ _ _ k rs Hst Hrs).
      - intros [b' e] Hn. cbn in Hn. unfold st1. cbn. rewrite Efs.
        rewrite lookup_insert_ne by (fold b in Hn; congruence). done.
      - intros n. unfold st1. cbn. rewrite Efs, lookup_insert.
        case_decide; subst; rewrite ?Di; eauto.
      - intros j' Hne. cbn. repeat case_decide; done || lia.
      - unfold st1. cbn. apply NoDup_app. split_and!; [done| |apply NoDup_singleton].
        intros q Hq Hq'. apply list_elem_of_singleton in Hq'. subst q.
        specialize (Hbound _ Hq). lia.
      - intros j' q Hne Hstg Hq. unfold st1. cbn.
        pose proof (lookup_lt_Some _ _ _ Hq) as Hj'.
        split.
        + by rewrite lookup_app_l.
        + apply lookup_app_l. apply Hbound. apply list_elem_of_lookup. eauto.
      - cbn. case_decide; [|lia]. cbn. exists p, s. unfold st1. cbn. split_and!.
        + by rewrite lookup_app_r, Hlen, Nat.sub_diag by lia.
        + by rewrite lookup_app_r, Nat.sub_diag by (unfold p; lia).
        + done.
        + done. }
    assert (Log.newSegment b st = (Ok tt, st1)) as Hnew.
    { unfold Log.newSegment, Log.self, Log.onFS. unmonad. cbn. rewrite Hc, EO. cbn.
      unfold st1, p. by rewrite Hc. }
    exists st'. split_and!; try done.
    cbn [seq fmap list_fmap Log.newSegments]. fold b.
    rewrite (bind_Ok _ _ _ _ _ Hnew). exact EL.
Qed.

Lemma every_other_dup l : Log.every_other (dup l) = l.
Proof. induction l as [|b l IH]; [done|]. cbn. by rewrite IH. Qed.

Lemma dup_sorted (f : nat → Z) :
  (∀ j j', (j ≤ j')%nat → f j ≤ f j') →
  ∀ d k, Sorted Z.le (dup (f <$> seq k d)).
Proof.
  intros Hmono. induction d as [|d IH]; intros k; [constructor|].
  cbn. constructor; [constructor; [apply IH|] |].
  - destruct d; cbn; constructor. apply Hmono. lia.
  - constructor. lia.
Qed.

Lemma dup_fmap_pairs (l : list Z) :
  (λ n : fname, fst n) <$> (l ≫= λ b, [(b, ExtStore); (b, ExtIndex)]) = dup l.
Proof. induction l as [|b l IH]; [done|]. cbn. by rewrite IH. Qed.

Lemma elem_of_bases init segs b :
  b ∈ bases init segs ↔ ∃ j, (j < length segs)%nat ∧ b = init + count_before segs j.
Proof.
  unfold bases. rewrite list_elem_of_fmap. split.
  - intros (j & -> & Hj). apply elem_of_seq in Hj. exists j. split; [lia|done].
  - intros (j & Hj & ->). exists j. split; [done|]. apply elem_of_seq. lia.
Qed.

(** The directory of a closed log lists every base twice. *)
Lemma disk_listing c fs heap init segs ptrs :
  staged_ok c fs heap init segs ptrs (λ _, Disk) →
  merge_sort Z.le ((λ n : fname, Log.ParseUint (fst n)) <$> (map_to_list fs).*1)
  = dup (bases init segs).
Proof.
  intros [Gp Gn Go Gd Gg Gf]. pose proof Gp as [Pi Pne Pin Poff Pidx Pst Prg].
  apply (Sorted_unique Z.le).
  - apply Sorted_merge_sort. apply _.
  - apply dup_sorted. intros j j' Hle. pose proof (count_before_mono segs j j' Hle). lia.
  - rewrite merge_sort_Permutation.
    assert ((map_to_list fs).*1 ≡ₚ bases init segs ≫= λ b, [(b, ExtStore); (b, ExtIndex)])
      as Hperm.
    { apply NoDup_Permutation.
      - apply NoDup_fst_map_to_list.
      - apply NoDup_bind.
        + intros b1 b2 n _ _ H1 H2.
          rewrite !elem_of_cons, !elem_of_nil in H1, H2.
          destruct H1 as [->|[->|[]]]; destruct H2 as [E|[E|[]]]; congruence.
        + intros b _. apply NoDup_cons. split; [|apply NoDup_singleton].
          rewrite elem_of_cons, elem_of_nil. intros [E|[]]. discriminate.
        + unfold bases. apply NoDup_fmap_2_strong; [|apply NoDup_seq].
          intros j j' Hj Hj' E. apply elem_of_seq in Hj, Hj'.
          apply (segs_base_inj c init segs j j' Gp); lia.
      - intros n. rewrite list_elem_of_bind. split.
        + intros Hn. apply list_elem_of_fmap in Hn as ([n' x] & -> & Hn).
          apply elem_of_map_to_list in Hn. cbn.
          destruct (Gf n') as (j & Hj & E); [by rewrite Hn|].
          exists (fst n'). split.
          * destruct n' as [b e]. cbn. destruct e; [left|right; left].
          * apply elem_of_bases. eauto.
        + intros (b & Hn & Hb). apply elem_of_bases in Hb as (j & Hj & ->).
          destruct (lookup_lt_is_Some_2 segs j Hj) as [rs Hrs].
          destruct (Gd j rs Hrs eq_refl) as [D1 D2].
          apply list_elem_of_fmap.
          rewrite !elem_of_cons, elem_of_nil in Hn. destruct Hn as [->|[->|[]]].
          * eexists (_, _). split; [reflexivity|]. apply elem_of_map_to_list. exact D1.
          * eexists (_, _). split; [reflexivity|]. apply elem_of_map_to_list. exact D2. }
    rewrite Hperm. rewrite <- dup_fmap_pairs.
    erewrite list_fmap_ext; [reflexivity|].
    intros i [b e] Hi. cbn.
    apply list_elem_of_lookup_2 in Hi. apply list_elem_of_bind in Hi as (b' & Hb' & Hin).
    apply elem_of_bases in Hin as (j & Hj & ->).
    assert (b = init + count_before segs j) as ->.
    { rewrite !elem_of_cons, elem_of_nil in Hb'. destruct Hb' as [E|[E|[]]]; congruence. }
    destruct (lookup_lt_is_Some_2 segs j Hj) as [rs Hrs].
    pose proof (Prg j rs Hrs). pose proof (count_before_nonneg segs j).
    pose proof (len_nonneg rs).
    unfold Log.ParseUint. by zbool.
Qed.

Lemma staged_ptrs c fs heap init segs ptrs ptrs' stg :
  (∀ j, (j < length segs)%nat → stg j ≠ Open) → NoDup ptrs' →
  staged_ok c fs heap init segs ptrs stg → staged_ok c fs heap init segs ptrs' stg.
Proof.
  intros Hno Hnd [Gp Gn Go Gd Gg Gf]. split; try done.
  intros j rs Hj Hst. exfalso. eapply Hno; [|exact Hst]. by eapply lookup_lt_Some.
Qed.

(** Closing a log in order and opening the directory again gives a log
    in order that holds the same records at the same offsets. *)
Lemma log_reopen (c : Config) (st : Log.state) (init : Z) (segs : list (list Record_)) :
  config_ok (with_defaults c) → log_ok (with_defaults c) st init segs →
  ∃ st1 st2, Log.Close st = (Ok tt, st1) ∧ Log.NewLog c st1 = (Ok tt, st2) ∧
             log_ok (with_defaults c) st2 init segs.
Proof.
  intros Hcfg Hok. set (c' := with_defaults c) in *.
  pose proof Hok as [Lc Li Lne La Ll Lnd Lsegs Lfiles].
  destruct (close_all_ok c' init segs (Log.segments (Log.log st)) Hcfg Ll
              (length segs) 0%nat st eq_refl) as (st1 & EC & Hst1 & Hl1).
  { eapply staged_ext; [|by apply log_ok_staged]. done. }
  rewrite drop_0 in EC.
  set (st1' := Log.set_log (Log.mk c' None []) st1).
  destruct (newSegments_ok c' init segs Hcfg (length segs) 0%nat st1' eq_refl)
    as (st2 & EN & Hst2 & Hlen2 & Hc2 & Ha2); [done | done | cbn; lia | |].
  { cbn. eapply staged_ext; [|eapply staged_ptrs; [| |exact Hst1]]; [done|done|].
    apply NoDup_nil_2. }
  exists st1, st2. split_and!.
  - unfold Log.Close, Log.self. unmonad. cbn. exact EC.
  - rewrite NewLog_defaults. fold c'. fold st1'.
    unfold Log.setup, Log.self. unmonad. cbn.
    change (map (λ n : fname, Log.ParseUint n.1) (map_to_list (Log.fs st1)).*1)
      with ((λ n : fname, Log.ParseUint n.1) <$> (map_to_list (Log.fs st1)).*1).
    rewrite (disk_listing c' _ _ init segs _ Hst1), every_other_dup.
    unfold bases. rewrite EN. cbn.
    destruct (Log.segments (Log.log st2)) eqn:E; [|done].
    cbn in Hlen2. destruct segs; [done|discriminate].
  - assert (0 < length segs)%nat as Hpos by (destruct segs; [done|cbn; lia]).
    pose proof (staged_log_ok c' _ _ init segs _ 0%nat
      ltac:(eapply staged_ext; [|exact Hst2]; done) Hlen2 Hpos) as Hfin.
    rewrite !drop_0 in Hfin. unfold count_before in Hfin. rewrite take_0 in Hfin.
    cbn [concat] in Hfin.
    replace (init + len (@nil Record_)) with init in Hfin by (rewrite len_nil; lia).
    destruct st2 as [fs2 heap2 [c2 a2 p2]]. cbn in *. subst c2.
    rewrite (Ha2 Hpos). exact Hfin.
Qed.

End stages.

(** ** Truncation of a log in order *)

Section truncation.
Context `{SerializerLaws}.

Lemma segment_Close_names (st st' : segment.st) (r : outcome unit) :
  segment.Close st = (r, st') →
  index.file (segment.index (snd st')) = index.file (segment.index (snd st)) ∧
  store.File (segment.store (snd st')) = store.File (segment.store (snd st)).
Proof.
  destruct st as [fs s].
  unfold segment.Close, segment.onIndex, segment.onStore, index.Close, store.Close,
    store.Flush, index.self, index.update, index.onFS, store.self, store.update,
    store.onFS, os_Truncate, File_Write.
  unmonad. cbn.
  repeat case_match; intros; simplify_eq; cbn; done.
Qed.

(** Removing a segment in working order deletes its two files. *)
Lemma seg_Remove_ok c fs s rs :
  config_ok c → seg_ok c fs s rs →
  ∃ s',
    segment.Remove (fs, s) =
      (Ok tt,
       (delete (segment.baseOffset s, ExtStore)
          (delete (segment.baseOffset s, ExtIndex)
             (<[(segment.baseOffset s, ExtStore) := store_bytes (Marshal <$> rs)]>
                (<[(segment.baseOffset s, ExtIndex) := index_bytes (Marshal <$> rs)]> fs))),
        s')) ∧
    segment.baseOffset s' = segment.baseOffset s ∧
    segment.nextOffset s' = segment.nextOffset s.
Proof.
  intros Hcfg Hok.
  destruct (seg_Close_ok c fs s rs Hcfg Hok) as (s' & EC & Hb' & Hn').
  destruct (segment_Close_names _ _ _ EC) as [Ni Ns]. cbn in Ni, Ns.
  pose proof Hok as [Kconfig Kbase Knext Knext_lt Koffsets Ksfile Ksclosed Kswerr
    Kscontent Kssize Ksbound Kifile Kiclosed Kisize Kmmap Kifits Kicontent].
  exists s'. split_and!; [|done|done].
  unfold segment.Remove. rewrite bind_unfold, EC.
  unfold segment.self, segment.onFS, index.Name, os_Remove. unmonad. cbn.
  rewrite Ni, Ns, Kifile, Ksfile.
  rewrite lookup_insert_ne, lookup_insert_eq by done. cbn.
  rewrite lookup_delete_ne, lookup_insert_eq by done. reflexivity.
Qed.

(** The tail of the loop of [Log.Truncate]: segments above the bound are
    kept. *)
Lemma truncate_loop_keep (lowest : Z) (ps : list Log.loc) :
  ∀ (kept : list Log.loc) (st : Log.state),
  (∀ p, p ∈ ps → ∃ s, Log.heap st !! p = Some s ∧
                      uint64 (lowest + 1) < segment.nextOffset s) →
  Log.truncate_loop lowest ps kept st = (Ok (kept ++ ps), st).
Proof.
  induction ps as [|p ps IH]; intros kept st Hall.
  - cbn. unmonad. by rewrite app_nil_r.
  - destruct (Hall p) as (s & Hs & Hlt); [left|].
    cbn. unmonad. rewrite (deref_Some _ _ _ Hs). zbool.
    rewrite IH; [by rewrite <- app_assoc|].
    intros q Hq. apply Hall. by right.
Qed.

(** The loop of [Log.Truncate] on a log in order removes a prefix of the
    segments: those whose next offset is at most the bound. *)
Lemma truncate_loop_ok c init segs ptrs lowest :
  config_ok c → length ptrs = length segs →
  ∀ d k kept st, (k + d = length segs)%nat →
    staged_ok c (Log.fs st) (Log.heap st) init segs ptrs
      (λ j, if decide (j < k)%nat then Gone else Open) →
    (∀ j, (j < k)%nat → init + count_before segs (S j) ≤ uint64 (lowest + 1)) →
    ∃ K st', (k ≤ K ≤ length segs)%nat ∧
      Log.truncate_loop lowest (drop k ptrs) kept st = (Ok (kept ++ drop K ptrs), st') ∧
      staged_ok c (Log.fs st') (Log.heap st') init segs ptrs
        (λ j, if decide (j < K)%nat then Gone else Open) ∧
      Log.log st' = Log.log st ∧
      (∀ j, (j < K)%nat → init + count_before segs (S j) ≤ uint64 (lowest + 1)) ∧
      (∀ j, (K ≤ j < length segs)%nat → uint64 (lowest + 1) < init + count_before segs (S j)).
Proof.
  intros Hcfg Hlen. induction d as [|d IH]; intros k kept st Hk Hst Hpre.
  - exists k, st. rewrite drop_ge by lia. split_and!; try done; [lia| |intros; lia].
    cbn. unmonad. by rewrite app_nil_r.
  - assert (k < length segs)%nat as Hklt by lia.
    destruct (lookup_lt_is_Some_2 segs k Hklt) as [rs Hrs].
    pose proof Hst as [Gp Gn Go Gd Gg Gf].
    destruct (Go k rs Hrs) as (p & s & Hp & Hs & Hso & Hb); [case_decide; [lia|done]|].
    assert (segment.nextOffset s = init + count_before segs (S k)) as Hnext.
    { rewrite (so_next _ _ _ _ Hso), Hb. rewrite (count_before_S _ _ _ Hrs). lia. }
    destruct (decide (segment.nextOffset s ≤ uint64 (lowest + 1))) as [Hrm|Hkeep].
    + destruct (seg_Remove_ok c (Log.fs st) s rs Hcfg Hso) as (s' & ER & Hb' & Hn').
      pose proof Hso as [Kconfig Kbase Knext Knext_lt Koffsets Ksfile Ksclosed Kswerr
        Kscontent Kssize Ksbound Kifile Kiclosed Kisize Kmmap Kifits Kicontent].
      destruct Kscontent as (sc & Hsc & _). destruct Kicontent as (tl & Hic & _).
      set (fs' := delete (segment.baseOffset s, ExtStore)
                    (delete (segment.baseOffset s, ExtIndex)
                       (<[(segment.baseOffset s, ExtStore) := store_bytes (Marshal <$> rs)]>
                          (<[(segment.baseOffset s, ExtIndex) := index_bytes (Marshal <$> rs)]>
                             (Log.fs st))))) in *.
      set (st1 := Log.mkState fs' (<[p := s']> (Log.heap st)) (Log.log st)).
      destruct (IH (S k) kept st1 ltac:(lia)) as (K & st' & HK & EL & Hst' & Hl' & Hlo & Hhi).
      { apply (staged_step c (Log.fs st) (Log.heap st) init segs ptrs _ _ _ ptrs _ k rs Hst Hrs).
        - intros [b e] Hn. cbn in Hn. unfold st1, fs'. cbn.
          rewrite !lookup_delete_ne, !lookup_insert_ne by (rewrite Hb; congruence). done.
        - intros n. unfold st1, fs'. cbn. rewrite !lookup_delete, !lookup_insert.
          repeat case_decide; subst; rewrite ?Hsc, ?Hic; eauto;
            try (intros [? [=]]).
        - intros j' Hne. cbn. repeat case_decide; done || lia.
        - done.
        - intros j' p' Hne _ Hp'. split; [done|]. unfold st1. cbn.
          apply list_lookup_insert_ne. intros ->. apply Hne.
          eapply NoDup_lookup; eauto.
        - cbn. case_decide; [|lia]. cbn. unfold st1, fs'. cbn. rewrite <- Hb.
          rewrite lookup_delete_eq, lookup_delete_ne, lookup_delete_eq by done. done. }
      { intros j Hj. destruct (decide (j = k)) as [->|]; [lia|]. apply Hpre. lia. }
      exists K, st'. split_and!; [lia|lia| |done|by rewrite Hl'|done|done].
      rewrite (drop_S _ _ _ Hp). cbn. unmonad.
      rewrite (deref_Some _ _ _ Hs). zbool.
      by rewrite (at_unfold _ _ _ _ _ _ _ Hs ER).
    + exists k, st. split_and!; [lia|lia| |done|done|done|].
      * apply truncate_loop_keep. intros q Hq.
        apply list_elem_of_lookup in Hq as [i Hi]. rewrite lookup_drop in Hi.
        assert (k + i < length segs)%nat as Hilt
          by (rewrite <- Hlen; by eapply lookup_lt_Some).
        destruct (lookup_lt_is_Some_2 segs (k + i) Hilt) as [rs' Hrs'].
        destruct (Go (k + i)%nat rs' Hrs') as (p' & s' & Hp' & Hs' & Hso' & Hb');
          [case_decide; [lia|done]|].
        rewrite Hi in Hp'. simplify_eq. exists s'. split; [done|].
        rewrite (so_next _ _ _ _ Hso'), Hb'.
        pose proof (count_before_S segs (k + i) rs' Hrs').
        pose proof (count_before_mono segs (S k) (S (k + i))).
        lia.
      * intros j Hj. pose proof (count_before_mono segs (S k) (S j)). lia.
Qed.

(** [Log.Truncate] on a log in order: a prefix of [K] segments goes, and
    what is left, when something is left, is a log in order that starts
    at the base of segment [K]. *)
Lemma log_Truncate_ok c st init segs lowest :
  config_ok c → log_ok c st init segs →
  ∃ K st', (K ≤ length segs)%nat ∧
    Log.Truncate lowest st = (Ok tt, st') ∧
    Log.segments (Log.log st') = drop K (Log.segments (Log.log st)) ∧
    (∀ j, (j < K)%nat → init + count_before segs (S j) ≤ uint64 (lowest + 1)) ∧
    (∀ j, (K ≤ j < length segs)%nat → uint64 (lowest + 1) < init + count_before segs (S j)) ∧
    ((K < length segs)%nat → log_ok c st' (init + count_before segs K) (drop K segs)).
Proof.
  intros Hcfg Hok. pose proof Hok as [Lc Li Lne La Ll Lnd Lsegs Lfiles].
  destruct (truncate_loop_ok c init segs (Log.segments (Log.log st)) lowest Hcfg Ll
              (length segs) 0%nat [] st eq_refl)
    as (K & st1 & HK & EL & Hst1 & Hl1 & Hlo & Hhi).
  { eapply staged_ext; [|by apply log_ok_staged]. done. }
  { intros j Hj. lia. }
  rewrite drop_0 in EL. cbn in EL.
  exists K, (Log.set_log (Log.mk (Log.Config_ (Log.log st1)) (Log.activeSegment (Log.log st1))
                           (drop K (Log.segments (Log.log st)))) st1).
  split_and!; [lia| |cbn; reflexivity|done|done|].
  - unfold Log.Truncate, Log.self. unmonad. cbn. rewrite EL. cbn. reflexivity.
  - intros HKlt. cbn. rewrite Hl1, Lc, La.
    apply (staged_log_ok c _ _ init segs _ K Hst1 Ll HKlt).
Qed.

Lemma at_Ok_inv {A} (p : Log.loc) (m : M segment.st A) (st st' : Log.state)
    (sg : segment.t) (x : A) :
  Log.heap st !! p = Some sg → Log.at_ p m st = (Ok x, st') →
  ∃ fs' sg', m (Log.fs st, sg) = (Ok x, (fs', sg')).
Proof.
  intros Hp. unfold Log.at_. rewrite Hp.
  destruct (m (Log.fs st, sg)) as [r [fs' sg']]. intros [= -> <-]. eauto.
Qed.

(** The offset a successful [Log.Append] returns is the next offset of
    the log, whatever the record. *)
Lemma log_Append_offset c st init segs r off st' :
  config_ok c → log_ok c st init segs →
  Log.Append r st = (Ok off, st') → off = init + len (concat segs).
Proof.
  intros Hcfg Hok.
  set (o := init + len (concat segs)) in *.
  destruct (log_last c st init segs Hok)
    as (rs & p & s & Hl & Hlp & Hp & Hrs & Hs & Hso & Hb & Hn).
  pose proof Hok as [Lc Li Lne La Ll Lnd Lsegs Lfiles].
  pose proof (len_nonneg (concat segs)) as Hcn.
  unfold Log.Append. rewrite (bind_Ok _ _ _ _ _ (log_highestOffset _ _ _ _ Hok)).
  unfold Log.self. unmonad. cbn. rewrite La, Hlp, (deref_Some _ _ _ Hs).
  destruct (segment.IsMaxed s) eqn:Hmax.
  - assert (rs ≠ []) as Hne.
    { intros ->. by rewrite (seg_empty_not_maxed _ _ _ Hcfg Hso) in Hmax. }
    destruct (log_newSegment_ok c st init segs rs Hcfg Hok Hl Hne) as (st1 & EN & Hok1).
    destruct (log_last c st1 init _ Hok1)
      as (rs1 & p1 & s1 & Hl1 & Hlp1 & Hp1 & Hrs1 & Hs1 & Hso1 & Hb1 & Hn1).
    rewrite concat_snoc_nil in Hn1. fold o in Hn1.
    fold o. pose proof (nonempty_len rs Hne).
    assert (0 < o) as Hopos.
    { destruct Hso. rewrite Hn in *. pose proof (count_before_nonneg segs (pred (length segs))).
      lia. }
    assert (o < 2 ^ 64) as Holt by (destruct Hso; lia).
    replace (o =? 0) with false by (symmetry; apply Z.eqb_neq; lia).
    replace (o - 1 + 1) with o by lia. rewrite uint64_id by lia.
    unfold o. rewrite EN. cbn.
    destruct Hok1 as [_ _ _ La1 _ _ _ _]. rewrite La1, Hlp1.
    intros EA. destruct (at_Ok_inv _ _ _ _ _ _ Hs1 EA) as (fs' & s' & EA').
    apply segment_Append_Ok_inv in EA' as [-> _]; [done|].
    destruct Hso1. congruence.
  - cbn. rewrite La, Hlp.
    intros EA. destruct (at_Ok_inv _ _ _ _ _ _ Hs EA) as (fs' & s' & EA').
    apply segment_Append_Ok_inv in EA' as [-> _]; [done|].
    destruct Hso. congruence.
Qed.

(** [Log.Read] on a log in order: the record at the offset, or the
    out-of-range error. *)
Lemma log_Read_cases c st init segs o :
  config_ok c → log_ok c st init segs →
  (∃ i r st', o = init + Z.of_nat i ∧ concat segs !! i = Some r ∧
              Log.Read o st = (Ok r, st') ∧ log_ok c st' init segs) ∨
  ((o < init ∨ init + len (concat segs) ≤ o) ∧
   Log.Read o st = (Err (ErrOffsetOutOfRange o), st)).
Proof.
  intros Hcfg Hok.
  destruct (decide (o < init ∨ init + len (concat segs) ≤ o)) as [Hout|Hin].
  - right. split; [done|]. by eapply log_Read_miss.
  - left. set (i := Z.to_nat (o - init)).
    assert (i < length (concat segs))%nat as Hi by (unfold len in *; lia).
    destruct (lookup_lt_is_Some_2 _ _ Hi) as [r Hr].
    destruct (log_Read_hit c st init segs i r Hcfg Hok Hr) as (st' & ER & Hok').
    exists i, r, st'. replace (init + Z.of_nat i) with o in ER by lia.
    split_and!; [lia|done|done|done].
Qed.

(** Every state the operations lead to is a log in order. *)
Lemma reachable_ok c st :
  config_ok (with_defaults c) → reachable c st →
  ∃ init segs, log_ok (with_defaults c) st init segs.
Proof.
  intros Hcfg Hr. induction Hr as
    [st0 st Hfs Hinit EN
    |st r off st' Hr IH EA Hlt Hpay
    |st o x st' Hr IH ER
    |st lowest st' Hr IH ET Hne
    |st st1 st2 Hr IH EC EN].
  - destruct (NewLog_fresh c st0 Hcfg Hfs Hinit) as (st' & EN' & Hok).
    rewrite EN in EN'. injection EN' as <-. eauto.
  - destruct IH as (init & segs & Hok).
    pose proof (log_Append_offset _ _ _ _ _ _ _ Hcfg Hok EA) as ->.
    destruct (log_Append_ok _ _ _ _ r Hcfg Hok Hpay Hlt) as (st'' & segs' & EA' & Hok' & _).
    rewrite EA in EA'. injection EA' as <-. eauto.
  - destruct IH as (init & segs & Hok).
    destruct (log_Read_cases _ _ _ _ o Hcfg Hok)
      as [(i & r & st'' & _ & _ & ER' & Hok')|[_ ER']].
    + rewrite ER in ER'. injection ER' as _ <-. eauto.
    + rewrite ER in ER'. injection ER' as _ <-. eauto.
  - destruct IH as (init & segs & Hok).
    destruct (log_Truncate_ok _ _ _ _ lowest Hcfg Hok)
      as (K & st'' & HK & ET' & Hsegs & _ & _ & Hok').
    rewrite ET in ET'. injection ET' as <-.
    destruct (decide (K < length segs)%nat) as [Hlt|Hge]; [eauto|].
    exfalso. apply Hne. rewrite Hsegs. apply drop_ge.
    destruct Hok. lia.
  - destruct IH as (init & segs & Hok).
    destruct (log_reopen c st init segs Hcfg Hok) as (st1' & st2' & EC' & EN' & Hok').
    rewrite EC in EC'. injection EC' as <-.
    rewrite EN in EN'. injection EN' as <-. eauto.
Qed.

End truncation.

(** ** What the reads see *)

Section observations.
Context `{SerializerLaws}.

Lemma concat_drop_lookup (segs : list (list Record_)) (K i : nat) :
  count_before segs K ≤ Z.of_nat i →
  concat (drop K segs) !! Z.to_nat (Z.of_nat i - count_before segs K) = concat segs !! i.
Proof.
  intros Hle.
  assert (concat segs = concat (take K segs) ++ concat (drop K segs)) as E
    by (by rewrite <- concat_app, take_drop).
  rewrite E. unfold count_before, len in *. rewrite lookup_app_r by lia. f_equal. lia.
Qed.

Lemma len_concat_drop (segs : list (list Record_)) (K : nat) :
  len (concat (drop K segs)) = len (concat segs) - count_before segs K.
Proof.
  assert (concat segs = concat (take K segs) ++ concat (drop K segs)) as E
    by (by rewrite <- concat_app, take_drop).
  rewrite E, len_app. unfold count_before. lia.
Qed.

(** Every segment of a log in order is one of [segs]. *)
Lemma log_pointer c st init segs p s :
  log_ok c st init segs →
  p ∈ Log.segments (Log.log st) → Log.heap st !! p = Some s →
  ∃ j rs, Log.segments (Log.log st) !! j = Some p ∧ segs !! j = Some rs ∧
          seg_ok c (Log.fs st) s rs ∧
          segment.baseOffset s = init + count_before segs j ∧
          segment.nextOffset s = init + count_before segs (S j).
Proof.
  intros Hok Hp Hs. pose proof Hok as [Lc Li Lne La Ll Lnd Lsegs Lfiles].
  apply list_elem_of_lookup in Hp as [j Hj].
  assert (j < length segs)%nat as Hlt by (rewrite <- Ll; by eapply lookup_lt_Some).
  destruct (lookup_lt_is_Some_2 segs j Hlt) as [rs Hrs].
  destruct (log_seg c st init segs Hok j rs Hrs) as (p' & s' & Hp' & Hs' & Hso & Hb & Hn & _).
  assert (p' = p) as -> by congruence. assert (s' = s) as -> by congruence.
  exists j, rs. done.
Qed.

Section after_truncate.
Variables (c : Config) (st st' : Log.state) (init : Z) (segs : list (list Record_)).
Variables (K : nat) (bound : Z).
Hypothesis Hcfg : config_ok c.
Hypothesis Hok : log_ok c st init segs.
Hypothesis Hsegs : Log.segments (Log.log st') = drop K (Log.segments (Log.log st)).
Hypothesis Hlo : ∀ j, (j < K)%nat → init + count_before segs (S j) ≤ bound.
Hypothesis Hhi : ∀ j, (K ≤ j < length segs)%nat → bound < init + count_before segs (S j).
Hypothesis Hok' : (K < length segs)%nat →
  log_ok c st' (init + count_before segs K) (drop K segs).

Lemma truncated_Read_hit (i : nat) (r : Record_) :
  concat segs !! i = Some r → count_before segs K ≤ Z.of_nat i →
  ∃ st2, Log.Read (init + Z.of_nat i) st' = (Ok r, st2).
Proof.
  intros Hi Hle.
  assert (K < length segs)%nat as HK.
  { destruct (decide (K < length segs)%nat); [done|]. exfalso.
    rewrite count_before_all in Hle by lia.
    apply lookup_lt_Some in Hi. unfold len in *. lia. }
  destruct (log_Read_hit c st' _ _ (Z.to_nat (Z.of_nat i - count_before segs K)) r
              Hcfg (Hok' HK)) as (st2 & ER & _).
  { by rewrite concat_drop_lookup. }
  exists st2. rewrite <- ER. f_equal. lia.
Qed.

Lemma truncated_Read_miss (o : Z) :
  o < init + count_before segs K ∨ init + len (concat segs) ≤ o →
  Log.Read o st' = (Err (ErrOffsetOutOfRange o), st').
Proof.
  intros Ho. destruct (decide (K < length segs)%nat) as [HK|HK].
  - apply (log_Read_miss c st' _ _ o (Hok' HK)).
    rewrite len_concat_drop. destruct Ho; [left|right]; lia.
  - unfold Log.Read, Log.self. unmonad. cbn. rewrite Hsegs, drop_ge; [done|].
    destruct Hok. lia.
Qed.

Lemma truncated_segments (p : Log.loc) (s : segment.t) :
  p ∈ Log.segments (Log.log st) → Log.heap st !! p = Some s →
  (p ∈ Log.segments (Log.log st') ↔ bound < segment.nextOffset s).
Proof.
  intros Hp Hs. pose proof Hok as [Lc Li Lne La Ll Lnd Lsegs Lfiles].
  destruct (log_pointer c st init segs p s Hok Hp Hs) as (j & rs & Hj & Hrs & _ & _ & Hn).
  assert (j < length segs)%nat as Hlt by (by eapply lookup_lt_Some).
  rewrite Hsegs, Hn. split.
  - intros Hin. apply list_elem_of_lookup in Hin as [i Hi]. rewrite lookup_drop in Hi.
    assert (j = (K + i)%nat) as -> by (eapply NoDup_lookup; eauto).
    apply Hhi. lia.
  - intros Hb. destruct (decide (j < K)%nat) as [HjK|HjK].
    + specialize (Hlo j HjK). lia.
    + apply list_elem_of_lookup. exists (j - K)%nat. rewrite lookup_drop.
      by replace (K + (j - K))%nat with j by lia.
Qed.

End after_truncate.

(** The last entry of the index of a segment in working order. *)
Lemma seg_index_last c fs s rs :
  config_ok c → seg_ok c fs s rs →
  ∃ pos, index.Read (-1) (fs, segment.index s) =
           (if len rs =? 0 then Err EOF else Ok (len rs - 1, pos), (fs, segment.index s)).
Proof.
  intros [Hcs Hci] [Kconfig Kbase Knext Knext_lt Koffsets Ksfile Ksclosed Kswerr
    Kscontent Kssize Ksbound Kifile Kiclosed Kisize Kmmap Kifits Kicontent].
  destruct Kicontent as (tail & Hic & Hicl).
  set (ps := Marshal <$> rs) in *. pose proof (len_nonneg rs) as Hrs.
  rewrite (index_Read_unfold fs (segment.index s) (-1) (index_bytes ps ++ tail))
    by (by rewrite Kifile).
  cbv zeta. rewrite Kisize, Kmmap.
  destruct (Z.eqb_spec (len rs) 0) as [E0|E0].
  - rewrite E0. change (12 * 0 =? 0) with true. cbn. by exists 0.
  - replace (12 * len rs =? 0) with false by (symmetry; apply Z.eqb_neq; lia).
    assert (entry_number (segment.index s) (-1) = len rs - 1) as ->.
    { rewrite entry_number_last; rewrite Kisize.
      - rewrite Z.mul_comm, Z.div_mul by lia. done.
      - lia.
      - rewrite Z.mul_comm, Z.div_mul by lia. lia. }
    rewrite Hicl. zbool. cbn.
    replace (len rs - 1) with (Z.of_nat (length rs - 1)) by (unfold len in *; lia).
    rewrite entry_index_bytes.
    + eauto.
    + unfold ps. rewrite length_fmap. unfold len in *. lia.
    + unfold len in *. lia.
    + pose proof (pos_of_le ps (length rs - 1)). lia.
Qed.

Lemma log_Close_ok c st init segs :
  config_ok c → log_ok c st init segs →
  ∃ st1, Log.Close st = (Ok tt, st1) ∧
         staged_ok c (Log.fs st1) (Log.heap st1) init segs (Log.segments (Log.log st))
           (λ _, Disk).
Proof.
  intros Hcfg Hok. pose proof Hok as [Lc Li Lne La Ll Lnd Lsegs Lfiles].
  destruct (close_all_ok c init segs (Log.segments (Log.log st)) Hcfg Ll
              (length segs) 0%nat st eq_refl) as (st1 & EC & Hst1 & Hl1).
  { eapply staged_ext; [|by apply log_ok_staged]. done. }
  rewrite drop_0 in EC. exists st1. split; [|done].
  unfold Log.Close, Log.self. unmonad. cbn. exact EC.
Qed.

Lemma uint64_succ (L : Z) :
  0 ≤ L < 2 ^ 64 → uint64 (L + 1) = L + 1 ∨ (L = 2 ^ 64 - 1 ∧ uint64 (L + 1) = 0).
Proof.
  intros HL. destruct (decide (L + 1 < 2 ^ 64)).
  - left. apply uint64_id. lia.
  - right. assert (L = 2 ^ 64 - 1) as -> by lia. split; [done|]. reflexivity.
Qed.

End observations.

(** ** C2: reads after a truncation *)

(** C2 (amended): [Truncate] works on whole segments.  On every log the
    operations lead to, [Truncate(L)] completes and removes exactly the
    segments whose next offset is at most [L + 1] (computed in uint64).
    Afterwards [Log.Read(o)] returns the record it returned before for
    every readable [o > L], and for every readable offset of a segment
    that stays; it returns the offset-out-of-range error for every
    offset that lies in no segment that stays. *)
Theorem Truncate_Read `{SerializerLaws} (c : Config) (st : Log.state) (L : Z) :
  config_ok (with_defaults c) → reachable c st → 0 ≤ L < 2 ^ 64 →
  ∃ st', Log.Truncate L st = (Ok tt, st') ∧
    (∀ p s, p ∈ Log.segments (Log.log st) → Log.heap st !! p = Some s →
       (p ∈ Log.segments (Log.log st') ↔ uint64 (L + 1) < segment.nextOffset s)) ∧
    (∀ p, p ∈ Log.segments (Log.log st') → p ∈ Log.segments (Log.log st)) ∧
    (∀ o r st1, Log.Read o st = (Ok r, st1) → L < o →
       ∃ st2, Log.Read o st' = (Ok r, st2)) ∧
    (∀ o r st1 p s, Log.Read o st = (Ok r, st1) →
       p ∈ Log.segments (Log.log st) → Log.heap st !! p = Some s →
       segment.baseOffset s ≤ o < segment.nextOffset s →
       uint64 (L + 1) < segment.nextOffset s →
       ∃ st2, Log.Read o st' = (Ok r, st2)) ∧
    (∀ o, (∀ p s, p ∈ Log.segments (Log.log st) → Log.heap st !! p = Some s →
                  segment.baseOffset s ≤ o < segment.nextOffset s →
                  segment.nextOffset s ≤ uint64 (L + 1)) →
       Log.Read o st' = (Err (ErrOffsetOutOfRange o), st')).
Proof.
  intros Hcfg Hr HL.
  destruct (reachable_ok c st Hcfg Hr) as (init & segs & Hok).
  destruct (log_Truncate_ok _ _ _ _ L Hcfg Hok) as (K & st' & HK & ET & Hsegs & Hlo & Hhi & Hok').
  pose proof Hok as [Lc Li Lne La Ll Lnd Lsegs Lfiles].
  assert (∀ o r st1, Log.Read o st = (Ok r, st1) →
            ∃ i j rs k, o = init + Z.of_nat i ∧ concat segs !! i = Some r ∧
                        segs !! j = Some rs ∧ rs !! k = Some r ∧
                        Z.of_nat i = count_before segs j + Z.of_nat k) as Hread.
  { intros o r st1 ER.
    destruct (log_Read_cases _ _ _ _ o Hcfg Hok)
      as [(i & r' & st'' & -> & Hi & ER' & _)|[_ ER']]; [|congruence].
    assert (r' = r) as -> by congruence.
    destruct (concat_locate _ _ _ Hi) as (j & rs & k & Hj & Hk & E).
    exists i, j, rs, k. done. }
  exists st'. split_and!.
  - done.
  - intros p s Hp Hs.
    by apply (truncated_segments _ st st' init segs K (uint64 (L + 1)) Hok Hsegs Hlo Hhi).
  - intros p Hp. rewrite Hsegs in Hp.
    apply list_elem_of_lookup in Hp as [i Hi]. rewrite lookup_drop in Hi.
    by eapply list_elem_of_lookup_2.
  - intros o r st1 ER HLo.
    destruct (Hread o r st1 ER) as (i & j & rs & k & -> & Hi & Hj & Hk & E).
    apply (truncated_Read_hit _ st' init segs K Hcfg Hok' i r Hi).
    destruct (decide (j < K)%nat) as [HjK|HjK].
    + exfalso. specialize (Hlo j HjK). rewrite (count_before_S _ _ _ Hj) in Hlo.
      apply lookup_lt_Some in Hk. unfold len in Hlo.
      destruct (uint64_succ L HL) as [E1|[_ E1]]; rewrite E1 in Hlo; lia.
    + pose proof (count_before_mono segs K j). lia.
  - intros o r st1 p s ER Hp Hs Ho Hb.
    destruct (Hread o r st1 ER) as (i & _ & _ & _ & -> & Hi & _).
    apply (truncated_Read_hit _ st' init segs K Hcfg Hok' i r Hi).
    destruct (log_pointer _ st init segs p s Hok Hp Hs) as (j & rs & Hj & Hrs & _ & Hbs & Hn).
    destruct (decide (j < K)%nat) as [HjK|HjK].
    + specialize (Hlo j HjK). lia.
    + pose proof (count_before_mono segs K j). lia.
  - intros o Hall.
    apply (truncated_Read_miss _ st st' init segs K Hok Hsegs Hok').
    destruct (decide (o < init ∨ init + len (concat segs) ≤ o)) as [[Ho|Ho]|Hin].
    + left. pose proof (count_before_nonneg segs K). lia.
    + by right.
    + left. set (i := Z.to_nat (o - init)).
      assert (i < length (concat segs))%nat as Hi by (unfold len in *; lia).
      destruct (lookup_lt_is_Some_2 _ _ Hi) as [r Hri].
      destruct (concat_locate _ _ _ Hri) as (j & rs & k & Hj & Hk & E).
      destruct (log_seg _ st init segs Hok j rs Hj) as (p & s & Hp & Hs & _ & Hb & Hn & _).
      apply lookup_lt_Some in Hk. pose proof (count_before_S _ _ _ Hj) as HS.
      unfold len in HS.
      assert (segment.nextOffset s ≤ uint64 (L + 1)) as Hrm.
      { apply (Hall p s); [by eapply list_elem_of_lookup_2|done|lia]. }
      destruct (decide (j < K)%nat) as [HjK|HjK].
      * pose proof (count_before_mono segs (S j) K). lia.
      * assert (K ≤ j < length segs)%nat as Hrange
          by (split; [lia|by eapply lookup_lt_Some]).
        specialize (Hhi j Hrange). lia.
Qed.

Lemma Truncate_Read_witness :
  let c := mkConfig 32 48 0 in
  let a := {| Value := [x61]; Offset := 0 |} in
  let st0 := snd (Log.NewLog c empty_state) in
  let st1 := snd (@Log.Append fixed_serializer a st0) in
  let st2 := snd (@Log.Append fixed_serializer a st1) in
  let st := snd (@Log.Append fixed_serializer a st2) in
  let L := 1 in
  ∃ st', Log.Truncate L st = (Ok tt, st') ∧
    (∀ p s, p ∈ Log.segments (Log.log st) → Log.heap st !! p = Some s →
       (p ∈ Log.segments (Log.log st') ↔ uint64 (L + 1) < segment.nextOffset s)) ∧
    (∀ p, p ∈ Log.segments (Log.log st') → p ∈ Log.segments (Log.log st)) ∧
    (∀ o r st1, @Log.Read fixed_serializer o st = (Ok r, st1) → L < o →
       ∃ st2, @Log.Read fixed_serializer o st' = (Ok r, st2)) ∧
    (∀ o r st1 p s, @Log.Read fixed_serializer o st = (Ok r, st1) →
       p ∈ Log.segments (Log.log st) → Log.heap st !! p = Some s →
       segment.baseOffset s ≤ o < segment.nextOffset s →
       uint64 (L + 1) < segment.nextOffset s →
       ∃ st2, @Log.Read fixed_serializer o st' = (Ok r, st2)) ∧
    (∀ o, (∀ p s, p ∈ Log.segments (Log.log st) → Log.heap st !! p = Some s →
                  segment.baseOffset s ≤ o < segment.nextOffset s →
                  segment.nextOffset s ≤ uint64 (L + 1)) →
       @Log.Read fixed_serializer o st' = (Err (ErrOffsetOutOfRange o), st')).
Proof.
  intros c a st0 st1 st2 st L.
  apply (@Truncate_Read fixed_serializer fixed_laws c st L).
  - vm_compute. split_and!; done.
  - apply (@reach_append fixed_serializer c st2 a 2 st).
    + apply (@reach_append fixed_serializer c st1 a 1 st2).
      * apply (@reach_append fixed_serializer c st0 a 0 st1).
        -- apply (@reach_new fixed_serializer c empty_state st0).
           ++ reflexivity.
           ++ vm_compute. split; [discriminate|reflexivity].
           ++ vm_compute. reflexivity.
        -- vm_compute. reflexivity.
        -- lia.
        -- vm_compute. discriminate.
      * vm_compute. reflexivity.
      * lia.
      * vm_compute. discriminate.
    + vm_compute. reflexivity.
    + lia.
    + vm_compute. discriminate.
  - unfold L. lia.
Defined.

(** C2 as stated fails inside a segment that stays: with offsets [0] and
    [1] in one segment, [Truncate(0)] removes nothing (the next offset
    [2] exceeds [0 + 1]) and [Log.Read(0)] still returns the record. *)
Lemma Truncate_Read_counterexample :
  let a := {| Value := [x61]; Offset := 0 |} in
  let st := snd ((Log.NewLog (mkConfig 0 0 0) ;;
                  @Log.Append fixed_serializer a ;;
                  @Log.Append fixed_serializer a) empty_state) in
  fst (Log.Truncate 0 st) = Ok tt ∧
  fst (@Log.Read fixed_serializer 0 (snd (Log.Truncate 0 st)))
  = Ok {| Value := [x61]; Offset := 0 |}.
Proof. vm_compute. split; reflexivity. Qed.

(** ** C5: closing and reopening *)

(** [index.Read] leaves the index and the directory as they are. *)
Lemma index_Read_state (in_ : Z) (st st' : index.st) (r : outcome (Z * Z)) :
  index.Read in_ st = (r, st') → st' = st.
Proof.
  destruct st as [fs i].
  unfold index.Read, index.self, index.mmap_get. unmonad. cbn.
  repeat case_match; intros; simplify_eq; done.
Qed.

(** How [newSegment] sets the next offset: from the last entry of the
    index it has just mapped, or to the base when the index is empty. *)
Lemma newSegment_nextOffset (b : Z) (c : Config) (fs fs' : FS) (s : segment.t) :
  segment.newSegment b c fs = (Ok s, fs') →
  segment.baseOffset s = b ∧
  segment.nextOffset s =
    match fst (index.Read (-1) (fs', segment.index s)) with
    | Ok (off, _) => uint64 (uint64 (b + off) + 1)
    | _ => b
    end.
Proof.
  unfold segment.newSegment, segment.update, segment.self, segment.onIndex.
  unmonad. cbn.
  destruct (store.newStore _ _) as [[st|e|] fs1]; cbn; [|done|done].
  destruct (index.newIndex _ _ _) as [[i|e|] fs2]; cbn; [|done|done].
  destruct (index.Read (-1) (fs2, i)) as [r [fs3 i3]] eqn:ER.
  pose proof (index_Read_state _ _ _ _ ER) as [= -> ->].
  destruct r as [[off pos]|e|]; cbn; [| |done].
  - intros [= <- <-]. cbn. by rewrite ER.
  - intros [= <- <-]. cbn. by rewrite ER.
Qed.

(** C5: on every log the operations lead to (in particular every log
    built by a sequence of appends), closing the log and opening the
    same directory with the same configuration succeed, and every offset
    that was readable returns the same record in the reopened log.
    Closing leaves every index file at its valid size; [newSegment]
    derives the next offset from the last entry of the index as
    [base + last_relative + 1] (in uint64), or [base] when the index is
    empty, and in the reopened log that sum does not wrap. *)
Theorem Reopen_round_trip `{SerializerLaws} (c : Config) (st : Log.state) :
  config_ok (with_defaults c) → reachable c st →
  ∃ st1 st2, Log.Close st = (Ok tt, st1) ∧ Log.NewLog c st1 = (Ok tt, st2) ∧
    (∀ o r st', Log.Read o st = (Ok r, st') → ∃ st'', Log.Read o st2 = (Ok r, st'')) ∧
    (∀ p s, p ∈ Log.segments (Log.log st) → Log.heap st !! p = Some s →
       ∃ x, Log.fs st1 !! index.Name (segment.index s) = Some x ∧
            len x = index.size (segment.index s)) ∧
    (∀ b fs fs' s, segment.newSegment b (with_defaults c) fs = (Ok s, fs') →
       segment.nextOffset s =
         match fst (index.Read (-1) (fs', segment.index s)) with
         | Ok (off, _) => uint64 (uint64 (b + off) + 1)
         | _ => b
         end) ∧
    (∀ p s, p ∈ Log.segments (Log.log st2) → Log.heap st2 !! p = Some s →
       segment.nextOffset s =
         match fst (index.Read (-1) (Log.fs st2, segment.index s)) with
         | Ok (off, _) => segment.baseOffset s + off + 1
         | _ => segment.baseOffset s
         end).
Proof.
  intros Hcfg Hr.
  destruct (reachable_ok c st Hcfg Hr) as (init & segs & Hok).
  destruct (log_reopen c st init segs Hcfg Hok) as (st1 & st2 & EC & EN & Hok2).
  destruct (log_Close_ok _ st init segs Hcfg Hok) as (st1' & EC' & Hdisk).
  assert (st1' = st1) as -> by congruence.
  exists st1, st2. split_and!; [done|done| | | |].
  - intros o r st' ER.
    destruct (log_Read_cases _ _ _ _ o Hcfg Hok)
      as [(i & r' & st'' & -> & Hi & ER' & _)|[_ ER']]; [|congruence].
    assert (r' = r) as -> by congruence.
    destruct (log_Read_hit _ st2 init segs i r Hcfg Hok2 Hi) as (st3 & ER3 & _). eauto.
  - intros p s Hp Hs.
    destruct (log_pointer _ st init segs p s Hok Hp Hs) as (j & rs & Hj & Hrs & Hso & Hb & Hn).
    destruct Hdisk as [Gp Gn Go Gd Gg Gf].
    destruct (Gd j rs Hrs eq_refl) as [_ Hix].
    exists (index_bytes (Marshal <$> rs)). unfold index.Name.
    rewrite (so_ifile _ _ _ _ Hso), Hb, (so_isize _ _ _ _ Hso).
    split; [done|]. by rewrite len_index_bytes, len_fmap.
  - intros b fs fs' s EO. by apply newSegment_nextOffset in EO as [_ ->].
  - intros p s Hp Hs.
    destruct (log_pointer _ st2 init segs p s Hok2 Hp Hs)
      as (j & rs & Hj & Hrs & Hso & Hb & Hn).
    destruct (seg_index_last _ _ s rs Hcfg Hso) as [pos ->].
    rewrite (so_next _ _ _ _ Hso). cbn.
    destruct (Z.eqb_spec (len rs) 0) as [E0|E0]; cbn; lia.
Qed.

Lemma Reopen_round_trip_witness :
  let c := mkConfig 32 48 0 in
  let a := {| Value := [x61]; Offset := 0 |} in
  let st0 := snd (Log.NewLog c empty_state) in
  let st1 := snd (@Log.Append fixed_serializer a st0) in
  let st2 := snd (@Log.Append fixed_serializer a st1) in
  let st := snd (@Log.Append fixed_serializer a st2) in
  ∃ st1 st2, Log.Close st = (Ok tt, st1) ∧ Log.NewLog c st1 = (Ok tt, st2) ∧
    (∀ o r st', @Log.Read fixed_serializer o st = (Ok r, st') →
       ∃ st'', @Log.Read fixed_serializer o st2 = (Ok r, st'')) ∧
    (∀ p s, p ∈ Log.segments (Log.log st) → Log.heap st !! p = Some s →
       ∃ x, Log.fs st1 !! index.Name (segment.index s) = Some x ∧
            len x = index.size (segment.index s)) ∧
    (∀ b fs fs' s, segment.newSegment b (with_defaults c) fs = (Ok s, fs') →
       segment.nextOffset s =
         match fst (index.Read (-1) (fs', segment.index s)) with
         | Ok (off, _) => uint64 (uint64 (b + off) + 1)
         | _ => b
         end) ∧
    (∀ p s, p ∈ Log.segments (Log.log st2) → Log.heap st2 !! p = Some s →
       segment.nextOffset s =
         match fst (index.Read (-1) (Log.fs st2, segment.index s)) with
         | Ok (off, _) => segment.baseOffset s + off + 1
         | _ => segment.baseOffset s
         end).
Proof.
  intros c a st0 st1 st2 st.
  apply (@Reopen_round_trip fixed_serializer fixed_laws c st).
  - vm_compute. split_and!; done.
  - apply (@reach_append fixed_serializer c st2 a 2 st).
    + apply (@reach_append fixed_serializer c st1 a 1 st2).
      * apply (@reach_append fixed_serializer c st0 a 0 st1).
        -- apply (@reach_new fixed_serializer c empty_state st0).
           ++ reflexivity.
           ++ vm_compute. split; [discriminate|reflexivity].
           ++ vm_compute. reflexivity.
        -- vm_compute. reflexivity.
        -- lia.
        -- vm_compute. discriminate.
      * vm_compute. reflexivity.
      * lia.
      * vm_compute. discriminate.
    + vm_compute. reflexivity.
    + lia.
    + vm_compute. discriminate.
Defined.

(** * Further properties of the code *)

(** ** store: what a reader finds after an append *)

(** X1: on an open store whose size field counts the bytes of its file
    and buffer, [Append(p)] followed by [Read] at the returned position
    gives [p] back, although the frame may still sit in the buffer:
    [Read] flushes first. *)
Theorem store_Append_then_Read (fs : FS) (s : store.t) (c p : bytes) :
  store.closed s = false → store.werr s = None → fs !! store.File s = Some c →
  store.size s = len (c ++ store.buf s) →
  store.size s + 8 + len p < 2 ^ 63 →
  ∃ st1 st2,
    store.Append p (fs, s) = (Ok (8 + len p, store.size s), st1) ∧
    store.Read (store.size s) st1 = (Ok p, st2) ∧
    fst st2 !! store.File s = Some (c ++ store.buf s ++ PutUint64 (len p) ++ p).
Proof.
  intros Hcl He Hf Hsz Hlt.
  pose proof (len_nonneg p) as Hp. pose proof (len_nonneg (c ++ store.buf s)) as Hc.
  destruct (store_Append_wf fs s p c Hcl He Hf) as (c' & b' & EA & Hcb).
  unfold lenWidth in EA.
  rewrite (uint64_id (len p + 8)) in EA by lia.
  rewrite (uint64_id (len p)) in Hcb by lia.
  rewrite (uint64_id (store.size s + _)) in EA by lia.
  eexists _, _. split_and!.
  - rewrite EA. by replace (8 + len p) with (len p + 8) by lia.
  - apply (store_Read_wf _ _ c' _ p (c ++ store.buf s) []); cbn; try done.
    + by rewrite lookup_insert_eq.
    + rewrite Hcb. unfold frame. by rewrite app_nil_r, <- ?app_assoc.
  - cbn. rewrite lookup_insert_eq, Hcb. by rewrite <- ?app_assoc.
Qed.

Lemma store_Append_then_Read_witness :
  let fs : FS := {[ (0, ExtStore) := [x01; x02] ]} in
  let s := store.mk (0, ExtStore) false [x03] None 3 in
  let p := [x61; x62] in
  ∃ st1 st2,
    store.Append p (fs, s) = (Ok (8 + len p, store.size s), st1) ∧
    store.Read (store.size s) st1 = (Ok p, st2) ∧
    fst st2 !! store.File s = Some ([x01; x02] ++ store.buf s ++ PutUint64 (len p) ++ p).
Proof.
  intros fs s p. apply (store_Append_then_Read fs s [x01; x02] p); try reflexivity.
Defined.

(** X2: [Read] at a position where no whole length prefix is left (at or
    past the end of what was appended) fails with [io.EOF]; the buffer
    has been flushed by then. *)
Theorem store_Read_past_end (fs : FS) (s : store.t) (c : bytes) (pos : Z) :
  store.closed s = false → store.werr s = None → fs !! store.File s = Some c →
  0 ≤ pos < 2 ^ 63 → len (c ++ store.buf s) < pos + 8 →
  store.Read pos (fs, s) =
    (Err EOF, (<[store.File s := c ++ store.buf s]> fs, store.set_buf [] s)).
Proof.
  intros Hcl He Hf Hpos Hlt.
  unfold store.Read. rewrite (bind_Ok _ _ _ _ _ (Flush_wf fs s c Hcl He Hf)).
  unfold store.self, store.onFS, File_ReadAt, lenWidth. unmonad. cbn.
  rewrite Hcl, lookup_insert_eq. rewrite (int64_id pos) by lia. zbool. reflexivity.
Qed.

Lemma store_Read_past_end_witness :
  let fs : FS := {[ (0, ExtStore) := [x01; x02] ]} in
  let s := store.mk (0, ExtStore) false [x03] None 3 in
  store.Read 3 (fs, s) =
    (Err EOF, (<[store.File s := [x01; x02] ++ store.buf s]> fs, store.set_buf [] s)).
Proof.
  intros fs s. apply (store_Read_past_end fs s [x01; x02] 3); try reflexivity.
  lia.
Defined.

(** X3: the error of the buffered writer is sticky.  Once a flush has
    failed, [Append], [Read], [ReadAt] and [Close] all return that error
    and change nothing: the store never recovers. *)
Theorem store_sticky_error (fs : FS) (s : store.t) (e : error) (p : bytes)
    (pos k off : Z) :
  store.werr s = Some e →
  store.Append p (fs, s) = (Err e, (fs, s)) ∧
  store.Read pos (fs, s) = (Err e, (fs, s)) ∧
  store.ReadAt k off (fs, s) = (Err e, (fs, s)) ∧
  store.Close (fs, s) = (Err e, (fs, s)).
Proof.
  intros He.
  assert (store.Flush (fs, s) = (Err e, (fs, s))) as EF.
  { unfold store.Flush, store.self. unmonad. cbn. by rewrite He. }
  assert (∀ q, store.Write q (fs, s) = (Err e, (fs, s))) as EW.
  { intros q. unfold store.Write, store.Write_turn, store.self. unmonad. cbn.
    rewrite He. rewrite bool_decide_eq_false_2 by done. rewrite andb_false_r. cbn.
    rewrite He. rewrite bool_decide_eq_false_2 by done. rewrite andb_false_r. cbn.
    by rewrite He. }
  split_and!.
  - unfold store.Append, store.self. unmonad. cbn. by rewrite EW.
  - unfold store.Read. unmonad. by rewrite EF.
  - unfold store.ReadAt. unmonad. by rewrite EF.
  - unfold store.Close. unmonad. by rewrite EF.
Qed.

Lemma store_sticky_error_witness :
  let fs : FS := {[ (0, ExtStore) := [x01; x02] ]} in
  let s := store.mk (0, ExtStore) true [x03] (Some ErrClosed) 3 in
  store.Append [x61] (fs, s) = (Err ErrClosed, (fs, s)) ∧
  store.Read 0 (fs, s) = (Err ErrClosed, (fs, s)) ∧
  store.ReadAt 1 0 (fs, s) = (Err ErrClosed, (fs, s)) ∧
  store.Close (fs, s) = (Err ErrClosed, (fs, s)).
Proof.
  intros fs s. apply (store_sticky_error fs s ErrClosed [x61] 0 1 0). reflexivity.
Defined.

(** X4: [Close] writes the buffer out, so the file holds every appended
    byte; afterwards a second [Close] fails with the closed-file error,
    and so does [Read] at every position that is a file offset.  A
    position of [2^63] or more is a negative [int64] offset, which
    [ReadAt] refuses before it looks at the file: [Read] returns that
    error instead. *)
Theorem store_Close_then (fs : FS) (s : store.t) (c : bytes) (pos : Z) :
  store.closed s = false → store.werr s = None → fs !! store.File s = Some c →
  ∃ st1,
    store.Close (fs, s) = (Ok tt, st1) ∧
    fst st1 !! store.File s = Some (c ++ store.buf s) ∧
    (∀ n, n ≠ store.File s → fst st1 !! n = fs !! n) ∧
    store.Read pos st1 =
      (Err (if int64 pos <? 0 then ErrNegativeOffset else ErrClosed), st1) ∧
    store.Close st1 = (Err ErrClosed, st1).
Proof.
  intros Hcl He Hf.
  eexists. split_and!.
  - unfold store.Close. rewrite (bind_Ok _ _ _ _ _ (Flush_wf fs s c Hcl He Hf)).
    unfold store.self, store.update. unmonad. cbn. rewrite Hcl. reflexivity.
  - cbn. by rewrite lookup_insert_eq.
  - intros n Hn. cbn. by rewrite lookup_insert_ne.
  - unfold store.Read, store.Flush, store.self, store.onFS, File_ReadAt, lenWidth.
    unmonad. cbn. rewrite He. change (len (@nil byte) =? 0) with true. cbn.
    destruct (int64 pos <? 0); reflexivity.
  - unfold store.Close, store.Flush, store.self. unmonad. cbn. rewrite He.
    change (len (@nil byte) =? 0) with true. cbn. reflexivity.
Qed.

Lemma store_Close_then_witness :
  let fs : FS := {[ (0, ExtStore) := [x01; x02] ]} in
  let s := store.mk (0, ExtStore) false [x03] None 3 in
  ∃ st1,
    store.Close (fs, s) = (Ok tt, st1) ∧
    fst st1 !! store.File s = Some ([x01; x02] ++ store.buf s) ∧
    (∀ n, n ≠ store.File s → fst st1 !! n = fs !! n) ∧
    store.Read (2 ^ 63) st1 =
      (Err (if int64 (2 ^ 63) <? 0 then ErrNegativeOffset else ErrClosed), st1) ∧
    store.Close st1 = (Err ErrClosed, st1).
Proof.
  intros fs s. apply (store_Close_then fs s [x01; x02] (2 ^ 63)); reflexivity.
Defined.

(** A write that fits the buffer only extends the buffer. *)
Lemma Write_buffered (fs : FS) (s : store.t) (q : bytes) :
  store.werr s = None → len (store.buf s) + len q ≤ defaultBufSize →
  store.Write q (fs, s) = (Ok tt, (fs, store.set_buf (store.buf s ++ q) s)).
Proof.
  intros He Hfit. unfold defaultBufSize in Hfit.
  unfold store.Write, store.Write_turn, store.self, store.update, store.Available,
    defaultBufSize.
  unmonad. cbn. zbool. cbn. zbool. cbn. by rewrite He.
Qed.

(** X5: [Append] on a closed store still reports success as long as the
    frame fits the writer's buffer: the bytes stay in the buffer, the
    file is untouched, and the flush that would write them fails. *)
Theorem store_Append_after_Close (fs : FS) (s : store.t) (p : bytes) :
  store.closed s = true → store.werr s = None →
  len (store.buf s) + 8 + len p ≤ defaultBufSize →
  store.size s + 8 + len p < 2 ^ 64 → 0 ≤ store.size s →
  ∃ s1,
    store.Append p (fs, s) = (Ok (8 + len p, store.size s), (fs, s1)) ∧
    store.buf s1 = store.buf s ++ PutUint64 (len p) ++ p ∧
    store.size s1 = store.size s + 8 + len p ∧
    fst (store.Flush (fs, s1)) = Err ErrClosed.
Proof.
  intros Hcl He Hfit Hsz Hs0.
  pose proof (len_nonneg p) as Hp. pose proof (len_nonneg (store.buf s)) as Hb.
  unfold defaultBufSize in Hfit.
  eexists. split_and!.
  - unfold store.Append. unfold store.self at 1. unmonad. cbn.
    rewrite Write_buffered; [|done|rewrite len_PutUint64; unfold defaultBufSize; lia].
    rewrite Write_buffered;
      [|done|cbn; rewrite len_app, len_PutUint64; unfold defaultBufSize; lia].
    unfold store.update, lenWidth. cbn.
    rewrite (uint64_id (len p)) by lia. rewrite (uint64_id (len p + 8)) by lia.
    rewrite (uint64_id (store.size s + _)) by lia.
    replace (len p + 8) with (8 + len p) by lia. reflexivity.
  - cbn. by rewrite <- app_assoc.
  - cbn. lia.
  - unfold store.Flush, store.self, store.update, store.onFS, File_Write. unmonad. cbn.
    rewrite He. rewrite !len_app, len_PutUint64. zbool. cbn. rewrite Hcl. reflexivity.
Qed.

Lemma store_Append_after_Close_witness :
  let fs : FS := {[ (0, ExtStore) := [x01; x02] ]} in
  let s := store.mk (0, ExtStore) true [] None 2 in
  let p := [x61] in
  ∃ s1,
    store.Append p (fs, s) = (Ok (8 + len p, store.size s), (fs, s1)) ∧
    store.buf s1 = store.buf s ++ PutUint64 (len p) ++ p ∧
    store.size s1 = store.size s + 8 + len p ∧
    fst (store.Flush (fs, s1)) = Err ErrClosed.
Proof.
  intros fs s p. apply (store_Append_after_Close fs s p); try reflexivity.
  - vm_compute. discriminate.
  - vm_compute. discriminate.
Defined.

(** ** index: entries written and read back *)

Lemma slice_take_drop {A} (lo hi : Z) (l : list A) :
  0 ≤ lo → slice lo hi l = drop (Z.to_nat lo) (take (Z.to_nat hi) l).
Proof.
  intros Hlo. unfold slice. destruct (decide (lo ≤ hi)) as [Hle|Hgt].
  - rewrite take_drop_commute. f_equal. f_equal. lia.
  - replace (Z.to_nat (hi - lo)) with 0%nat by lia. cbn.
    symmetry. apply drop_ge. rewrite length_take. lia.
Qed.

Lemma slice_prefix {A} (lo hi : Z) (l l' : list A) :
  0 ≤ lo → take (Z.to_nat hi) l = take (Z.to_nat hi) l' → slice lo hi l = slice lo hi l'.
Proof. intros Hlo E. rewrite !slice_take_drop by done. by rewrite E. Qed.

Lemma entry_spliced (ic : bytes) (k off pos : Z) :
  0 ≤ k → 12 * k + 12 ≤ len ic → 0 ≤ off < 2 ^ 32 → 0 ≤ pos < 2 ^ 64 →
  entry (take (Z.to_nat (12 * k)) ic ++ ientry off pos ++ drop (Z.to_nat (12 * k + 12)) ic) k
  = (off, pos).
Proof.
  intros Hk Hl Hoff Hpos. unfold entry, ientry.
  assert (len (take (Z.to_nat (12 * k)) ic) = 12 * k) as Ht.
  { unfold len in *. rewrite length_take. lia. }
  f_equal.
  - rewrite <- !app_assoc.
    rewrite (slice_app_mid' _ (PutUint32 off)); rewrite ?len_PutUint32; try lia.
    rewrite Uint32_PutUint32. by apply uint32_id.
  - rewrite <- !app_assoc. rewrite (app_assoc (take _ ic) (PutUint32 off)).
    rewrite (slice_app_mid' _ (PutUint64 pos));
      rewrite ?len_app, ?len_PutUint32, ?len_PutUint64; try lia.
    rewrite Uint64_PutUint64. by apply uint64_id.
Qed.

Lemma entry_before_splice (ic mid : bytes) (k j : Z) :
  0 ≤ j < k → 12 * k ≤ len ic →
  entry (take (Z.to_nat (12 * k)) ic ++ mid) j = entry ic j.
Proof.
  intros Hj Hl. unfold entry.
  assert (∀ hi, 0 ≤ hi ≤ 12 * k →
            take (Z.to_nat hi) (take (Z.to_nat (12 * k)) ic ++ mid)
            = take (Z.to_nat hi) ic) as Ht.
  { intros hi Hhi. rewrite take_app_le by (rewrite length_take; unfold len in *; lia).
    rewrite take_take. f_equal. lia. }
  f_equal; f_equal; apply slice_prefix; try lia; apply Ht; lia.
Qed.

(** X6: an entry written to an index with room is what [Read] returns
    for its number and for [-1] (the last entry), and the entries
    written before are read as before. *)
Theorem index_Write_then_Read (fs : FS) (i : index.t) (ic : bytes) (k off pos : Z) :
  fs !! index.file i = Some ic →
  index.size i = 12 * k → 0 ≤ k < 2 ^ 32 →
  12 * k + 12 ≤ index.mmap i → index.mmap i ≤ len ic → index.mmap i < 2 ^ 64 →
  0 ≤ off < 2 ^ 32 → 0 ≤ pos < 2 ^ 64 →
  ∃ st',
    index.Write off pos (fs, i) = (Ok tt, st') ∧
    index.size (snd st') = 12 * k + 12 ∧
    index.Read k st' = (Ok (off, pos), st') ∧
    index.Read (-1) st' = (Ok (off, pos), st') ∧
    ∀ j, 0 ≤ j < k → fst (index.Read j st') = fst (index.Read j (fs, i)).
Proof.
  intros Hic Hsz Hk Hm Hl H64 Hoff Hpos.
  pose proof (index_Write_wf fs i ic off pos Hic ltac:(lia) ltac:(lia) Hl H64) as EW.
  rewrite Hsz in EW.
  set (c' := take (Z.to_nat (12 * k)) ic ++ ientry off pos
             ++ drop (Z.to_nat (12 * k + 12)) ic) in *.
  set (fs' := <[index.file i := c']> fs) in *.
  set (i' := index.set_size (12 * k + 12) i) in *.
  assert (fs' !! index.file i' = Some c') as Hc' by (unfold fs'; cbn; by rewrite lookup_insert_eq).
  assert (len c' = len ic) as Hlc.
  { unfold c'. rewrite !len_app, len_ientry. unfold len in *.
    rewrite length_take, length_drop. lia. }
  assert (index.Read k (fs', i') = (Ok (off, pos), (fs', i'))) as ERk.
  { rewrite (index_Read_unfold fs' i' k c' Hc'). cbv zeta.
    rewrite entry_number_nonneg by lia. rewrite Z.mod_small by lia.
    cbn [index.size index.mmap i' index.set_size]. rewrite Hlc. zbool. cbn.
    unfold c'. rewrite entry_spliced by lia. reflexivity. }
  exists (fs', i'). split_and!; [done|done|done| |].
  - rewrite <- ERk.
    rewrite (index_Read_unfold fs' i' (-1) c' Hc'), (index_Read_unfold fs' i' k c' Hc').
    cbv zeta. rewrite entry_number_last; cbn [index.size i' index.set_size].
    + rewrite entry_number_nonneg by lia. rewrite (Z.mod_small k) by lia.
      replace ((12 * k + 12) / 12 - 1) with k; [done|].
      replace (12 * k + 12) with ((k + 1) * 12) by lia. rewrite Z.div_mul by lia. lia.
    + lia.
    + replace (12 * k + 12) with ((k + 1) * 12) by lia. rewrite Z.div_mul by lia. lia.
  - intros j Hj.
    rewrite (index_Read_unfold fs' i' j c' Hc'), (index_Read_unfold fs i j ic Hic).
    cbv zeta. rewrite !entry_number_nonneg by lia. rewrite (Z.mod_small j) by lia.
    cbn [index.size index.mmap i' index.set_size]. rewrite Hsz, Hlc. zbool. cbn.
    unfold c'. rewrite (entry_before_splice ic _ k j) by lia. reflexivity.
Qed.

Lemma index_Write_then_Read_witness :
  let fs : FS := {[ (0, ExtIndex) := PutUint32 0 ++ PutUint64 7 ++ replicate 12 x00 ]} in
  let i := index.mk (0, ExtIndex) false 24 12 in
  ∃ st',
    index.Write 1 25 (fs, i) = (Ok tt, st') ∧
    index.size (snd st') = 12 * 1 + 12 ∧
    index.Read 1 st' = (Ok (1, 25), st') ∧
    index.Read (-1) st' = (Ok (1, 25), st') ∧
    ∀ j, 0 ≤ j < 1 → fst (index.Read j st') = fst (index.Read j (fs, i)).
Proof.
  intros fs i.
  apply (index_Write_then_Read fs i (PutUint32 0 ++ PutUint64 7 ++ replicate 12 x00) 1 1 25);
    try reflexivity; try lia; vm_compute; try done; split; done.
Defined.

(** X7: opening an index over a file no longer than [MaxIndexBytes]
    grows the file to [MaxIndexBytes] for the mapping and keeps its
    length as the index's size; [Close] cuts the file back, so the
    directory is as it was before the index was opened.  A second
    [Close] fails. *)
Theorem index_open_Close (f : fname) (cfg : Config) (fs : FS) (c : bytes) :
  fs !! f = Some c →
  len c ≤ MaxIndexBytes (Segment cfg) → 0 < MaxIndexBytes (Segment cfg) < 2 ^ 63 →
  ∃ i fs1 x,
    index.newIndex f cfg fs = (Ok i, fs1) ∧
    index.size i = len c ∧ index.mmap i = MaxIndexBytes (Segment cfg) ∧
    fs1 !! f = Some (c ++ x) ∧ len (c ++ x) = MaxIndexBytes (Segment cfg) ∧
    index.Close (fs1, i) = (Ok tt, (fs, index.set_closed true i)) ∧
    index.Close (fs, index.set_closed true i) = (Err ErrClosed, (fs, index.set_closed true i)).
Proof.
  intros Hf Hle HM. pose proof (len_nonneg c) as Hc.
  rewrite (newIndex_ok f cfg fs c Hf Hle HM).
  eexists _, _, _. split_and!; [reflexivity|reflexivity|reflexivity| | | |].
  - by rewrite lookup_insert_eq.
  - rewrite len_app, len_replicate. lia.
  - unfold index.Close, index.self, index.update, index.onFS, os_Truncate.
    unmonad. cbn. rewrite int64_id by lia. zbool. rewrite lookup_insert_eq. cbn.
    rewrite insert_insert_eq.
    assert (resize (len c) (c ++ replicate (Z.to_nat (MaxIndexBytes (Segment cfg) - len c)) x00)
            = c) as ->.
    { unfold resize, len. rewrite Nat2Z.id, take_app_length, length_app.
      replace (length c - _)%nat with 0%nat by lia. apply app_nil_r. }
    by rewrite insert_id.
  - unfold index.Close, index.self. unmonad. cbn. reflexivity.
Qed.

Lemma index_open_Close_witness :
  let f := (0, ExtIndex) in
  let cfg := mkConfig 1024 24 0 in
  let c := PutUint32 0 ++ PutUint64 7 in
  let fs : FS := {[ f := c ]} in
  ∃ i fs1 x,
    index.newIndex f cfg fs = (Ok i, fs1) ∧
    index.size i = len c ∧ index.mmap i = MaxIndexBytes (Segment cfg) ∧
    fs1 !! f = Some (c ++ x) ∧ len (c ++ x) = MaxIndexBytes (Segment cfg) ∧
    index.Close (fs1, i) = (Ok tt, (fs, index.set_closed true i)) ∧
    index.Close (fs, index.set_closed true i) = (Err ErrClosed, (fs, index.set_closed true i)).
Proof.
  intros f cfg c fs. apply (index_open_Close f cfg fs c).
  - reflexivity.
  - vm_compute. discriminate.
  - vm_compute. split; reflexivity.
Defined.

(** ** segment: failures of [Append] and [Read] *)

(** X8: [segment.Append] does not undo the store write when the index
    write fails.  On a segment whose index has no room while its store
    is open, [Append] returns [io.EOF] and leaves [nextOffset] and the
    index as they were, but the frame of the record has been appended to
    the store and the store's size has grown by it. *)
Theorem segment_Append_full_index `{Serializer} (fs : FS) (s : segment.t)
    (r : Record_) (c : bytes) :
  let p := Marshal (stamp (segment.nextOffset s) r) in
  store.closed (segment.store s) = false → store.werr (segment.store s) = None →
  fs !! store.File (segment.store s) = Some c →
  index.isMaxed (segment.index s) = true →
  0 ≤ store.size (segment.store s) →
  store.size (segment.store s) + 8 + len p < 2 ^ 64 →
  ∃ fs' st',
    segment.Append r (fs, s) = (Err EOF, (fs', segment.set_store st' s)) ∧
    store.size st' = store.size (segment.store s) + 8 + len p ∧
    store.contents (fs', st') =
      Some (c ++ store.buf (segment.store s) ++ PutUint64 (len p) ++ p).
Proof.
  intros p Hcl He Hf Hfull Hs0 Hlt. pose proof (len_nonneg p) as Hp.
  destruct (store_Append_wf fs (segment.store s) p c Hcl He Hf) as (c' & b' & EA & Hcb).
  unfold lenWidth in EA.
  rewrite (uint64_id (len p + 8)) in EA by lia.
  rewrite (uint64_id (len p)) in Hcb by lia.
  rewrite (uint64_id (_ + _)) in EA by lia.
  eexists _, _. split_and!.
  - unfold segment.Append, segment.self, segment.onStore, segment.onIndex. unmonad. cbn.
    fold (stamp (segment.nextOffset s) r). fold p. rewrite EA. cbn.
    rewrite index_Write_full by done. cbn. reflexivity.
  - cbn. lia.
  - unfold store.contents. cbn. rewrite lookup_insert_eq. cbn. by rewrite Hcb.
Qed.

Lemma segment_Append_full_index_witness :
  let fs : FS := {[ (0, ExtIndex) := PutUint32 0 ++ PutUint64 0;
                    (0, ExtStore) := PutUint64 9 ++ PutUint64 0 ++ [x61] ]} in
  let s := segment.mk (store.mk (0, ExtStore) false [] None 17)
                      (index.mk (0, ExtIndex) false 12 12) 0 1 (mkConfig 1024 12 0) in
  let r := {| Value := [x62]; Offset := 0 |} in
  let p := @Marshal fixed_serializer (stamp (segment.nextOffset s) r) in
  ∃ fs' st',
    @segment.Append fixed_serializer r (fs, s) = (Err EOF, (fs', segment.set_store st' s)) ∧
    store.size st' = store.size (segment.store s) + 8 + len p ∧
    store.contents (fs', st') =
      Some ((PutUint64 9 ++ PutUint64 0 ++ [x61]) ++ store.buf (segment.store s)
            ++ PutUint64 (len p) ++ p).
Proof.
  intros fs s r p.
  apply (@segment_Append_full_index fixed_serializer fs s r
           (PutUint64 9 ++ PutUint64 0 ++ [x61])); try reflexivity.
  - vm_compute. discriminate.
Defined.

(** X9: [segment.Read] at an offset at or past the segment's entries
    (and less than [2^32] above its base) fails with [io.EOF] from the
    index, without touching the store. *)
Theorem segment_Read_past_entries `{Serializer} (fs : FS) (s : segment.t) (off : Z) :
  segment.baseOffset s ≤ off < segment.baseOffset s + 2 ^ 32 →
  0 ≤ index.size (segment.index s) ≤ 12 * (off - segment.baseOffset s) →
  segment.Read off (fs, s) = (Err EOF, (fs, s)).
Proof.
  intros Hoff Hsz.
  unfold segment.Read, segment.self, segment.onIndex, index.Read, index.self,
    entWidth, offWidth, posWidth.
  unmonad. cbn.
  destruct (index.size (segment.index s) =? 0) eqn:E0; cbn; [by destruct s|].
  set (k := off - segment.baseOffset s) in *.
  rewrite (uint64_id k) by lia. rewrite (int64_id k) by lia.
  replace (k =? -1) with false by (symmetry; apply Z.eqb_neq; lia).
  rewrite (uint32_id k) by lia. replace (4 + 8) with 12 by lia.
  rewrite (uint64_id (k * 12)) by lia. rewrite (uint64_id (k * 12 + 12)) by lia.
  zbool. cbn. by destruct s.
Qed.

Lemma segment_Read_past_entries_witness :
  let fs : FS := {[ (0, ExtIndex) := PutUint32 0 ++ PutUint64 0;
                    (0, ExtStore) := PutUint64 9 ++ PutUint64 0 ++ [x61] ]} in
  let s := segment.mk (store.mk (0, ExtStore) false [] None 17)
                      (index.mk (0, ExtIndex) false 12 12) 0 1 (mkConfig 1024 12 0) in
  @segment.Read fixed_serializer 1 (fs, s) = (Err EOF, (fs, s)).
Proof.
  intros fs s. apply (@segment_Read_past_entries fixed_serializer fs s 1).
  - vm_compute. split; [discriminate|reflexivity].
  - vm_compute. split; discriminate.
Defined.

(** ** Log: what every log in order answers *)

Section log_facts.
Context `{SerializerLaws}.

Lemma log_LowestOffset c st init segs :
  log_ok c st init segs → Log.LowestOffset st = (Ok init, st).
Proof.
  intros Hok. pose proof Hok as [Lc Li Lne La Ll Lnd Lsegs Lfiles].
  destruct segs as [|rs0 segs']; [done|].
  destruct (log_seg c st init _ Hok 0%nat rs0 eq_refl) as (p & s & Hp & Hs & _ & Hb & _).
  unfold Log.LowestOffset, Log.self. unmonad. cbn.
  destruct (Log.segments (Log.log st)) as [|p0 ps]; [done|].
  cbn in Hp. injection Hp as ->.
  rewrite (deref_Some _ _ _ Hs). cbn. rewrite Hb, count_before_0. do 2 f_equal. lia.
Qed.

Lemma log_offset_field c st init segs i r :
  log_ok c st init segs → concat segs !! i = Some r → Offset r = init + Z.of_nat i.
Proof.
  intros Hok Hi. destruct (concat_locate _ _ _ Hi) as (j & rs & k & Hj & Hk & E).
  pose proof (log_ok_segs c st init segs Hok) as [_ _ _ Poff _ _ _].
  rewrite (Poff j rs k r Hj Hk). lia.
Qed.

(** What [Log.Read] returns depends on the records only. *)
Lemma log_Read_fst c st st' init segs o :
  config_ok c → log_ok c st init segs → log_ok c st' init segs →
  fst (Log.Read o st') = fst (Log.Read o st).
Proof.
  intros Hcfg Hok Hok'.
  destruct (log_Read_cases c st init segs o Hcfg Hok)
    as [(i & r & st1 & -> & Hi & ER & _)|[Hout ER]]; rewrite ER.
  - destruct (log_Read_hit c st' init segs i r Hcfg Hok' Hi) as (st2 & ER' & _).
    by rewrite ER'.
  - by rewrite (log_Read_miss c st' init segs o Hok' Hout).
Qed.

Lemma log_next_lt c st init segs :
  log_ok c st init segs → init + len (concat segs) < 2 ^ 64.
Proof.
  intros Hok. destruct (log_last c st init segs Hok)
    as (rs & p & s & _ & _ & _ & _ & _ & Hso & _ & Hn).
  destruct Hso. lia.
Qed.

End log_facts.

Lemma example_log_reachable : @reachable fixed_serializer example_config example_log.
Proof.
  apply (@reach_append fixed_serializer _ example_log2 example_record 2 example_log).
  - apply (@reach_append fixed_serializer _ example_log1 example_record 1 example_log2).
    + apply (@reach_append fixed_serializer _ example_log0 example_record 0 example_log1).
      * apply (@reach_new fixed_serializer _ empty_state example_log0).
        -- reflexivity.
        -- vm_compute. split; [discriminate|reflexivity].
        -- vm_compute. reflexivity.
      * vm_compute. reflexivity.
      * lia.
      * vm_compute. discriminate.
    + vm_compute. reflexivity.
    + lia.
    + vm_compute. discriminate.
  - vm_compute. reflexivity.
  - lia.
  - vm_compute. discriminate.
Qed.

Lemma example_config_ok : config_ok (with_defaults example_config).
Proof. vm_compute. split_and!; done. Qed.

(** X10: the readable offsets of a log are one interval.  On every log
    the operations lead to there are [lo <= nx] such that
    [LowestOffset] returns [lo], [HighestOffset] returns [nx - 1] (or
    [0] when [nx = 0]), a successful [Append] returns [nx], [Read]
    succeeds exactly on [lo <= o < nx], with a record whose offset
    field is [o], and every other offset gets the out-of-range error
    with the state unchanged. *)
Theorem Log_readable_range `{SerializerLaws} (c : Config) (st : Log.state) :
  config_ok (with_defaults c) → reachable c st →
  ∃ lo nx, 0 ≤ lo ≤ nx ∧ nx < 2 ^ 64 ∧
    Log.LowestOffset st = (Ok lo, st) ∧
    Log.HighestOffset st = (Ok (if nx =? 0 then 0 else nx - 1), st) ∧
    (∀ r off st', Log.Append r st = (Ok off, st') → off = nx) ∧
    (∀ o, lo ≤ o < nx → ∃ r st', Log.Read o st = (Ok r, st') ∧ Offset r = o) ∧
    (∀ o, ¬ (lo ≤ o < nx) → Log.Read o st = (Err (ErrOffsetOutOfRange o), st)).
Proof.
  intros Hcfg Hr.
  destruct (reachable_ok c st Hcfg Hr) as (init & segs & Hok).
  pose proof (len_nonneg (concat segs)) as Hlen.
  exists init, (init + len (concat segs)). split_and!.
  - by destruct Hok.
  - lia.
  - by eapply log_next_lt.
  - by eapply log_LowestOffset.
  - unfold Log.HighestOffset. by eapply log_highestOffset.
  - intros r off st' EA. by eapply log_Append_offset.
  - intros o Ho.
    destruct (log_Read_cases _ st init segs o Hcfg Hok)
      as [(i & r & st1 & -> & Hi & ER & _)|[Hout ER]]; [|lia].
    exists r, st1. split; [done|]. by eapply log_offset_field.
  - intros o Ho. apply (log_Read_miss _ st init segs o Hok). lia.
Qed.

Lemma Log_readable_range_witness :
  ∃ lo nx, 0 ≤ lo ≤ nx ∧ nx < 2 ^ 64 ∧
    Log.LowestOffset example_log = (Ok lo, example_log) ∧
    Log.HighestOffset example_log = (Ok (if nx =? 0 then 0 else nx - 1), example_log) ∧
    (∀ r off st', @Log.Append fixed_serializer r example_log = (Ok off, st') → off = nx) ∧
    (∀ o, lo ≤ o < nx →
       ∃ r st', @Log.Read fixed_serializer o example_log = (Ok r, st') ∧ Offset r = o) ∧
    (∀ o, ¬ (lo ≤ o < nx) →
       @Log.Read fixed_serializer o example_log = (Err (ErrOffsetOutOfRange o), example_log)).
Proof.
  apply (@Log_readable_range fixed_serializer fixed_laws example_config example_log).
  - vm_compute. split_and!; done.
  - exact example_log_reachable.
Defined.

(** X11: [Read] does not disturb the log.  Whatever it returns, the
    segment list and the active segment are the same afterwards, and
    every later [Read], [LowestOffset] and [HighestOffset] returns what
    it would have returned before (although [Read] may have flushed a
    store's buffer to its file). *)
Theorem Log_Read_leaves_log `{SerializerLaws} (c : Config) (st st' : Log.state)
    (o : Z) (x : outcome Record_) :
  config_ok (with_defaults c) → reachable c st →
  Log.Read o st = (x, st') →
  Log.log st' = Log.log st ∧
  (∀ o', fst (Log.Read o' st') = fst (Log.Read o' st)) ∧
  fst (Log.LowestOffset st') = fst (Log.LowestOffset st) ∧
  fst (Log.HighestOffset st') = fst (Log.HighestOffset st) ∧
  (∀ n, is_Some (Log.fs st' !! n) ↔ is_Some (Log.fs st !! n)).
Proof.
  intros Hcfg Hr ER.
  destruct (reachable_ok c st Hcfg Hr) as (init & segs & Hok).
  assert (log_ok (with_defaults c) st' init segs ∧ Log.log st' = Log.log st ∧
          (∀ n, is_Some (Log.fs st' !! n) ↔ is_Some (Log.fs st !! n))) as (Hok' & Hl & Hd).
  { destruct (concat segs !! Z.to_nat (o - init)) as [r|] eqn:Hi.
    - destruct (decide (o < init ∨ init + len (concat segs) ≤ o)) as [Hout|Hin].
      + rewrite (log_Read_miss _ st init segs o Hok Hout) in ER. by injection ER as _ <-.
      + destruct (concat_locate _ _ _ Hi) as (j & rs & k & Hj & Hk & E).
        destruct (log_seg _ st init segs Hok j rs Hj) as (p & s & Hp & Hs & Hso & Hb & Hn & _).
        destruct (seg_Read_ok _ (Log.fs st) s rs k r Hcfg Hso Hk)
          as (fs' & s' & ERs & Hso' & Hb' & Hn' & Hfr & Hdom).
        assert (Log.find_segment o (Log.segments (Log.log st)) st = (Ok (Some p), st)) as EF.
        { apply (find_segment_hit _ st init segs Hok j rs p); [done|done|].
          apply lookup_lt_Some in Hk. rewrite (count_before_S _ _ _ Hj). unfold len. lia. }
        unfold Log.Read, Log.self in ER. unmonad. cbn in ER. rewrite EF in ER.
        replace o with (segment.baseOffset s + Z.of_nat k) in ER by lia.
        rewrite (at_unfold _ _ _ _ _ _ _ Hs ERs) in ER. injection ER as _ <-.
        split_and!; [|done|done].
        pose proof (log_ok_update _ st init segs j p s rs fs' s' rs Hcfg Hok Hp Hj Hs
                      Hso' Hb' Hfr Hdom (or_introl eq_refl)) as K.
        by rewrite (list_insert_id segs j rs Hj) in K.
    - apply lookup_ge_None in Hi.
      rewrite (log_Read_miss _ st init segs o Hok) in ER by (unfold len; lia).
      by injection ER as _ <-. }
  split_and!; [done| | | |done].
  - intros o'. by eapply log_Read_fst.
  - by rewrite (log_LowestOffset _ _ _ _ Hok), (log_LowestOffset _ _ _ _ Hok').
  - unfold Log.HighestOffset.
    by rewrite (log_highestOffset _ _ _ _ Hok), (log_highestOffset _ _ _ _ Hok').
Qed.

Lemma Log_Read_leaves_log_witness :
  let st' := snd (@Log.Read fixed_serializer 1 example_log) in
  Log.log st' = Log.log example_log ∧
  (∀ o', fst (@Log.Read fixed_serializer o' st')
         = fst (@Log.Read fixed_serializer o' example_log)) ∧
  fst (Log.LowestOffset st') = fst (Log.LowestOffset example_log) ∧
  fst (Log.HighestOffset st') = fst (Log.HighestOffset example_log) ∧
  (∀ n, is_Some (Log.fs st' !! n) ↔ is_Some (Log.fs example_log !! n)).
Proof.
  intros st'.
  apply (@Log_Read_leaves_log fixed_serializer fixed_laws example_config example_log st' 1
           (fst (@Log.Read fixed_serializer 1 example_log))).
  - vm_compute. split_and!; done.
  - exact example_log_reachable.
  - apply surjective_pairing.
Defined.

(** X12: a log only grows by appending.  On every log the operations
    lead to, with room left in the offset range, [Append] succeeds; the
    offset it returns is the one after [HighestOffset] (or [0] on an
    empty log that starts at 0) and becomes the new [HighestOffset];
    [Read] at it returns the record under that offset; every record that
    could be read before is read unchanged; [LowestOffset] stays. *)
Theorem Log_Append_extends `{SerializerLaws} (c : Config) (st : Log.state)
    (r : Record_) (h : Z) :
  config_ok (with_defaults c) → reachable c st →
  Log.HighestOffset st = (Ok h, st) → h + 2 < 2 ^ 64 →
  (∀ o, payload_ok (with_defaults c) (Marshal (stamp o r))) →
  ∃ off st',
    Log.Append r st = (Ok off, st') ∧ reachable c st' ∧
    (off = h + 1 ∨ (off = 0 ∧ h = 0)) ∧
    (∃ st'', Log.Read off st' = (Ok (stamp off r), st'')) ∧
    (∀ o x st1, Log.Read o st = (Ok x, st1) → ∃ st2, Log.Read o st' = (Ok x, st2)) ∧
    Log.HighestOffset st' = (Ok off, st') ∧
    fst (Log.LowestOffset st') = fst (Log.LowestOffset st).
Proof.
  intros Hcfg Hr Hh Hlt Hpay.
  destruct (reachable_ok c st Hcfg Hr) as (init & segs & Hok).
  pose proof (len_nonneg (concat segs)) as Hlen.
  assert (0 ≤ init) as Hi0 by (by destruct Hok).
  set (nx := init + len (concat segs)) in *.
  unfold Log.HighestOffset in Hh. rewrite (log_highestOffset _ _ _ _ Hok) in Hh.
  fold nx in Hh. injection Hh as Hh.
  assert (nx + 1 < 2 ^ 64 ∧ (nx = h + 1 ∨ (nx = 0 ∧ h = 0))) as [Hnx Hoff].
  { destruct (Z.eqb_spec nx 0); lia. }
  destruct (log_Append_ok _ st init segs r Hcfg Hok (Hpay _) Hnx)
    as (st' & segs' & EA & Hok' & Hc').
  fold nx in EA, Hc'.
  exists nx, st'. split_and!; try done.
  - by apply (reach_append c st r nx st').
  - destruct (log_Read_hit _ st' init segs' (length (concat segs)) (stamp nx r) Hcfg Hok')
      as (st'' & ER & _).
    { rewrite Hc'. by rewrite lookup_app_r, Nat.sub_diag. }
    exists st''. exact ER.
  - intros o x st1 ER.
    destruct (log_Read_cases _ st init segs o Hcfg Hok)
      as [(i & x' & st1' & -> & Hi & ER' & _)|[_ ER']]; [|congruence].
    assert (x' = x) as -> by congruence.
    destruct (log_Read_hit _ st' init segs' i x Hcfg Hok') as (st2 & ER2 & _).
    { rewrite Hc'. by apply lookup_app_l_Some. }
    eauto.
  - unfold Log.HighestOffset. rewrite (log_highestOffset _ _ _ _ Hok'), Hc'.
    rewrite len_app. fold nx. change (len [stamp nx r]) with 1.
    replace (init + (len (concat segs) + 1)) with (nx + 1) by (unfold nx; lia).
    replace (nx + 1 =? 0) with false by (symmetry; apply Z.eqb_neq; lia).
    do 2 f_equal. lia.
  - by rewrite (log_LowestOffset _ _ _ _ Hok), (log_LowestOffset _ _ _ _ Hok').
Qed.

Lemma Log_Append_extends_witness :
  let r := {| Value := [x62; x63]; Offset := 7 |} in
  ∃ off st',
    @Log.Append fixed_serializer r example_log = (Ok off, st') ∧
    @reachable fixed_serializer example_config st' ∧
    (off = 2 + 1 ∨ (off = 0 ∧ 2 = 0)) ∧
    (∃ st'', @Log.Read fixed_serializer off st' = (Ok (stamp off r), st'')) ∧
    (∀ o x st1, @Log.Read fixed_serializer o example_log = (Ok x, st1) →
       ∃ st2, @Log.Read fixed_serializer o st' = (Ok x, st2)) ∧
    Log.HighestOffset st' = (Ok off, st') ∧
    fst (Log.LowestOffset st') = fst (Log.LowestOffset example_log).
Proof.
  intros r.
  apply (@Log_Append_extends fixed_serializer fixed_laws example_config example_log r 2).
  - vm_compute. split_and!; done.
  - exact example_log_reachable.
  - vm_compute. reflexivity.
  - lia.
  - intros o. unfold payload_ok. cbn. unfold fixed_Marshal.
    rewrite len_app, len_PutUint64. vm_compute. discriminate.
Defined.

(** X13: what [Truncate] leaves.  When [Truncate(L)] on a log the
    operations lead to leaves a segment, [HighestOffset] and the active
    segment are as before, [LowestOffset] has not decreased and, if it
    moved, is at most [L + 1]; the directory holds exactly the files it
    held whose base offset is at least the new [LowestOffset]. *)
Theorem Log_Truncate_effects `{SerializerLaws} (c : Config) (st st' : Log.state) (L : Z) :
  config_ok (with_defaults c) → reachable c st → 0 ≤ L < 2 ^ 64 →
  Log.Truncate L st = (Ok tt, st') → Log.segments (Log.log st') ≠ [] →
  ∃ lo lo',
    Log.LowestOffset st = (Ok lo, st) ∧ Log.LowestOffset st' = (Ok lo', st') ∧
    lo ≤ lo' ∧ (lo' = lo ∨ lo' ≤ L + 1) ∧
    fst (Log.HighestOffset st') = fst (Log.HighestOffset st) ∧
    Log.activeSegment (Log.log st') = Log.activeSegment (Log.log st) ∧
    (∀ n, is_Some (Log.fs st' !! n) ↔ is_Some (Log.fs st !! n) ∧ lo' ≤ fst n).
Proof.
  intros Hcfg Hr HL ET Hne.
  destruct (reachable_ok c st Hcfg Hr) as (init & segs & Hok).
  destruct (log_Truncate_ok _ _ _ _ L Hcfg Hok)
    as (K & st'' & HK & ET' & Hsegs & Hlo & Hhi & Hok').
  rewrite ET in ET'. injection ET' as <-.
  pose proof Hok as [Lc Li Lne La Ll Lnd Lsegs Lfiles].
  assert (K < length segs)%nat as HKlt.
  { destruct (decide (K < length segs)%nat); [done|]. exfalso. apply Hne.
    rewrite Hsegs. apply drop_ge. lia. }
  specialize (Hok' HKlt).
  pose proof (count_before_nonneg segs K) as HcK.
  exists init, (init + count_before segs K). split_and!.
  - by eapply log_LowestOffset.
  - by eapply log_LowestOffset.
  - lia.
  - destruct K as [|K']; [left; rewrite count_before_0; lia|right].
    specialize (Hlo K' ltac:(lia)).
    destruct (uint64_succ L HL) as [E|[_ E]]; rewrite E in Hlo; lia.
  - unfold Log.HighestOffset.
    rewrite (log_highestOffset _ _ _ _ Hok), (log_highestOffset _ _ _ _ Hok').
    rewrite len_concat_drop.
    by replace (init + count_before segs K + (len (concat segs) - count_before segs K))
      with (init + len (concat segs)) by lia.
  - pose proof Hok' as [_ _ _ La' _ _ _ _]. rewrite La', La, Hsegs. apply last_drop. lia.
  - intros n. split.
    + intros Hn. pose proof Hok' as [_ _ _ _ _ _ _ Lfiles'].
      destruct (Lfiles' n Hn) as (j' & Hj' & E).
      rewrite length_drop in Hj'. rewrite count_before_drop in E.
      assert (K + j' < length segs)%nat as Hj by lia.
      destruct (lookup_lt_is_Some_2 segs _ Hj) as [rs Hrs].
      destruct (log_seg _ st init segs Hok _ rs Hrs) as (p & s & _ & _ & Hso & Hb & _).
      split.
      * destruct n as [b e]. cbn in E. assert (b = segment.baseOffset s) as -> by lia.
        destruct e.
        -- destruct (so_scontent _ _ _ _ Hso) as (sc & Hsc & _). by rewrite Hsc.
        -- destruct (so_icontent _ _ _ _ Hso) as (tl & Hic & _). by rewrite Hic.
      * pose proof (count_before_mono segs K (K + j')). lia.
    + intros [Hn Hle]. destruct (Lfiles n Hn) as (j & Hj & E).
      destruct (lookup_lt_is_Some_2 segs _ Hj) as [rs Hrs].
      assert (K ≤ j)%nat as HKj.
      { destruct (decide (K ≤ j)%nat); [done|]. exfalso.
        pose proof (segs_base_lt _ init segs j K rs (log_ok_segs _ _ _ _ Hok) Hrs
                      ltac:(lia) HKlt). lia. }
      assert (drop K segs !! (j - K)%nat = Some rs) as Hrs'.
      { rewrite lookup_drop. by replace (K + (j - K))%nat with j by lia. }
      destruct (log_seg _ st' _ _ Hok' _ rs Hrs') as (p & s & _ & _ & Hso & Hb & _).
      rewrite count_before_drop in Hb. replace (K + (j - K))%nat with j in Hb by lia.
      destruct n as [b e]. cbn in E. assert (b = segment.baseOffset s) as -> by lia.
      destruct e.
      * destruct (so_scontent _ _ _ _ Hso) as (sc & Hsc & _). by rewrite Hsc.
      * destruct (so_icontent _ _ _ _ Hso) as (tl & Hic & _). by rewrite Hic.
Qed.

Lemma Log_Truncate_effects_witness :
  let st' := snd (Log.Truncate 1 example_log) in
  ∃ lo lo',
    Log.LowestOffset example_log = (Ok lo, example_log) ∧
    Log.LowestOffset st' = (Ok lo', st') ∧
    lo ≤ lo' ∧ (lo' = lo ∨ lo' ≤ 1 + 1) ∧
    fst (Log.HighestOffset st') = fst (Log.HighestOffset example_log) ∧
    Log.activeSegment (Log.log st') = Log.activeSegment (Log.log example_log) ∧
    (∀ n, is_Some (Log.fs st' !! n) ↔ is_Some (Log.fs example_log !! n) ∧ lo' ≤ fst n).
Proof.
  intros st'.
  apply (@Log_Truncate_effects fixed_serializer fixed_laws example_config example_log st' 1).
  - vm_compute. split_and!; done.
  - exact example_log_reachable.
  - lia.
  - vm_compute. reflexivity.
  - vm_compute. discriminate.
Defined.

(** X14: [Truncate(L)] changes nothing at all when every segment ends
    above [L + 1]. *)
Theorem Log_Truncate_nothing (st : Log.state) (L : Z) :
  (∀ p, p ∈ Log.segments (Log.log st) →
        ∃ s, Log.heap st !! p = Some s ∧ uint64 (L + 1) < segment.nextOffset s) →
  Log.Truncate L st = (Ok tt, st).
Proof.
  intros Hall. unfold Log.Truncate, Log.self. unmonad. cbn.
  rewrite (truncate_loop_keep L _ [] st Hall). cbn.
  by destruct st as [fs heap [c a ps]].
Qed.

Lemma Log_Truncate_nothing_witness :
  Log.Truncate 0 example_log = (Ok tt, example_log).
Proof.
  apply (Log_Truncate_nothing example_log 0).
  intros p Hp. vm_compute in Hp.
  apply elem_of_cons in Hp as [->|Hp]; [|apply elem_of_cons in Hp as [->|Hp]].
  - eexists. split; [vm_compute; reflexivity|]. vm_compute. reflexivity.
  - eexists. split; [vm_compute; reflexivity|]. vm_compute. reflexivity.
  - by apply elem_of_nil in Hp.
Defined.

(** X15: the segments of a log tile its offset range.  On every log the
    operations lead to, the segment list is not empty and repeats no
    segment, the active segment is the last one, and every segment has
    [baseOffset <= nextOffset < 2^64] and an index of exactly
    [12 * (nextOffset - baseOffset)] bytes, within [MaxIndexBytes];
    a segment that is followed by another holds at least one record,
    and the next segment starts at its [nextOffset]. *)
Theorem Log_segments_tile `{SerializerLaws} (c : Config) (st : Log.state) :
  config_ok (with_defaults c) → reachable c st →
  Log.segments (Log.log st) ≠ [] ∧ NoDup (Log.segments (Log.log st)) ∧
  Log.activeSegment (Log.log st) = last (Log.segments (Log.log st)) ∧
  (∀ j p, Log.segments (Log.log st) !! j = Some p →
     ∃ s, Log.heap st !! p = Some s ∧
       segment.config s = with_defaults c ∧
       0 ≤ segment.baseOffset s ≤ segment.nextOffset s ∧ segment.nextOffset s < 2 ^ 64 ∧
       index.size (segment.index s) = 12 * (segment.nextOffset s - segment.baseOffset s) ∧
       index.size (segment.index s) ≤ MaxIndexBytes (Segment (with_defaults c)) ∧
       ∀ q, Log.segments (Log.log st) !! S j = Some q →
         ∃ t, Log.heap st !! q = Some t ∧
              segment.baseOffset s < segment.nextOffset s ∧
              segment.baseOffset t = segment.nextOffset s).
Proof.
  intros Hcfg Hr.
  destruct (reachable_ok c st Hcfg Hr) as (init & segs & Hok).
  pose proof Hok as [Lc Li Lne La Ll Lnd Lsegs Lfiles].
  split_and!; [|done|done|].
  - intros E. rewrite E in Ll. by destruct segs.
  - intros j p Hp.
    assert (j < length segs)%nat as Hj by (rewrite <- Ll; by eapply lookup_lt_Some).
    destruct (lookup_lt_is_Some_2 segs j Hj) as [rs Hrs].
    destruct (log_seg _ st init segs Hok j rs Hrs) as (p' & s & Hp' & Hs & Hso & Hb & Hn & Hne).
    assert (p' = p) as -> by congruence.
    pose proof (len_nonneg rs) as Hlen.
    pose proof Hso as [Kconfig Kbase Knext Knext_lt Koffsets Ksfile Ksclosed Kswerr
      Kscontent Kssize Ksbound Kifile Kiclosed Kisize Kmmap Kifits Kicontent].
    exists s. split_and!; [done|done|done|lia|lia| |lia|].
    + rewrite Kisize. f_equal. lia.
    + intros q Hq.
      assert (S j < length segs)%nat as HSj by (rewrite <- Ll; by eapply lookup_lt_Some).
      destruct (lookup_lt_is_Some_2 segs (S j) HSj) as [rs' Hrs'].
      destruct (log_seg _ st init segs Hok (S j) rs' Hrs')
        as (q' & t & Hq' & Ht & _ & Hbt & _).
      assert (q' = q) as -> by congruence.
      exists t. split_and!; [done| |lia].
      pose proof (nonempty_len rs (Hne HSj)). lia.
Qed.

Lemma Log_segments_tile_witness :
  let st := example_log in
  Log.segments (Log.log st) ≠ [] ∧ NoDup (Log.segments (Log.log st)) ∧
  Log.activeSegment (Log.log st) = last (Log.segments (Log.log st)) ∧
  (∀ j p, Log.segments (Log.log st) !! j = Some p →
     ∃ s, Log.heap st !! p = Some s ∧
       segment.config s = with_defaults example_config ∧
       0 ≤ segment.baseOffset s ≤ segment.nextOffset s ∧ segment.nextOffset s < 2 ^ 64 ∧
       index.size (segment.index s) = 12 * (segment.nextOffset s - segment.baseOffset s) ∧
       index.size (segment.index s) ≤ MaxIndexBytes (Segment (with_defaults example_config)) ∧
       ∀ q, Log.segments (Log.log st) !! S j = Some q →
         ∃ t, Log.heap st !! q = Some t ∧
              segment.baseOffset s < segment.nextOffset s ∧
              segment.baseOffset t = segment.nextOffset s).
Proof.
  apply (@Log_segments_tile fixed_serializer fixed_laws example_config example_log).
  - vm_compute. split_and!; done.
  - exact example_log_reachable.
Defined.

(** ** Log: after [Close] *)

Lemma Flush_Ok_state (fs fs' : FS) (s s' : store.t) :
  store.Flush (fs, s) = (Ok tt, (fs', s')) →
  s' = store.mk (store.File s) (store.closed s) [] None (store.size s).
Proof.
  unfold store.Flush, store.self, store.update, store.onFS, File_Write. unmonad. cbn.
  destruct (store.werr s) eqn:He; [done|].
  destruct (len (store.buf s) =? 0) eqn:E0.
  - intros [= <- <-]. apply Z.eqb_eq in E0. apply len_0_nil in E0.
    destruct s. cbn in *. by subst.
  - destruct (store.closed s) eqn:Hc; cbn; [done|].
    destruct (fs !! store.File s); cbn; [|done].
    intros [= <- <-]. unfold store.set_buf. cbn. by rewrite Hc, He.
Qed.

(** What a successful [segment.Close] leaves of the segment. *)
Lemma segment_Close_Ok_inv (fs fs' : FS) (s s' : segment.t) :
  segment.Close (fs, s) = (Ok tt, (fs', s')) → s' = closed_segment s.
Proof.
  unfold segment.Close, segment.onIndex, segment.onStore. unmonad. cbn.
  destruct (index.Close (fs, segment.index s)) as [[[]|e|] [fs1 i1]] eqn:EI; cbn; [|done|done].
  assert (i1 = index.set_closed true (segment.index s)) as ->.
  { revert EI. unfold index.Close, index.self, index.update, index.onFS. unmonad. cbn.
    destruct (index.closed (segment.index s)); cbn; [done|].
    destruct (os_Truncate _ _ fs) as [[[]|e|] fs2]; cbn; [|done|done].
    by intros [= <- <-]. }
  unfold store.Close. unmonad.
  destruct (store.Flush (fs1, _)) as [[[]|e|] [fs2 s2]] eqn:EF; cbn; [|done|done].
  apply Flush_Ok_state in EF. cbn in EF. subst s2.
  unfold store.self, store.update. cbn.
  destruct (store.closed (segment.store s)); cbn; [done|].
  intros [= <- <-]. reflexivity.
Qed.

(** The segments [Log.Close] has gone through are closed; the others are
    as they were. *)
Lemma close_all_heap (ps : list Log.loc) :
  NoDup ps → ∀ st st', Log.close_all ps st = (Ok tt, st') →
  Log.log st' = Log.log st ∧
  (∀ p s, p ∈ ps → Log.heap st !! p = Some s →
          Log.heap st' !! p = Some (closed_segment s)) ∧
  (∀ p, p ∉ ps → Log.heap st' !! p = Log.heap st !! p).
Proof.
  induction 1 as [|p ps Hnin Hnd IH]; intros st st'.
  - cbn. unmonad. intros [= <-]. split_and!; try done.
    intros p s Hp. by apply elem_of_nil in Hp.
  - cbn. unmonad. unfold Log.at_ at 1.
    destruct (Log.heap st !! p) as [sg|] eqn:Hp; [|done].
    destruct (segment.Close (Log.fs st, sg)) as [[[]|e|] [fs1 sg1]] eqn:EC; [|done|done].
    apply segment_Close_Ok_inv in EC as ->.
    intros EL. destruct (IH _ _ EL) as (Hl & Hin & Hout). cbn in *.
    split_and!; [done| |].
    + intros q s Hq Hs. apply elem_of_cons in Hq as [->|Hq].
      * rewrite (Hout p Hnin). assert (s = sg) as -> by congruence.
        apply list_lookup_insert_eq. by eapply lookup_lt_Some.
      * apply Hin; [done|]. rewrite list_lookup_insert_ne; [done|]. by intros ->.
    + intros q Hq. rewrite not_elem_of_cons in Hq. destruct Hq as [Hqp Hq].
      rewrite (Hout q Hq). by apply list_lookup_insert_ne.
Qed.

(** The scan of [Log.Read] looks at the offsets of the segments only. *)
Lemma find_segment_offsets (o : Z) (ps : list Log.loc) (st st' : Log.state) :
  (∀ p, p ∈ ps → ∃ s s', Log.heap st !! p = Some s ∧ Log.heap st' !! p = Some s' ∧
                         segment.baseOffset s' = segment.baseOffset s ∧
                         segment.nextOffset s' = segment.nextOffset s) →
  ∀ x, Log.find_segment o ps st = (Ok x, st) → Log.find_segment o ps st' = (Ok x, st').
Proof.
  induction ps as [|p ps IH]; intros Hall x.
  - cbn. unmonad. by intros [= <-].
  - destruct (Hall p) as (s & s' & Hs & Hs' & Hb & Hn); [left|].
    cbn. unmonad. rewrite (deref_Some _ _ _ Hs), (deref_Some _ _ _ Hs'), Hb, Hn.
    destruct (_ && _); [by intros [= <-]|].
    apply IH. intros q Hq. apply Hall. by right.
Qed.

Section after_close.
Context `{SerializerLaws}.

Lemma closed_segment_Read c fs s rs k r :
  config_ok c → seg_ok c fs s rs → rs !! k = Some r →
  ∀ fs1 : FS,
  fs1 !! (segment.baseOffset s, ExtIndex) = Some (index_bytes (Marshal <$> rs)) →
  segment.Read (segment.baseOffset s + Z.of_nat k) (fs1, closed_segment s)
  = (Err ErrClosed, (fs1, closed_segment s)).
Proof.
  intros [Hcs Hci] Hso Hk fs1 Hix.
  pose proof Hso as [Kconfig Kbase Knext Knext_lt Koffsets Ksfile Ksclosed Kswerr
    Kscontent Kssize Ksbound Kifile Kiclosed Kisize Kmmap Kifits Kicontent].
  set (ps := Marshal <$> rs) in *.
  pose proof (lookup_lt_Some _ _ _ Hk) as Hklt.
  assert (len (index_bytes ps) = 12 * len rs) as Hli.
  { unfold ps. by rewrite len_index_bytes, len_fmap. }
  unfold segment.Read, segment.self, segment.onIndex, segment.onStore. unmonad. cbn.
  replace (segment.baseOffset s + Z.of_nat k - segment.baseOffset s) with (Z.of_nat k) by lia.
  rewrite (uint64_id (Z.of_nat k)) by (unfold len in *; lia).
  rewrite (int64_id (Z.of_nat k)) by (unfold len in *; lia).
  rewrite (index_Read_unfold fs1 _ _ (index_bytes ps)) by (cbn; by rewrite Kifile).
  cbv zeta. rewrite entry_number_nonneg by lia.
  rewrite Z.mod_small by (unfold len in *; lia).
  cbn [index.size index.mmap index.set_closed]. rewrite Kisize, Kmmap, Hli.
  unfold len in *. zbool. cbn.
  rewrite <- (app_nil_r (index_bytes ps)).
  rewrite entry_index_bytes;
    [|unfold ps; rewrite length_fmap; lia|lia|
     pose proof (pos_of_le ps k); unfold len in *; lia].
  cbn. unfold store.Read, store.Flush, store.self, store.onFS, File_ReadAt, lenWidth.
  unmonad. cbn.
  change (len (@nil byte) =? 0) with true. cbn.
  pose proof (pos_of_le ps k) as Hple. pose proof (pos_of_nonneg ps k) as Hp0.
  unfold len in Hple. rewrite (int64_id (pos_of ps k)) by lia. zbool. reflexivity.
Qed.

Lemma state_insert_id (st : Log.state) (p : Log.loc) (s : segment.t) :
  Log.heap st !! p = Some s →
  Log.mkState (Log.fs st) (<[p := s]> (Log.heap st)) (Log.log st) = st.
Proof. intros Hs. rewrite list_insert_id by done. by destruct st. Qed.

End after_close.

(** X16: a closed log cannot be read or closed again.  After a
    successful [Close] of a log the operations lead to, a second [Close]
    fails with the closed-file error, and so does [Read] at every offset
    that was readable; an offset that was out of range still is;
    [LowestOffset] and [HighestOffset] answer as before.  None of these
    calls changes anything. *)
Theorem Log_use_after_Close `{SerializerLaws} (c : Config) (st st1 : Log.state) :
  config_ok (with_defaults c) → reachable c st →
  Log.Close st = (Ok tt, st1) →
  Log.Close st1 = (Err ErrClosed, st1) ∧
  (∀ o r st', Log.Read o st = (Ok r, st') → Log.Read o st1 = (Err ErrClosed, st1)) ∧
  (∀ o st', Log.Read o st = (Err (ErrOffsetOutOfRange o), st') →
            Log.Read o st1 = (Err (ErrOffsetOutOfRange o), st1)) ∧
  Log.LowestOffset st1 = (fst (Log.LowestOffset st), st1) ∧
  Log.HighestOffset st1 = (fst (Log.HighestOffset st), st1).
Proof.
  intros Hcfg Hr EC.
  destruct (reachable_ok c st Hcfg Hr) as (init & segs & Hok).
  pose proof Hok as [Lc Li Lne La Ll Lnd Lsegs Lfiles].
  destruct (log_Close_ok _ st init segs Hcfg Hok) as (st1' & EC' & Hdisk).
  assert (st1' = st1) as -> by congruence.
  pose proof EC as EA. unfold Log.Close, Log.self in EA. unmonad. cbn in EA.
  destruct (close_all_heap _ Lnd _ _ EA) as (Hl1 & Hin & _).
  destruct Hdisk as [Gp Gn Go Gd Gg Gf].
  assert (∀ j rs, segs !! j = Some rs →
            ∃ p s, Log.segments (Log.log st) !! j = Some p ∧ Log.heap st !! p = Some s ∧
                   Log.heap st1 !! p = Some (closed_segment s) ∧
                   seg_ok (with_defaults c) (Log.fs st) s rs ∧
                   segment.baseOffset s = init + count_before segs j ∧
                   segment.nextOffset s = init + count_before segs (S j)) as Hseg.
  { intros j rs Hj.
    destruct (log_seg _ st init segs Hok j rs Hj) as (p & s & Hp & Hs & Hso & Hb & Hn & _).
    exists p, s. split_and!; try done. apply Hin; [|done]. by eapply list_elem_of_lookup_2. }
  assert (∀ o x, Log.find_segment o (Log.segments (Log.log st)) st = (Ok x, st) →
                 Log.find_segment o (Log.segments (Log.log st)) st1 = (Ok x, st1)) as Hfind.
  { intros o x. apply find_segment_offsets. intros p Hp.
    apply list_elem_of_lookup in Hp as [j Hj].
    assert (j < length segs)%nat as Hlt by (rewrite <- Ll; by eapply lookup_lt_Some).
    destruct (lookup_lt_is_Some_2 segs j Hlt) as [rs Hrs].
    destruct (Hseg j rs Hrs) as (p' & s & Hp' & Hs & Hs1 & _).
    assert (p' = p) as -> by congruence. exists s, (closed_segment s). done. }
  split_and!.
  - destruct segs as [|rs0 segs']; [done|].
    destruct (Hseg 0%nat rs0 eq_refl) as (p & s & Hp & Hs & Hs1 & _).
    unfold Log.Close, Log.self. unmonad. cbn. rewrite Hl1.
    destruct (Log.segments (Log.log st)) as [|p0 ps]; [done|].
    cbn in Hp. injection Hp as ->. cbn. unmonad.
    unfold Log.at_. rewrite Hs1.
    unfold segment.Close, segment.onIndex, index.Close, index.self. unmonad. cbn.
    f_equal. rewrite <- ?Hl1. by apply state_insert_id.
  - intros o r st' ER.
    destruct (log_Read_cases _ st init segs o Hcfg Hok)
      as [(i & r' & st2 & -> & Hi & _)|[_ ER']]; [|congruence].
    destruct (concat_locate _ _ _ Hi) as (j & rs & k & Hj & Hk & E).
    destruct (Hseg j rs Hj) as (p & s & Hp & Hs & Hs1 & Hso & Hb & Hn).
    destruct (Gd j rs Hj eq_refl) as [_ Hix].
    unfold Log.Read, Log.self. unmonad. cbn. rewrite Hl1.
    rewrite (Hfind _ (Some p)).
    + unfold Log.at_. rewrite Hs1.
      replace (init + Z.of_nat i) with (segment.baseOffset s + Z.of_nat k) by lia.
      rewrite (closed_segment_Read _ (Log.fs st) s rs k r' Hcfg Hso Hk)
        by (by rewrite Hb).
      f_equal. rewrite <- ?Hl1. by apply state_insert_id.
    + apply (find_segment_hit _ st init segs Hok j rs p); [done|done|].
      apply lookup_lt_Some in Hk. rewrite (count_before_S _ _ _ Hj). unfold len. lia.
  - intros o st' ER.
    destruct (log_Read_cases _ st init segs o Hcfg Hok)
      as [(i & r' & st2 & -> & Hi & ER' & _)|[Hout _]]; [congruence|].
    unfold Log.Read, Log.self. unmonad. cbn. rewrite Hl1.
    by rewrite (Hfind _ None (find_segment_miss _ st init segs Hok o Hout)).
  - rewrite (log_LowestOffset _ _ _ _ Hok). cbn.
    destruct segs as [|rs0 segs']; [done|].
    destruct (Hseg 0%nat rs0 eq_refl) as (p & s & Hp & Hs & Hs1 & _ & Hb & _).
    unfold Log.LowestOffset, Log.self. unmonad. cbn. rewrite Hl1.
    destruct (Log.segments (Log.log st)) as [|p0 ps]; [done|].
    cbn in Hp. injection Hp as ->.
    rewrite (deref_Some _ _ _ Hs1). cbn. rewrite Hb, count_before_0. do 2 f_equal. lia.
  - unfold Log.HighestOffset. rewrite (log_highestOffset _ _ _ _ Hok). cbn.
    destruct (log_last _ st init segs Hok)
      as (rs & p & s & Hl & Hlp & Hp & Hrs & Hs & Hso & Hb & Hn).
    destruct (Hseg _ rs Hrs) as (p' & s' & Hp' & Hs' & Hs1 & _).
    assert (p' = p) as -> by congruence. assert (s' = s) as -> by congruence.
    unfold Log.highestOffset, Log.self. unmonad. cbn. rewrite Hl1, Hlp.
    rewrite (deref_Some _ _ _ Hs1). cbn. rewrite Hn. by destruct (_ =? 0).
Qed.

Lemma Log_use_after_Close_witness :
  let st := example_log in
  let st1 := snd (Log.Close st) in
  Log.Close st1 = (Err ErrClosed, st1) ∧
  (∀ o r st', @Log.Read fixed_serializer o st = (Ok r, st') →
              @Log.Read fixed_serializer o st1 = (Err ErrClosed, st1)) ∧
  (∀ o st', @Log.Read fixed_serializer o st = (Err (ErrOffsetOutOfRange o), st') →
            @Log.Read fixed_serializer o st1 = (Err (ErrOffsetOutOfRange o), st1)) ∧
  Log.LowestOffset st1 = (fst (Log.LowestOffset st), st1) ∧
  Log.HighestOffset st1 = (fst (Log.HighestOffset st), st1).
Proof.
  intros st st1.
  apply (@Log_use_after_Close fixed_serializer fixed_laws example_config st st1).
  - vm_compute. split_and!; done.
  - exact example_log_reachable.
  - vm_compute. reflexivity.
Defined.

(** ** Log: [Remove] and [Reset] *)

Lemma Remove_Ok_inv (d d' : Log.dstate) :
  Log.Remove d = (Ok tt, d') →
  ∃ st1, Log.Close (Log.cur d) = (Ok tt, st1) ∧ d' = Log.mkD false (Log.set_fs ∅ st1).
Proof.
  unfold Log.Remove, Log.inDir, Log.os_RemoveAll. unmonad. cbn.
  destruct (Log.Close (Log.cur d)) as [[[]|e|] st1]; cbn; [|done|done].
  intros [= <-]. eauto.
Qed.

(** X17: [Reset] never succeeds.  When [Remove] fails, [Reset] returns
    its error; when [Remove] succeeds it has removed the directory
    itself, so the [os.ReadDir] that [setup] starts with fails and
    [Reset] returns that error: no segment is recreated. *)
Theorem Log_Reset_never_succeeds (d : Log.dstate) :
  fst (Log.Reset d) ≠ Ok tt ∧
  (fst (Log.Remove d) = Ok tt →
   Log.Reset d = (Err ErrNotExist, snd (Log.Remove d)) ∧
   Log.dir_exists (snd (Log.Remove d)) = false ∧
   Log.fs (Log.cur (snd (Log.Remove d))) = ∅) ∧
  (fst (Log.Remove d) ≠ Ok tt → Log.Reset d = Log.Remove d).
Proof.
  unfold Log.Reset. unmonad.
  destruct (Log.Remove d) as [[[]|e|] d'] eqn:ER; cbn.
  - apply Remove_Ok_inv in ER as (st1 & _ & ->). cbn.
    unfold Log.os_ReadDir. cbn. split_and!; [done| |done].
    intros _. split_and!; done.
  - split_and!; [done|done|]. by intros _.
  - split_and!; [done|done|]. by intros _.
Qed.

(** X18: [Remove] on a log the operations lead to closes it and deletes
    the directory with every file; the [Log] object still lists its
    segments.  [Reset] does the same and then returns the error of
    reading the directory that is gone. *)
Theorem Log_Remove_Reset `{SerializerLaws} (c : Config) (st : Log.state) :
  config_ok (with_defaults c) → reachable c st →
  ∃ st1,
    Log.Close st = (Ok tt, st1) ∧
    Log.Remove (Log.mkD true st) = (Ok tt, Log.mkD false (Log.set_fs ∅ st1)) ∧
    Log.Reset (Log.mkD true st) = (Err ErrNotExist, Log.mkD false (Log.set_fs ∅ st1)) ∧
    Log.log st1 = Log.log st ∧ Log.segments (Log.log st1) ≠ [].
Proof.
  intros Hcfg Hr.
  destruct (reachable_ok c st Hcfg Hr) as (init & segs & Hok).
  pose proof Hok as [Lc Li Lne La Ll Lnd Lsegs Lfiles].
  destruct (log_Close_ok _ st init segs Hcfg Hok) as (st1 & EC & _).
  pose proof EC as EA. unfold Log.Close, Log.self in EA. unmonad. cbn in EA.
  destruct (close_all_heap _ Lnd _ _ EA) as (Hl1 & _ & _).
  assert (Log.Remove (Log.mkD true st) = (Ok tt, Log.mkD false (Log.set_fs ∅ st1))) as ER.
  { unfold Log.Remove, Log.inDir, Log.os_RemoveAll. unmonad. cbn. by rewrite EC. }
  exists st1. split_and!; [done|done| |done|].
  - unfold Log.Reset. unmonad. rewrite ER. reflexivity.
  - rewrite Hl1. intros E. rewrite E in Ll. by destruct segs.
Qed.

Lemma Log_Remove_Reset_witness :
  ∃ st1,
    Log.Close example_log = (Ok tt, st1) ∧
    Log.Remove (Log.mkD true example_log) = (Ok tt, Log.mkD false (Log.set_fs ∅ st1)) ∧
    Log.Reset (Log.mkD true example_log)
    = (Err ErrNotExist, Log.mkD false (Log.set_fs ∅ st1)) ∧
    Log.log st1 = Log.log example_log ∧ Log.segments (Log.log st1) ≠ [].
Proof.
  apply (@Log_Remove_Reset fixed_serializer fixed_laws example_config example_log).
  - vm_compute. split_and!; done.
  - exact example_log_reachable.
Defined.

(** X19: [Remove] after [Close] deletes nothing.  On a log that has been
    closed, [Remove] stops at its own [Close], which fails with the
    closed-file error: the directory and its files stay as they are. *)
Theorem Log_Remove_after_Close `{SerializerLaws} (c : Config) (st st1 : Log.state)
    (b : bool) :
  config_ok (with_defaults c) → reachable c st →
  Log.Close st = (Ok tt, st1) →
  Log.Remove (Log.mkD b st1) = (Err ErrClosed, Log.mkD b st1) ∧
  (∀ n, is_Some (Log.fs st !! n) → is_Some (Log.fs st1 !! n)).
Proof.
  intros Hcfg Hr EC.
  destruct (reachable_ok c st Hcfg Hr) as (init & segs & Hok).
  pose proof Hok as [Lc Li Lne La Ll Lnd Lsegs Lfiles].
  destruct (log_Close_ok _ st init segs Hcfg Hok) as (st1' & EC' & Hdisk).
  assert (st1' = st1) as -> by congruence.
  pose proof EC as EA. unfold Log.Close, Log.self in EA. unmonad. cbn in EA.
  destruct (close_all_heap _ Lnd _ _ EA) as (Hl1 & Hin & _).
  split.
  - destruct segs as [|rs0 segs']; [done|].
    destruct (log_seg _ st init _ Hok 0%nat rs0 eq_refl) as (p & s & Hp & Hs & _).
    assert (Log.heap st1 !! p = Some (closed_segment s)) as Hs1
      by (apply Hin; [by eapply list_elem_of_lookup_2|done]).
    unfold Log.Remove, Log.inDir, Log.Close, Log.self. unmonad. cbn. rewrite Hl1.
    destruct (Log.segments (Log.log st)) as [|p0 ps]; [done|].
    cbn in Hp. injection Hp as ->. cbn. unmonad.
    unfold Log.at_. rewrite Hs1.
    unfold segment.Close, segment.onIndex, index.Close, index.self. unmonad. cbn.
    do 2 f_equal. by apply state_insert_id.
  - intros n Hn. destruct (Lfiles n Hn) as (j & Hj & E).
    destruct (lookup_lt_is_Some_2 segs j Hj) as [rs Hrs].
    destruct Hdisk as [Gp Gn Go Gd Gg Gf].
    destruct (Gd j rs Hrs eq_refl) as [D1 D2].
    destruct n as [b0 e]. cbn in E. subst b0. destruct e; [by rewrite D1|by rewrite D2].
Qed.

Lemma Log_Remove_after_Close_witness :
  let st1 := snd (Log.Close example_log) in
  Log.Remove (Log.mkD true st1) = (Err ErrClosed, Log.mkD true st1) ∧
  (∀ n, is_Some (Log.fs example_log !! n) → is_Some (Log.fs st1 !! n)).
Proof.
  intros st1.
  apply (@Log_Remove_after_Close fixed_serializer fixed_laws example_config example_log st1 true).
  - vm_compute. split_and!; done.
  - exact example_log_reachable.
  - vm_compute. reflexivity.
Defined.

(** ** Log: the reader over all stores *)

Lemma len_slice {A} (lo hi : Z) (l : list A) :
  0 ≤ lo ≤ hi → lo ≤ len l → len (slice lo hi l) = Z.min (hi - lo) (len l - lo).
Proof.
  intros H1 H2. unfold slice, len in *. rewrite length_take, length_drop. lia.
Qed.

Lemma slice_then_drop {A} (lo k : Z) (l : list A) :
  0 ≤ lo → 0 ≤ k →
  drop (Z.to_nat lo) l = slice lo (lo + k) l ++ drop (Z.to_nat (lo + k)) l.
Proof.
  intros H1 H2. unfold slice. replace (lo + k - lo) with k by lia.
  rewrite <- (take_drop (Z.to_nat k) (drop (Z.to_nat lo) l)) at 1.
  f_equal. rewrite drop_drop. f_equal. lia.
Qed.

Lemma slice_to_end {A} (lo hi : Z) (l : list A) :
  0 ≤ lo → len l ≤ hi → slice lo hi l = drop (Z.to_nat lo) l.
Proof.
  intros H1 H2. unfold slice, len in *. apply take_ge. rewrite length_drop. lia.
Qed.

Lemma readers_at_next (ptrs : list Log.loc) (j : nat) (p : Log.loc) (off : Z) :
  ptrs !! j = Some p →
  readers_at ptrs j off = Log.mkReader p off :: readers_at ptrs (S j) 0.
Proof.
  intros Hp. unfold readers_at. rewrite (drop_S _ _ _ Hp). f_equal.
  by destruct (drop (S j) ptrs).
Qed.

Lemma readers_at_end (ptrs : list Log.loc) (j : nat) (off : Z) :
  (length ptrs ≤ j)%nat → readers_at ptrs j off = [].
Proof. intros Hj. unfold readers_at. by rewrite drop_ge. Qed.

Section reader.
Context `{SerializerLaws}.

Lemma remaining_last (segs : list (list Record_)) (j : nat) (off : Z) (rs : list Record_) :
  segs !! j = Some rs → S j = length segs →
  remaining segs j off = drop (Z.to_nat off) (store_bytes (Marshal <$> rs)).
Proof.
  intros Hj Hl. unfold remaining. rewrite Hj. rewrite (drop_ge segs) by lia. cbn.
  apply app_nil_r.
Qed.

Lemma remaining_next (segs : list (list Record_)) (j : nat) (rs : list Record_) :
  segs !! j = Some rs →
  remaining segs j (len (store_bytes (Marshal <$> rs))) = remaining segs (S j) 0.
Proof.
  intros Hj. unfold remaining. rewrite Hj. cbn [default].
  rewrite (drop_ge (store_bytes (Marshal <$> rs))) by (unfold len; lia). cbn [app].
  destruct (segs !! S j) as [rs'|] eqn:Hj'.
  - rewrite (drop_S _ _ _ Hj'). cbn. by rewrite fmap_app, store_bytes_app.
  - apply lookup_ge_None in Hj'. cbn.
    rewrite (drop_ge segs (S j)) by lia. rewrite (drop_ge segs (S (S j))) by lia. done.
Qed.

Lemma remaining_0 (segs : list (list Record_)) :
  remaining segs 0 0 = store_bytes (Marshal <$> concat segs).
Proof.
  unfold remaining. destruct segs as [|rs segs]; [done|].
  cbn. by rewrite fmap_app, store_bytes_app, drop_0.
Qed.

Lemma remaining_start (segs : list (list Record_)) (j : nat) :
  remaining segs j 0 = store_bytes (Marshal <$> concat (drop j segs)).
Proof.
  unfold remaining. destruct (segs !! j) as [rs|] eqn:Hj.
  - rewrite (drop_S _ _ _ Hj). cbn. by rewrite fmap_app, store_bytes_app.
  - apply lookup_ge_None in Hj. cbn.
    rewrite (drop_ge segs j) by lia. rewrite (drop_ge segs (S j)) by lia. done.
Qed.

(** One [originReader.Read] on a segment of a log in order. *)
Lemma origin_Read_ok c st init segs j rs p (k off : Z) :
  config_ok c → log_ok c st init segs →
  segs !! j = Some rs → Log.segments (Log.log st) !! j = Some p →
  0 < k → 0 ≤ off ≤ len (store_bytes (Marshal <$> rs)) →
  ∃ st',
    Log.originReader_Read k (Log.mkReader p off) st
    = (Ok (slice off (off + k) (store_bytes (Marshal <$> rs)),
           (if len (store_bytes (Marshal <$> rs)) <? off + k then Some EOF else None),
           Log.mkReader p (off + len (slice off (off + k) (store_bytes (Marshal <$> rs))))),
       st') ∧
    log_ok c st' init segs ∧ Log.log st' = Log.log st.
Proof.
  intros Hcfg Hok Hj Hp Hk Hoff.
  destruct (log_seg c st init segs Hok j rs Hj) as (p' & s & Hp' & Hs & Hso & Hb & Hn & _).
  assert (p' = p) as -> by congruence.
  pose proof Hso as [Kconfig Kbase Knext Knext_lt Koffsets Ksfile Ksclosed Kswerr
    Kscontent Kssize Ksbound Kifile Kiclosed Kisize Kmmap Kifits Kicontent].
  destruct Kscontent as (sc & Hsc & Hsct). destruct Kicontent as (tail & Hic & Hicl).
  set (C := store_bytes (Marshal <$> rs)) in *.
  set (fs' := <[store.File (segment.store s) := C]> (Log.fs st)).
  set (s' := segment.set_store (store.set_buf [] (segment.store s)) s).
  assert (len (slice off (off + k) C) = Z.min k (len C - off)) as Hls.
  { rewrite len_slice by lia. f_equal. lia. }
  assert (segment.onStore (store.ReadAtN k off) (Log.fs st, s)
          = (Ok (slice off (off + k) C, if len C <? off + k then Some EOF else None),
             (fs', s'))) as ER.
  { unfold segment.onStore, store.ReadAtN. unmonad. cbn.
    rewrite (Flush_wf _ _ sc Ksclosed Kswerr) by (by rewrite Ksfile). cbn.
    unfold store.self. unmonad. cbn. unfold File_ReadAt_n. zbool. rewrite Ksclosed.
    rewrite Hsct. fold fs'. unfold fs' at 1. rewrite lookup_insert_eq. cbv zeta. rewrite Hls.
    destruct (Z.ltb_spec (len C) (off + k)); zbool; reflexivity. }
  eexists. split_and!.
  - unfold Log.originReader_Read. unmonad. cbn [Log.r_seg Log.r_off].
    rewrite (at_unfold _ _ _ _ _ _ _ Hs ER). cbn.
    rewrite int64_id by lia. reflexivity.
  - pose proof (log_ok_update c st init segs j p s rs fs' s' rs Hcfg Hok Hp Hj Hs) as K.
    rewrite (list_insert_id segs j rs Hj) in K. apply K; [|done| | |by left].
    + split; cbn; try done.
      * exists C. unfold fs'. rewrite Ksfile, lookup_insert_eq. by rewrite app_nil_r.
      * exists tail. unfold fs'. rewrite Ksfile, lookup_insert_ne by done. done.
    + intros n Hne. unfold fs'. rewrite Ksfile, lookup_insert_ne; [done|].
      intros <-. done.
    + intros n. unfold fs'. rewrite Ksfile, lookup_insert. case_decide as E; [|done].
      subst n. rewrite Hsc. split; eauto.
  - done.
Qed.

(** One [Read] of the [io.MultiReader]: it ends the stream with what was
    left, or hands out a piece of it and moves on. *)
Lemma multiReader_step c init segs k :
  config_ok c → 0 < k →
  ∀ d j st off rs,
    (j + d = length segs)%nat → log_ok c st init segs →
    segs !! j = Some rs → 0 ≤ off ≤ len (store_bytes (Marshal <$> rs)) →
    ∃ dat e rs' st',
      Log.multiReader_Read k (readers_at (Log.segments (Log.log st)) j off) st
      = (Ok (dat, e, rs'), st') ∧
      log_ok c st' init segs ∧ Log.log st' = Log.log st ∧
      ((e = Some EOF ∧ dat = remaining segs j off) ∨
       (e = None ∧ ∃ j' off' rs1,
          rs' = readers_at (Log.segments (Log.log st)) j' off' ∧
          segs !! j' = Some rs1 ∧ 0 ≤ off' ≤ len (store_bytes (Marshal <$> rs1)) ∧
          remaining segs j off = dat ++ remaining segs j' off' ∧
          len (remaining segs j' off') + Z.of_nat (length segs - j')
          < len (remaining segs j off) + Z.of_nat (length segs - j))).
Proof.
  intros Hcfg Hk. induction d as [|d IH]; intros j st off rs Hd Hok Hj Hoff.
  { apply lookup_lt_Some in Hj. lia. }
  pose proof Hok as [Lc Li Lne La Ll Lnd Lsegs Lfiles].
  destruct (lookup_lt_is_Some_2 (Log.segments (Log.log st)) j) as [p Hp].
  { rewrite Ll. by eapply lookup_lt_Some. }
  destruct (origin_Read_ok c st init segs j rs p k off Hcfg Hok Hj Hp Hk Hoff)
    as (st1 & ER & Hok1 & Hl1).
  set (C := store_bytes (Marshal <$> rs)) in *.
  assert (len (slice off (off + k) C) = Z.min k (len C - off)) as Hls.
  { rewrite len_slice by lia. f_equal. lia. }
  rewrite (readers_at_next _ _ _ _ Hp). cbn [Log.multiReader_Read].
  unmonad. rewrite ER. cbn [fst snd].
  assert (∀ o, remaining segs j o = drop (Z.to_nat o) C
            ++ store_bytes (Marshal <$> concat (drop (S j) segs))) as Hrem.
  { intros o. unfold remaining. by rewrite Hj. }
  destruct (Z.ltb_spec (len C) (off + k)) as [Hshort|Hfull].
  - (* the store ends within this read *)
    cbn [Log.is_EOF negb orb andb].
    destruct (decide (off = len C)) as [->|Hne].
    + (* nothing left in this store: on to the next reader *)
      rewrite Hls. replace (Z.min k (len C - len C)) with 0 by lia.
      change (0 <? 0) with false. cbn [orb].
      destruct d as [|d].
      * rewrite readers_at_end by lia. cbn. unmonad.
        eexists _, _, _, _. split_and!; [reflexivity|done|done|].
        left. split; [done|].
        rewrite (remaining_last segs j _ rs Hj) by lia. fold C.
        symmetry. apply drop_ge. unfold len. lia.
      * assert (S j < length segs)%nat as HSj by lia.
        destruct (lookup_lt_is_Some_2 segs (S j) HSj) as [rs1 Hrs1].
        pose proof (len_nonneg (store_bytes (Marshal <$> rs1))) as Hl0.
        destruct (IH (S j) st1 0 rs1 ltac:(lia) Hok1 Hrs1 ltac:(lia))
          as (dat & e & rs' & st' & EM & Hok' & Hl' & Hres).
        rewrite Hl1 in EM. rewrite EM.
        exists dat, e, rs', st'. split_and!; [done|done|congruence|].
        unfold C. rewrite (remaining_next segs j rs Hj).
        destruct Hres as [[-> ->]|(-> & j' & off' & rs2 & -> & Hj' & Hoff' & Hr' & Hm)].
        -- by left.
        -- right. split; [done|]. exists j', off', rs2.
           rewrite Hl1. split_and!; try done; lia.
    + (* the rest of this store *)
      rewrite Hls. replace (0 <? Z.min k (len C - off)) with true
        by (symmetry; apply Z.ltb_lt; lia).
      cbn [orb]. cbn. unmonad.
      rewrite (slice_to_end off (off + k) C) by lia.
      eexists _, _, _, _. split_and!; [reflexivity|done|done|].
      destruct d as [|d].
      * left. rewrite readers_at_end by lia.
        rewrite bool_decide_eq_true_2 by done. cbn. split; [done|].
        by rewrite (remaining_last segs j _ rs Hj) by lia.
      * assert (S j < length segs)%nat as HSj by lia.
        destruct (lookup_lt_is_Some_2 segs (S j) HSj) as [rs1 Hrs1].
        destruct (lookup_lt_is_Some_2 (Log.segments (Log.log st)) (S j)) as [q Hq]; [lia|].
        pose proof (len_nonneg (store_bytes (Marshal <$> rs1))) as Hl0.
        right. rewrite (readers_at_next _ _ _ _ Hq).
        rewrite bool_decide_eq_false_2 by done. cbn. split; [done|].
        exists (S j), 0, rs1.
        split_and!; [by rewrite (readers_at_next _ _ _ _ Hq)|done|lia|lia| |].
        -- by rewrite Hrem, remaining_start.
        -- rewrite Hrem, remaining_start, len_app.
           assert (0 < len (drop (Z.to_nat off) C)).
           { unfold len in *. rewrite length_drop. lia. }
           lia.
  - (* a full buffer *)
    cbn [Log.is_EOF negb orb andb]. rewrite orb_true_r. cbn. unmonad.
    eexists _, _, _, _. split_and!; [reflexivity|done|done|].
    right. split; [done|]. exists j, (off + k), rs. fold C.
    rewrite Hls. replace (Z.min k (len C - off)) with k by lia.
    split_and!; [|done|lia|lia| |].
    + by rewrite (readers_at_next _ _ _ _ Hp).
    + rewrite !Hrem. rewrite app_assoc. f_equal. apply slice_then_drop; lia.
    + rewrite !Hrem, !len_app.
      assert (len (drop (Z.to_nat (off + k)) C) + k = len (drop (Z.to_nat off) C)).
      { unfold len in *. rewrite !length_drop. lia. }
      lia.
Qed.

(** Reading a [Log.Reader] to its end gives what is left of the stores. *)
Lemma read_all_ok c init segs k :
  config_ok c → 0 < k →
  ∀ fuel j st off rs,
    log_ok c st init segs →
    segs !! j = Some rs → 0 ≤ off ≤ len (store_bytes (Marshal <$> rs)) →
    len (remaining segs j off) + Z.of_nat (length segs - j) < Z.of_nat fuel →
    ∃ st',
      read_all fuel k (readers_at (Log.segments (Log.log st)) j off) st
      = (Ok (remaining segs j off, Some EOF), st') ∧
      log_ok c st' init segs ∧ Log.log st' = Log.log st.
Proof.
  intros Hcfg Hk. induction fuel as [|fuel IH]; intros j st off rs Hok Hj Hoff Hm.
  { pose proof (len_nonneg (remaining segs j off)). lia. }
  pose proof (lookup_lt_Some _ _ _ Hj) as Hjlt.
  destruct (multiReader_step c init segs k Hcfg Hk (length segs - j) j st off rs
              ltac:(lia) Hok Hj Hoff)
    as (dat & e & rs' & st1 & EM & Hok1 & Hl1 & Hres).
  cbn [read_all]. unmonad. rewrite EM.
  destruct Hres as [[-> ->]|(-> & j' & off' & rs1 & -> & Hj' & Hoff' & Hr' & Hlt)].
  - exists st1. done.
  - destruct (IH j' st1 off' rs1 Hok1 Hj' Hoff' ltac:(lia)) as (st' & ERA & Hok' & Hl').
    rewrite Hl1 in ERA. rewrite ERA. cbn.
    exists st'. split_and!; [by rewrite Hr'|done|congruence].
Qed.

End reader.

(** X20: [Log.Reader] streams the stores of all segments in order.  On
    every log the operations lead to, reading the reader to its end
    with a buffer of any positive length yields, segment after segment,
    exactly the frames (8-byte length, then the marshalled record) of
    the records readable at [LowestOffset], [LowestOffset + 1], ... and
    then [io.EOF]; buffered frames are included, the reader flushes
    each store.  What [Log.Read] returns is the same afterwards. *)
Theorem Log_Reader_streams `{SerializerLaws} (c : Config) (st : Log.state) (k : Z) :
  config_ok (with_defaults c) → reachable c st → 0 < k →
  ∃ lo rs rds fuel st',
    Log.Reader st = (Ok rds, st) ∧
    read_all fuel k rds st = (Ok (store_bytes (Marshal <$> rs), Some EOF), st') ∧
    Log.LowestOffset st = (Ok lo, st) ∧
    (∀ i r, rs !! i = Some r → ∃ st2, Log.Read (lo + Z.of_nat i) st = (Ok r, st2)) ∧
    Log.Read (lo + len rs) st = (Err (ErrOffsetOutOfRange (lo + len rs)), st) ∧
    (∀ o, fst (Log.Read o st') = fst (Log.Read o st)).
Proof.
  intros Hcfg Hr Hk.
  destruct (reachable_ok c st Hcfg Hr) as (init & segs & Hok).
  pose proof Hok as [Lc Li Lne La Ll Lnd Lsegs Lfiles].
  destruct segs as [|rs0 segs'] eqn:Esegs; [done|]. rewrite <- Esegs in *.
  assert (segs !! 0%nat = Some rs0) as Hfirst by (by rewrite Esegs).
  pose proof (len_nonneg (store_bytes (Marshal <$> rs0))) as Hl0.
  pose proof (len_nonneg (remaining segs 0 0)) as Hrem0.
  destruct (read_all_ok _ init segs k Hcfg Hk
              (S (Z.to_nat (len (remaining segs 0 0)) + length segs)) 0%nat st 0 rs0
              Hok Hfirst ltac:(lia) ltac:(lia))
    as (st' & ERA & Hok' & Hl').
  exists init, (concat segs), (readers_at (Log.segments (Log.log st)) 0 0),
    (S (Z.to_nat (len (remaining segs 0 0)) + length segs)), st'.
  split_and!.
  - unfold Log.Reader, Log.self. unmonad. cbn. do 2 f_equal.
    unfold readers_at. rewrite drop_0. by destruct (Log.segments (Log.log st)).
  - rewrite ERA. by rewrite remaining_0.
  - by eapply log_LowestOffset.
  - intros i r Hi.
    destruct (log_Read_hit _ st init segs i r Hcfg Hok Hi) as (st2 & ER & _). eauto.
  - apply (log_Read_miss _ st init segs _ Hok). right. lia.
  - intros o. by eapply log_Read_fst.
Qed.

Lemma Log_Reader_streams_witness :
  let st := example_log in
  ∃ lo rs rds fuel st',
    Log.Reader st = (Ok rds, st) ∧
    read_all fuel 5 rds st
    = (Ok (store_bytes (@Marshal fixed_serializer <$> rs), Some EOF), st') ∧
    Log.LowestOffset st = (Ok lo, st) ∧
    (∀ i r, rs !! i = Some r →
       ∃ st2, @Log.Read fixed_serializer (lo + Z.of_nat i) st = (Ok r, st2)) ∧
    @Log.Read fixed_serializer (lo + len rs) st
    = (Err (ErrOffsetOutOfRange (lo + len rs)), st) ∧
    (∀ o, fst (@Log.Read fixed_serializer o st') = fst (@Log.Read fixed_serializer o st)).
Proof.
  apply (@Log_Reader_streams fixed_serializer fixed_laws example_config example_log 5).
  - vm_compute. split_and!; done.
  - exact example_log_reachable.
  - lia.
Defined.

(** ** Opening a segment under a smaller index limit *)

(** X21: [newSegment] panics on an index file that is longer than
    [MaxIndexBytes].  [newIndex] keeps the old length as the index's
    size but cuts the file, and with it the mapping, to [MaxIndexBytes];
    reading the last entry then slices the mapping out of its bounds.
    So a log cannot be reopened with a smaller index limit than one of
    its index files has reached. *)
Theorem newSegment_longer_index_panics (b : Z) (cfg : Config) (fs : FS) (c : bytes)
    (n : Z) :
  fs !! (b, ExtIndex) = Some c → len c = 12 * n → 1 ≤ n ≤ 2 ^ 32 →
  0 < MaxIndexBytes (Segment cfg) < len c →
  fst (segment.newSegment b cfg fs) = Panic.
Proof.
  intros Hc Hlen Hn HM.
  set (M := MaxIndexBytes (Segment cfg)) in *.
  unfold segment.newSegment, segment.update, segment.self, segment.onIndex. unmonad. cbn.
  rewrite (newStore_exists _ _ _ (lookup_OpenFile_eq _ _)). cbn.
  set (fs1 := os_OpenFile (b, ExtIndex) (os_OpenFile (b, ExtStore) fs)).
  assert (fs1 !! (b, ExtIndex) = Some c) as Hc1.
  { unfold fs1. rewrite (os_OpenFile_exists (b, ExtIndex) _ c); rewrite lookup_OpenFile_ne; done. }
  unfold index.newIndex, os_Stat, os_Truncate. unmonad. cbn. rewrite Hc1. cbn.
  fold M. rewrite int64_id by lia. zbool. rewrite Hc1. cbn. rewrite lookup_insert_eq. cbn.
  assert (len (resize M c) = M) as Hr.
  { unfold resize, len in *. rewrite length_app, length_take, length_replicate. lia. }
  rewrite Hr. zbool. cbn.
  rewrite (uint64_id (len c)) by lia.
  set (i := index.mk (b, ExtIndex) false M (len c)).
  set (fs2 := <[(b, ExtIndex) := resize M c]> fs1).
  assert (index.Read (-1) (fs2, i) = (Panic, (fs2, i))) as ->; [|done].
  rewrite (index_Read_unfold fs2 i (-1) (resize M c))
    by (unfold fs2; cbn; by rewrite lookup_insert_eq).
  cbv zeta.
  assert (entry_number i (-1) = n - 1) as ->.
  { rewrite entry_number_last; cbn; rewrite Hlen.
    - rewrite Z.mul_comm, Z.div_mul by lia. done.
    - lia.
    - rewrite Z.mul_comm, Z.div_mul by lia. lia. }
  cbn [index.size index.mmap i]. rewrite Hlen, Hr. zbool. cbn. reflexivity.
Qed.

Lemma newSegment_longer_index_panics_witness :
  let c := PutUint32 0 ++ PutUint64 0 ++ PutUint32 1 ++ PutUint64 17 in
  let fs : FS := {[ (0, ExtIndex) := c ]} in
  fst (segment.newSegment 0 (mkConfig 1024 12 0) fs) = Panic.
Proof.
  intros c fs. apply (newSegment_longer_index_panics 0 (mkConfig 1024 12 0) fs c 2).
  - reflexivity.
  - reflexivity.
  - lia.
  - vm_compute. split; reflexivity.
Defined.

(** ** A log in a fresh directory *)

(** X22: what [NewLog] creates in an empty directory: one segment at
    [InitialOffset], with an empty store file and an index file of
    [MaxIndexBytes] zero bytes ([1024] when the configuration says [0]),
    and nothing else.  [LowestOffset] is [InitialOffset], and no offset
    can be read. *)
Theorem NewLog_fresh_directory `{SerializerLaws} (c : Config) (st0 : Log.state) :
  Log.fs st0 = ∅ → config_ok (with_defaults c) →
  0 ≤ InitialOffset (Segment c) < 2 ^ 64 →
  ∃ st,
    Log.NewLog c st0 = (Ok tt, st) ∧
    Log.fs st =
      <[(InitialOffset (Segment c), ExtIndex) :=
          replicate (Z.to_nat (MaxIndexBytes (Segment (with_defaults c)))) x00]>
        {[ (InitialOffset (Segment c), ExtStore) := [] ]} ∧
    Log.Config_ (Log.log st) = with_defaults c ∧
    length (Log.segments (Log.log st)) = 1%nat ∧
    Log.LowestOffset st = (Ok (InitialOffset (Segment c)), st) ∧
    (∀ o, Log.Read o st = (Err (ErrOffsetOutOfRange o), st)).
Proof.
  intros Hfs Hcfg Hinit.
  destruct (NewLog_fresh c st0 Hcfg Hfs Hinit) as (st & EN & Hok).
  exists st. split_and!; [done| |by destruct Hok| | |].
  - revert EN. rewrite NewLog_defaults.
    set (c' := with_defaults c) in *. set (b := InitialOffset (Segment c)) in *.
    pose proof (seg_open c' ∅ b [] Hcfg (proj1 Hinit)) as K.
    rewrite len_nil in K. cbv zeta in K.
    specialize (K ltac:(lia) ltac:(done) ltac:(destruct Hcfg; lia) ltac:(done)).
    destruct K as (s & fs' & E & Hfs' & _).
    { rewrite lookup_OpenFile_ne by done. by rewrite lookup_OpenFile_eq, lookup_empty. }
    { rewrite lookup_OpenFile_eq, lookup_OpenFile_ne by done. by rewrite lookup_empty. }
    unfold Log.setup, Log.self. unmonad. cbn. rewrite Hfs, map_to_list_empty. cbn.
    unfold Log.newSegment, Log.self, Log.onFS. unmonad. cbn.
    rewrite Hfs. unfold b in E, Hfs' |- *. rewrite E. cbn.
    intros [= <-]. cbn. rewrite Hfs'.
    unfold os_OpenFile. rewrite lookup_empty, lookup_insert_ne by done.
    rewrite lookup_empty, insert_insert_eq. cbn. by rewrite Z.sub_0_r.
  - destruct Hok as [_ _ _ _ Ll _ _ _]. by rewrite Ll.
  - by eapply log_LowestOffset.
  - intros o. apply (log_Read_miss _ st _ _ o Hok). cbn. rewrite len_nil. lia.
Qed.

Lemma NewLog_fresh_directory_witness :
  let c := mkConfig 0 0 5 in
  ∃ st,
    Log.NewLog c empty_state = (Ok tt, st) ∧
    Log.fs st =
      <[(InitialOffset (Segment c), ExtIndex) :=
          replicate (Z.to_nat (MaxIndexBytes (Segment (with_defaults c)))) x00]>
        {[ (InitialOffset (Segment c), ExtStore) := [] ]} ∧
    Log.Config_ (Log.log st) = with_defaults c ∧
    length (Log.segments (Log.log st)) = 1%nat ∧
    Log.LowestOffset st = (Ok (InitialOffset (Segment c)), st) ∧
    (∀ o, @Log.Read fixed_serializer o st = (Err (ErrOffsetOutOfRange o), st)).
Proof.
  intros c. apply (@NewLog_fresh_directory fixed_serializer fixed_laws c empty_state).
  - reflexivity.
  - vm_compute. split_and!; done.
  - vm_compute. split; [discriminate|reflexivity].
Defined.

(** ** C3: the highest offset *)

(** C3 (amended): on every log the operations lead to (limits in range,
    appends inside the uint64 offset range) [HighestOffset()] returns
    [next_offset - 1] of the active segment, or [0] when that
    [next_offset] is [0].  As soon as a record can be read this is
    [active.next_offset - 1], the largest readable offset; right after
    a successful [Append] it is the offset [Append] returned.  On a log
    that holds no record it is [LowestOffset - 1], or [0] when
    [LowestOffset] is [0]: a fresh log returns [initial_offset - 1] when
    its configured [initial_offset] is not zero, and [0] only when it
    is zero. *)
Theorem HighestOffset_value `{SerializerLaws} :
  (∀ (c : Config) (st : Log.state),
     config_ok (with_defaults c) → reachable c st →
     ∃ p s lo,
       Log.activeSegment (Log.log st) = Some p ∧ Log.heap st !! p = Some s ∧
       Log.LowestOffset st = (Ok lo, st) ∧
       Log.HighestOffset st =
         (Ok (if segment.nextOffset s =? 0 then 0 else segment.nextOffset s - 1), st) ∧
       (∀ o r st1, Log.Read o st = (Ok r, st1) →
          0 < segment.nextOffset s ∧ o ≤ segment.nextOffset s - 1 ∧
          Log.HighestOffset st = (Ok (segment.nextOffset s - 1), st) ∧
          ∃ r' st2, Log.Read (segment.nextOffset s - 1) st = (Ok r', st2)) ∧
       ((∀ o, fst (Log.Read o st) = Err (ErrOffsetOutOfRange o)) →
          segment.nextOffset s = lo ∧
          Log.HighestOffset st = (Ok (if lo =? 0 then 0 else lo - 1), st)) ∧
       (∀ r off st', Log.Append r st = (Ok off, st') → off + 1 < 2 ^ 64 →
          payload_ok (with_defaults c) (Marshal (stamp off r)) →
          Log.HighestOffset st' = (Ok off, st') ∧
          ∃ p' s', Log.activeSegment (Log.log st') = Some p' ∧
                   Log.heap st' !! p' = Some s' ∧ segment.nextOffset s' = off + 1)) ∧
  (∀ (c : Config) (st0 : Log.state),
     Log.fs st0 = ∅ → config_ok (with_defaults c) →
     0 ≤ InitialOffset (Segment c) < 2 ^ 64 →
     ∃ st, Log.NewLog c st0 = (Ok tt, st) ∧
           Log.HighestOffset st =
             (Ok (if InitialOffset (Segment c) =? 0 then 0
                  else InitialOffset (Segment c) - 1), st)).
Proof.
  split.
  - intros c st Hcfg Hr.
    destruct (reachable_ok c st Hcfg Hr) as (init & segs & Hok).
    pose proof Hok as [Lc Li Lne La Ll Lnd Lsegs Lfiles].
    destruct (log_last _ st init segs Hok)
      as (rs & p & s & Hl & Hlp & Hp & Hrs & Hs & Hso & Hb & Hn).
    pose proof (len_nonneg (concat segs)) as Hlen.
    assert (Log.HighestOffset st =
              (Ok (if segment.nextOffset s =? 0 then 0 else segment.nextOffset s - 1), st))
      as Hhigh.
    { unfold Log.HighestOffset. by rewrite (log_highestOffset _ _ _ _ Hok), Hn. }
    exists p, s, init. split_and!.
    + by rewrite La.
    + done.
    + by eapply log_LowestOffset.
    + done.
    + intros o r st1 ER.
      destruct (log_Read_cases _ st init segs o Hcfg Hok)
        as [(i & r' & st2 & -> & Hi & _)|[_ ER']]; [|congruence].
      pose proof (lookup_lt_Some _ _ _ Hi) as Hilt.
      assert (0 < segment.nextOffset s) as Hpos by (rewrite Hn; unfold len; lia).
      split_and!; [done|rewrite Hn; unfold len; lia| |].
      * rewrite Hhigh. by replace (segment.nextOffset s =? 0) with false
          by (symmetry; apply Z.eqb_neq; lia).
      * destruct (lookup_lt_is_Some_2 (concat segs) (length (concat segs) - 1)) as [r1 Hr1];
          [lia|].
        destruct (log_Read_hit _ st init segs _ r1 Hcfg Hok Hr1) as (st3 & ER3 & _).
        exists r1, st3. rewrite <- ER3. f_equal. rewrite Hn. unfold len. lia.
    + intros Hnone.
      assert (concat segs = []) as Hnil.
      { destruct (concat segs) as [|r0 rest] eqn:E; [done|]. exfalso.
        destruct (log_Read_hit _ st init segs 0 r0 Hcfg Hok) as (st2 & ER & _).
        { by rewrite E. }
        specialize (Hnone (init + Z.of_nat 0)). rewrite ER in Hnone. done. }
      rewrite Hnil, len_nil, Z.add_0_r in Hn.
      split; [done|]. by rewrite Hhigh, Hn.
    + intros r off st' EA Hlt Hpay.
      pose proof (log_Append_offset _ _ _ _ _ _ _ Hcfg Hok EA) as ->.
      destruct (log_Append_ok _ st init segs r Hcfg Hok Hpay Hlt)
        as (st'' & segs' & EA' & Hok' & Hc').
      rewrite EA in EA'. injection EA' as <-.
      destruct (log_last _ st' init segs' Hok')
        as (rs' & p' & s' & _ & Hlp' & _ & _ & Hs' & _ & _ & Hn').
      rewrite Hc', len_snoc in Hn'.
      split.
      * unfold Log.HighestOffset. rewrite (log_highestOffset _ _ _ _ Hok'), Hc', len_snoc.
        replace (init + (len (concat segs) + 1) =? 0) with false
          by (symmetry; apply Z.eqb_neq; lia).
        do 2 f_equal. lia.
      * exists p', s'. split_and!; [|done|lia].
        destruct Hok' as [_ _ _ La' _ _ _ _]. by rewrite La'.
  - intros c st0 Hfs Hcfg Hi.
    destruct (NewLog_fresh c st0 Hcfg Hfs Hi) as (st & EN & Hok).
    exists st. split; [done|].
    unfold Log.HighestOffset. rewrite (log_highestOffset _ _ _ _ Hok).
    cbn. by rewrite len_nil, Z.add_0_r.
Qed.

Lemma HighestOffset_value_witness :
  (∃ p s lo,
     Log.activeSegment (Log.log example_log) = Some p ∧
     Log.heap example_log !! p = Some s ∧
     Log.LowestOffset example_log = (Ok lo, example_log) ∧
     Log.HighestOffset example_log =
       (Ok (if segment.nextOffset s =? 0 then 0 else segment.nextOffset s - 1), example_log) ∧
     (∀ o r st1, @Log.Read fixed_serializer o example_log = (Ok r, st1) →
        0 < segment.nextOffset s ∧ o ≤ segment.nextOffset s - 1 ∧
        Log.HighestOffset example_log = (Ok (segment.nextOffset s - 1), example_log) ∧
        ∃ r' st2, @Log.Read fixed_serializer (segment.nextOffset s - 1) example_log
                  = (Ok r', st2)) ∧
     ((∀ o, fst (@Log.Read fixed_serializer o example_log) = Err (ErrOffsetOutOfRange o)) →
        segment.nextOffset s = lo ∧
        Log.HighestOffset example_log = (Ok (if lo =? 0 then 0 else lo - 1), example_log)) ∧
     (∀ r off st', @Log.Append fixed_serializer r example_log = (Ok off, st') →
        off + 1 < 2 ^ 64 →
        payload_ok (with_defaults example_config)
          (@Marshal fixed_serializer (stamp off r)) →
        Log.HighestOffset st' = (Ok off, st') ∧
        ∃ p' s', Log.activeSegment (Log.log st') = Some p' ∧
                 Log.heap st' !! p' = Some s' ∧ segment.nextOffset s' = off + 1)) ∧
  (∃ st, Log.NewLog (mkConfig 0 0 5) empty_state = (Ok tt, st) ∧
         Log.HighestOffset st = (Ok (if 5 =? 0 then 0 else 5 - 1), st)).
Proof.
  split.
  - apply (proj1 (@HighestOffset_value fixed_serializer fixed_laws)
             example_config example_log).
    + vm_compute. split_and!; done.
    + exact example_log_reachable.
  - apply (proj2 (@HighestOffset_value fixed_serializer fixed_laws)
             (mkConfig 0 0 5) empty_state).
    + reflexivity.
    + vm_compute. split_and!; done.
    + vm_compute. split; done.
Defined.

(** C3 as stated fails: a fresh log with [initial_offset = 5] holds no
    record, and [HighestOffset()] returns [4], not [0]. *)
Lemma HighestOffset_value_counterexample :
  let st := snd (Log.NewLog (mkConfig 0 0 5) empty_state) in
  fst (Log.NewLog (mkConfig 0 0 5) empty_state) = Ok tt ∧
  (∀ o, fst (@Log.Read fixed_serializer o st) = Err (ErrOffsetOutOfRange o)) ∧
  fst (Log.HighestOffset st) = Ok 4 ∧
  fst (Log.HighestOffset st) ≠ Ok 0.
Proof.
  split_and!.
  - vm_compute. reflexivity.
  - intros o.
    destruct (@NewLog_fresh fixed_serializer (mkConfig 0 0 5) empty_state)
      as (st & EN & Hok); [vm_compute; split_and!; done | reflexivity | vm_compute; split; done |].
    rewrite EN. cbn [snd].
    destruct (Z.lt_ge_cases o 5) as [Hlt|Hge].
    + by rewrite (@log_Read_miss fixed_serializer _ _ _ _ o Hok) by (left; exact Hlt).
    + by rewrite (@log_Read_miss fixed_serializer _ _ _ _ o Hok)
        by (right; cbn; rewrite len_nil; cbn; lia).
  - vm_compute. reflexivity.
  - vm_compute. discriminate.
Qed.
